(** * ListenBrainz to Spotify history converter: a shallow embedding of main.py

    The model follows the layout of the script:
    - Python strings and the [str] methods the script calls;
    - a small backtracking regular-expression engine with [re.sub];
    - JSON values, the exceptions of dynamic access, [datetime];
    - [normalize_string], [convert_lb_entry_to_spotify_format], the result
      cache, the search endpoint and the resolver ([query_spotify_api],
      [try_alternate_queries]), and the body of the loop of
      [convert_with_spotify_api].
    After the model come the vocabulary of the statements, the properties
    of each layer, and the statements about the script, numbered as the
    claims they settle. *)

From Stdlib Require Import ZArith NArith List Ascii Lia Bool.
From Stdlib Require String.
Import String.StringSyntax.
Delimit Scope string_scope with string.
From stdpp Require Import base option list gmap sorting.

Local Open Scope N_scope.

(** ** Python strings

    A Python [str] is a sequence of Unicode code points.  Code points are
    modelled as [N], so every string the script can meet is covered. *)

Abbreviation pystr := (list N).

(** A string literal: the code points of an ASCII literal of the source. *)
Definition py (s : String.string) : pystr :=
  map N_of_ascii (String.list_ascii_of_string s).

Arguments py s%_string.

Module Str.

(** [str.isspace] on one code point; the same table decides [\s] in a
    [str] pattern and what [str.strip] removes. *)
Definition isspace (c : N) : bool :=
  ((9 <=? c) && (c <=? 13)) || ((28 <=? c) && (c <=? 32))
  || (c =? 133) || (c =? 160) || (c =? 5760)
  || ((8192 <=? c) && (c <=? 8202))
  || (c =? 8232) || (c =? 8233) || (c =? 8239) || (c =? 8287)
  || (c =? 12288).

Definition is_lower_az (c : N) : bool := (97 <=? c) && (c <=? 122).
Definition is_upper_az (c : N) : bool := (65 <=? c) && (c <=? 90).
Definition is_digit (c : N) : bool := (48 <=? c) && (c <=? 57).
Definition is_ascii (c : N) : bool := c <? 128.

(** [str.lower] restricted to one ASCII code point. *)
Definition ascii_lower (c : N) : N := if is_upper_az c then c + 32 else c.

(** [s.lstrip()], [s.rstrip()], [s.strip()] *)
Fixpoint lstrip (s : pystr) : pystr :=
  match s with
  | c :: s' => if isspace c then lstrip s' else s
  | [] => []
  end.

Definition rstrip (s : pystr) : pystr := rev (lstrip (rev s)).

Definition strip (s : pystr) : pystr := rstrip (lstrip s).

(** [s.startswith(p)] *)
Fixpoint startswith (p s : pystr) : bool :=
  match p, s with
  | [], _ => true
  | a :: p', b :: s' => (a =? b) && startswith p' s'
  | _ :: _, [] => false
  end.

(** [p in s] for two strings *)
Fixpoint contains (p s : pystr) : bool :=
  startswith p s ||
  match s with
  | [] => false
  | _ :: s' => contains p s'
  end.

(** [s.split(sep)] for a non-empty separator: [cur] is the segment being
    collected, [skip] the number of characters of a separator still to be
    passed over. *)
Fixpoint split_from (sep : pystr) (skip : nat) (cur : pystr) (s : pystr)
  : list pystr :=
  match s with
  | [] => [cur]
  | c :: s' =>
      match skip with
      | S n => split_from sep n cur s'
      | O =>
          if startswith sep s
          then cur :: split_from sep (length sep - 1)%nat [] s'
          else split_from sep 0%nat (cur ++ [c]) s'
      end
  end.

Definition split (sep s : pystr) : list pystr := split_from sep 0%nat [] s.

(** [s.replace(old, new)] for a non-empty [old] *)
Fixpoint replace_from (old new : pystr) (skip : nat) (s : pystr) : pystr :=
  match s with
  | [] => []
  | c :: s' =>
      match skip with
      | S n => replace_from old new n s'
      | O =>
          if startswith old s
          then new ++ replace_from old new (length old - 1)%nat s'
          else c :: replace_from old new 0%nat s'
      end
  end.

Definition replace (old new s : pystr) : pystr := replace_from old new 0%nat s.

End Str.

(** ** Regular expressions

    The fragment of [re] the script uses, with the backtracking semantics
    of the [re] module: alternatives and quantifiers are tried in priority
    order and the first way to complete the whole match wins. *)

Module Re.

Inductive regex :=
| Lit (c : N)                (* one literal character *)
| Class (p : N -> bool)      (* one character of a class *)
| Seq (r1 r2 : regex)        (* r1 r2 *)
| Or (r1 r2 : regex)         (* r1|r2 *)
| Empty                      (* the empty pattern *)
| Star (r : regex)           (* r*   greedy *)
| LazyStar (r : regex).      (* r*?  non-greedy *)

Definition Opt (r : regex) : regex := Or r Empty.     (* r?  greedy *)
Definition Plus (r : regex) : regex := Seq r (Star r). (* r+  greedy *)

(** A literal string. *)
Definition Lits (s : pystr) : regex := fold_right (fun c r => Seq (Lit c) r) Empty s.

Definition Seqs (rs : list regex) : regex := fold_right Seq Empty rs.

(** [\s] and [.] (no DOTALL flag: every character but the newline) *)
Definition space : regex := Class Str.isspace.
Definition dot : regex := Class (fun c => negb (c =? 10)).

(** A continuation receives what is left of the subject after the part
    matched so far, and answers with what is left after the whole match. *)
Abbreviation cont := (pystr -> option pystr).

(** The loop of a quantifier: [body] matches one iteration.  An iteration
    must consume a character, so [length s] iterations are enough. *)
Fixpoint star_loop (greedy : bool) (body : pystr -> cont -> option pystr)
    (fuel : nat) (s : pystr) (k : cont) : option pystr :=
  match fuel with
  | O => k s
  | S n =>
      let again :=
        body s (fun s' =>
                  if (length s' <? length s)%nat
                  then star_loop greedy body n s' k else None) in
      if greedy
      then match again with Some r => Some r | None => k s end
      else match k s with Some r => Some r | None => again end
  end.

Fixpoint rmatch (r : regex) (s : pystr) (k : cont) : option pystr :=
  match r with
  | Lit c =>
      match s with
      | x :: s' => if x =? c then k s' else None
      | [] => None
      end
  | Class p =>
      match s with
      | x :: s' => if p x then k s' else None
      | [] => None
      end
  | Seq r1 r2 => rmatch r1 s (fun s' => rmatch r2 s' k)
  | Or r1 r2 =>
      match rmatch r1 s k with
      | Some rest => Some rest
      | None => rmatch r2 s k
      end
  | Empty => k s
  | Star r1 => star_loop true (rmatch r1) (length s) s k
  | LazyStar r1 => star_loop false (rmatch r1) (length s) s k
  end.

(** [pattern.match(s)]: the rest of [s] after the match at its start. *)
Definition match_at (r : regex) (s : pystr) : option pystr := rmatch r s Some.

(** [re.sub(r, repl, s)] for a literal replacement: scan [s] from the
    left; [skip] counts the characters of the current match still to be
    dropped. *)
Fixpoint sub_from (r : regex) (repl : pystr) (skip : nat) (s : pystr) : pystr :=
  match skip with
  | S n =>
      match s with
      | _ :: s' => sub_from r repl n s'
      | [] => []
      end
  | O =>
      match match_at r s with
      | Some rest =>
          repl ++
          match (length s - length rest)%nat with
          | S m =>
              match s with
              | _ :: s' => sub_from r repl m s'
              | [] => []
              end
          | O =>
              match s with
              | c :: s' => c :: sub_from r repl 0%nat s'
              | [] => []
              end
          end
      | None =>
          match s with
          | c :: s' => c :: sub_from r repl 0%nat s'
          | [] => []
          end
      end
  end.

Definition sub (r : regex) (repl s : pystr) : pystr := sub_from r repl 0%nat s.

End Re.

(** ** Helpers of the script *)

(** The patterns of [normalize_string], in source order:
    [\s*\(feat\.?.*?\)], [\s*\[.*?\]], [[^a-z0-9 ]], [\s+]. *)
Definition re_feat : Re.regex :=
  Re.Seqs [Re.Star Re.space; Re.Lit 40; Re.Lits (py "feat"); Re.Opt (Re.Lit 46);
           Re.LazyStar Re.dot; Re.Lit 41].

Definition re_bracket : Re.regex :=
  Re.Seqs [Re.Star Re.space; Re.Lit 91; Re.LazyStar Re.dot; Re.Lit 93].

Definition norm_char (c : N) : bool :=
  Str.is_lower_az c || Str.is_digit c || (c =? 32).

Definition re_not_norm : Re.regex := Re.Class (fun c => negb (norm_char c)).

Definition re_spaces : Re.regex := Re.Plus Re.space.

(** The pattern of variant (d) of [try_alternate_queries]:
    [\s*\(.*?\)|\[.*?\]]. *)
Definition re_paren_or_bracket : Re.regex :=
  Re.Or (Re.Seqs [Re.Star Re.space; Re.Lit 40; Re.LazyStar Re.dot; Re.Lit 41])
        (Re.Seqs [Re.Lit 91; Re.LazyStar Re.dot; Re.Lit 93]).

(** *** JSON values and the exceptions of dynamic access

    What [json.loads] returns.  Numbers are the integers; floating-point
    numbers are outside the model.  [JObj] lists the items of a [dict]
    (keys are distinct there, [json.loads] keeps one value per key). *)
#[warnings="-register-all"]
Inductive json :=
| JNull
| JBool (b : bool)
| JInt (z : Z)
| JStr (s : pystr)
| JArr (l : list json)
| JObj (items : list (pystr * json)).

Inductive exn :=
| JSONDecodeError | KeyError | TypeError | AttributeError | ValueError.

Inductive result (A : Type) :=
| Ok (a : A)
| Raise (e : exn).

Arguments Ok {A} a.
Arguments Raise {A} e.

Module Py.

Fixpoint assoc (k : pystr) (items : list (pystr * json)) : option json :=
  match items with
  | [] => None
  | (k', v) :: rest => if decide (k' = k) then Some v else assoc k rest
  end.

(** [j[k]] for a string [k] *)
Definition getitem (j : json) (k : pystr) : result json :=
  match j with
  | JObj items =>
      match assoc k items with
      | Some v => Ok v
      | None => Raise KeyError
      end
  | _ => Raise TypeError
  end.

(** [j.get(k, default)]: only a [dict] has the method *)
Definition get (j : json) (k : pystr) (default : json) : result json :=
  match j with
  | JObj items =>
      match assoc k items with
      | Some v => Ok v
      | None => Ok default
      end
  | _ => Raise AttributeError
  end.

(** [j.strip()]: only a [str] has the method *)
Definition strip (j : json) : result pystr :=
  match j with
  | JStr s => Ok (Str.strip s)
  | _ => Raise AttributeError
  end.

(** [j.split(sep)[-1]] *)
Definition split_last (sep : pystr) (j : json) : result pystr :=
  match j with
  | JStr s => Ok (List.last (Str.split sep s) [])
  | _ => Raise AttributeError
  end.

(** truth value of [j] in a condition *)
Definition truthy (j : json) : bool :=
  match j with
  | JNull => false
  | JBool b => b
  | JInt z => negb (z =? 0)%Z
  | JStr s => negb (bool_decide (s = []))
  | JArr l => negb (bool_decide (l = []))
  | JObj items => negb (bool_decide (items = []))
  end.

Definition is_str (s : pystr) (j : json) : bool :=
  match j with
  | JStr s' => bool_decide (s' = s)
  | _ => false
  end.

(** [s in j] for a string [s]: substring of a [str], element of a
    [list], key of a [dict]; other values are not containers *)
Definition contains (s : pystr) (j : json) : result bool :=
  match j with
  | JStr s' => Ok (Str.contains s s')
  | JArr l => Ok (existsb (is_str s) l)
  | JObj items => Ok (bool_decide (is_Some (assoc s items)))
  | _ => Raise TypeError
  end.

(** [j == s] for a string [s] *)
Definition eq_str (j : json) (s : pystr) : bool := is_str s j.

End Py.

(** *** [datetime.utcfromtimestamp(t).isoformat()] for an integer [t] *)

Module Datetime.

Local Open Scope Z_scope.

(** Year, month and day of the proleptic Gregorian calendar, from the
    number of days since 1970-01-01. *)
Definition civil_from_days (days : Z) : Z * Z * Z :=
  let z := days + 719468 in
  let era := z / 146097 in
  let doe := z - era * 146097 in
  let yoe := (doe - doe / 1460 + doe / 36524 - doe / 146096) / 365 in
  let doy := doe - (365 * yoe + yoe / 4 - yoe / 100) in
  let mp := (5 * doy + 2) / 153 in
  let d := doy - (153 * mp + 2) / 5 + 1 in
  let m := if mp <? 10 then mp + 3 else mp - 9 in
  let y := yoe + era * 400 in
  (if m <=? 2 then y + 1 else y, m, d).

Definition digit (z : Z) : N := (48 + Z.to_N (z mod 10))%N.

Definition two_digits (z : Z) : pystr := [digit (z / 10); digit z].

Definition four_digits (z : Z) : pystr :=
  [digit (z / 1000); digit (z / 100); digit (z / 10); digit z].

(** The first and the last second of the years 1 to 9999. *)
Definition min_timestamp : Z := -62135596800.
Definition max_timestamp : Z := 253402300799.

(** [YYYY-MM-DDTHH:MM:SS]; a timestamp outside the years 1 to 9999
    raises ([ValueError] or [OverflowError]; one name stands for both). *)
Definition utcfromtimestamp_isoformat (t : Z) : result pystr :=
  if (min_timestamp <=? t) && (t <=? max_timestamp)
  then
    let '(y, m, d) := civil_from_days (t / 86400) in
    let secs := t mod 86400 in
    Ok (four_digits y ++ py "-" ++ two_digits m ++ py "-" ++ two_digits d
        ++ py "T" ++ two_digits (secs / 3600) ++ py ":"
        ++ two_digits (secs mod 3600 / 60) ++ py ":" ++ two_digits (secs mod 60))
  else Raise ValueError.

(** The argument of [utcfromtimestamp]: an [int] (a [bool] is one). *)
Definition as_timestamp (j : json) : result Z :=
  match j with
  | JInt z => Ok z
  | JBool b => Ok (if b then 1 else 0)
  | _ => Raise TypeError
  end.

End Datetime.

(** *** The match stored in the cache, and the output record *)

Module Match.
Record t := mk { spotify_track_uri : pystr; album_name : pystr }.
End Match.

#[export] Instance match_eq_dec : EqDecision Match.t.
Proof. solve_decision. Defined.

Record record := {
  ts : pystr;
  username : pystr;
  platform : pystr;
  ms_played : json;
  conn_country : pystr;
  ip_addr_decrypted : option pystr;
  user_agent_decrypted : option pystr;
  master_metadata_track_name : pystr;
  master_metadata_album_artist_name : pystr;
  master_metadata_album_album_name : pystr;
  spotify_track_uri : option pystr;
  episode_name : option pystr;
  episode_show_name : option pystr;
  spotify_episode_uri : option pystr;
  reason_start : pystr;
  reason_end : option pystr;
  shuffle : bool;
  skipped : bool;
  offline : bool;
  offline_timestamp : Z;
  incognito_mode : bool
}.

(** *** The search endpoint

    One item of [tracks.items]: [item["uri"]] and [item["album"]["name"]].
    The endpoint is taken to answer with strings there; the script stores
    what it finds without looking at it, so an item whose uri is null
    would be a match without a uri. *)
Record item := { uri : pystr; album : pystr }.

(** What lines 140-149 of [query_spotify_api] observe of one request:
    an exception ([quote], [requests.get], [response.json()] or the
    access to the item raises), or a status code with the list
    [tracks.items] of the body (empty when the keys are absent). *)
Inductive response :=
| Raised
| Status (code : Z) (items : list item).

(** What [print] writes.  The standard output is taken to accept every
    string, so that [print] does not raise; with the strict UTF-8 encoder
    a string that holds a lone surrogate raises [UnicodeEncodeError]. *)
Inductive message :=
| MsgCache (artist track : pystr)
| MsgFound (artist track : pystr) (pattern : nat)
| MsgApiError (artist track : pystr) (pattern : nat)
| MsgNotFound (artist track : pystr)
| MsgUsedLB (artist track : pystr)
| MsgProcessed (count : Z)
| MsgProcessingError (e : exn).

(** The monad of [result]: an exception ends the computation. *)
#[export] Instance result_ret : MRet result := @Ok.
#[export] Instance result_bind : MBind result := fun A B f m =>
  match m with
  | Ok a => f a
  | Raise e => Raise e
  end.

Section Program.

(** [str.lower] on a whole string (it is not a per-character map: the
    lower case of a capital sigma depends on its neighbours, and one code
    point may become two).  The Unicode tables are not part of the script;
    the function is a parameter. *)
Variable lower : pystr -> pystr.

(** [json.loads]; [None] when it raises. *)
Variable json_loads : pystr -> option json.

(** The search endpoint: [http_get token query] is one
    [requests.get] with the bearer token, on some state of the remote
    service. *)
Context {net_state : Type}.
Variable http_get : pystr -> pystr -> net_state -> response * net_state.

Definition normalize_string (s : pystr) : pystr :=
  let s := lower s in
  let s := Re.sub re_feat [] s in
  let s := Re.sub re_bracket [] s in
  let s := Re.sub re_not_norm [] s in
  let s := Re.sub re_spaces (py " ") s in
  Str.strip s.

Definition convert_lb_entry_to_spotify_format
    (entry : json) (username country_code : pystr) : result record :=
  meta ← Py.getitem entry (py "track_metadata");
  info ← Py.get meta (py "additional_info") (JObj []);
  listened_at ← Py.getitem entry (py "listened_at");
  t ← Datetime.as_timestamp listened_at;
  iso ← Datetime.utcfromtimestamp_isoformat t;
  let ts_raw := iso ++ py "Z" in
  artist_raw ← Py.get meta (py "artist_name") (JStr []) ≫= Py.strip;
  track_raw ← Py.get meta (py "track_name") (JStr []) ≫= Py.strip;
  album_raw ← Py.get meta (py "release_name") (JStr []) ≫= Py.strip;
  spotify_id ← Py.get info (py "spotify_id") JNull;
  is_track ← (if Py.truthy spotify_id
              then Py.contains (py "open.spotify.com/track/") spotify_id
              else Ok false);
  spotify_uri ← (if is_track : bool
                 then seg ← Py.split_last (py "/") spotify_id;
                      Ok (Some (py "spotify:track:" ++ seg))
                 else Ok None);
  duration_ms ← Py.get info (py "duration_ms") (JInt 0);
  Ok {|
    ts := ts_raw;
    username := username;
    platform := py "ListenBrainz Importer";
    ms_played := duration_ms;
    conn_country := country_code;
    ip_addr_decrypted := None;
    user_agent_decrypted := None;
    master_metadata_track_name := track_raw;
    master_metadata_album_artist_name := artist_raw;
    master_metadata_album_album_name := album_raw;
    spotify_track_uri := spotify_uri;
    episode_name := None;
    episode_show_name := None;
    spotify_episode_uri := None;
    reason_start := py "trackdone";
    reason_end := None;
    shuffle := false;
    skipped := false;
    offline := true;
    offline_timestamp := t * 1000;
    incognito_mode := false
  |}.

(** *** The cache and the resolver

    [cache] is the dict every call shares, [cache_file] the content of
    CACHE_FILE ([None]: the file does not exist; reading back what
    [json.dump] wrote gives the same mapping), [requests] the search
    requests sent so far with what came back, [stdout] what was printed.
    Storage is taken to be reliable: [save_cache] does not raise. *)
Record env := {
  cache : gmap pystr (option Match.t);
  cache_file : option (gmap pystr (option Match.t));
  net : net_state;
  requests : list (pystr * response);
  stdout : list message
}.

Definition print (m : message) (w : env) : env :=
  {| cache := cache w; cache_file := cache_file w; net := net w;
     requests := requests w; stdout := stdout w ++ [m] |}.

Definition load_cache (w : env) : env :=
  {| cache := default ∅ (cache_file w); cache_file := cache_file w;
     net := net w; requests := requests w; stdout := stdout w |}.

Definition save_cache (w : env) : env :=
  {| cache := cache w; cache_file := Some (cache w); net := net w;
     requests := requests w; stdout := stdout w |}.

(** [cache[key] = value] *)
Definition cache_set (key : pystr) (value : option Match.t) (w : env) : env :=
  {| cache := <[key := value]> (cache w); cache_file := cache_file w;
     net := net w; requests := requests w; stdout := stdout w |}.

(** [requests.get(url, headers=headers)] for the url of [query] *)
Definition send (token query : pystr) (w : env) : response * env :=
  let '(resp, n) := http_get token query (net w) in
  (resp, {| cache := cache w; cache_file := cache_file w; net := n;
            requests := requests w ++ [(query, resp)]; stdout := stdout w |}).

Definition base_key (artist track : pystr) : pystr := artist ++ py "|" ++ track.

Definition queries (artist track : pystr) : list pystr :=
  [ track ++ py " artist:" ++ artist;
    track ++ py " " ++ artist;
    py "track:" ++ track ].

(** The [for i, query in enumerate(queries)] loop of [query_spotify_api]
    from index [i] on, followed by the code after the loop. *)
Fixpoint search_loop (artist track token : pystr) (i : nat)
    (qs : list pystr) (w : env) : option Match.t * env :=
  match qs with
  | [] =>
      let w := print (MsgNotFound artist track) w in
      let w := cache_set (base_key artist track) None w in
      (None, save_cache w)
  | query :: qs' =>
      let '(resp, w) := send token query w in
      match resp with
      | Raised =>
          search_loop artist track token (S i) qs'
            (print (MsgApiError artist track (S i)) w)
      | Status code items =>
          match (code =? 200)%Z, items with
          | true, it :: _ =>
              let result := Match.mk (uri it) (album it) in
              let w := cache_set (base_key artist track) (Some result) w in
              let w := save_cache w in
              (Some result, print (MsgFound artist track (S i)) w)
          | _, _ => search_loop artist track token (S i) qs' w
          end
      end
  end.

Definition query_spotify_api (artist track token : pystr) (w : env)
  : option Match.t * env :=
  match cache w !! base_key artist track with
  | Some entry => (entry, print (MsgCache artist track) w)
  | None => search_loop artist track token 0 (queries artist track) w
  end.

Definition alternates (artist_norm track_norm : pystr) : list (pystr * pystr) :=
  [ (artist_norm, track_norm);
    ([], track_norm);
    (List.hd [] (Str.split (py " feat") artist_norm), track_norm);
    (artist_norm, Re.sub re_paren_or_bracket [] track_norm);
    (artist_norm, Str.strip (Str.replace (py "remastered") [] track_norm)) ].

(** The [for alt_artist, alt_track in alternates] loop and the
    [return None] after it. *)
Fixpoint alternates_loop (alts : list (pystr * pystr)) (token : pystr) (w : env)
  : option Match.t * env :=
  match alts with
  | [] => (None, w)
  | (alt_artist, alt_track) :: alts' =>
      if bool_decide (Str.strip alt_track = [])
      then alternates_loop alts' token w
      else
        let '(result, w) :=
          query_spotify_api (Str.strip alt_artist) (Str.strip alt_track) token w in
        match result with
        | Some r => (Some r, w)
        | None => alternates_loop alts' token w
        end
  end.

Definition try_alternate_queries (artist_norm track_norm token : pystr) (w : env)
  : option Match.t * env :=
  alternates_loop (alternates artist_norm track_norm) token w.

(** *** The main loop *)

Record state := {
  world : env;
  output_data : list record;
  unknowns : gset pystr;
  processed_count : Z;
  skipped_spotify : Z
}.

(** Statements of the loop body: they may change the state and may
    raise. *)
Definition M (A : Type) : Type := state -> result A * state.

#[local] Instance M_ret : MRet M := fun A a st => (Ok a, st).
#[local] Instance M_bind : MBind M := fun A B f m st =>
  match m st with
  | (Ok a, st') => f a st'
  | (Raise e, st') => (Raise e, st')
  end.

(** A pure expression that may raise. *)
Definition eval {A} (r : result A) : M A := fun st => (r, st).

(** A call that works on the shared cache and the network. *)
Definition call {A} (f : env -> A * env) : M A := fun st =>
  let '(a, w) := f (world st) in
  (Ok a, {| world := w; output_data := output_data st; unknowns := unknowns st;
            processed_count := processed_count st;
            skipped_spotify := skipped_spotify st |}).

(** [print(...)] in the loop body; as everywhere in the model it does
    not raise (see [message]). *)
Definition say (m : message) : M unit := call (fun w => (tt, print m w)).

Definition count_skipped_spotify : M unit := fun st =>
  (Ok tt, {| world := world st; output_data := output_data st;
             unknowns := unknowns st; processed_count := processed_count st;
             skipped_spotify := skipped_spotify st + 1 |}).

(** [output_data.append(record); processed_count += 1], giving the new
    count *)
Definition append_record (r : record) : M Z := fun st =>
  (Ok (processed_count st + 1)%Z,
   {| world := world st; output_data := output_data st ++ [r];
      unknowns := unknowns st; processed_count := processed_count st + 1;
      skipped_spotify := skipped_spotify st |}).

Definition unknowns_add (s : pystr) : M unit := fun st =>
  (Ok tt, {| world := world st; output_data := output_data st;
             unknowns := {[ s ]} ∪ unknowns st;
             processed_count := processed_count st;
             skipped_spotify := skipped_spotify st |}).

(** The body of the [try] of lines 189-262, for one line. *)
Definition process_line (username country_code token line : pystr) : M unit :=
  entry ← eval (from_option Ok (Raise JSONDecodeError) (json_loads line));
  meta ← eval (Py.getitem entry (py "track_metadata"));
  info ← eval (Py.get meta (py "additional_info") (JObj []));
  music_service ← eval (Py.get info (py "music_service") JNull);
  if Py.eq_str music_service (py "spotify.com")
  then count_skipped_spotify
  else
    listened_at ← eval (Py.getitem entry (py "listened_at"));
    t ← eval (Datetime.as_timestamp listened_at);
    iso ← eval (Datetime.utcfromtimestamp_isoformat t);
    let ts_raw := iso ++ py "Z" in
    artist_raw ← eval (Py.get meta (py "artist_name") (JStr []) ≫= Py.strip);
    track_raw ← eval (Py.get meta (py "track_name") (JStr []) ≫= Py.strip);
    album_raw ← eval (Py.get meta (py "release_name") (JStr []) ≫= Py.strip);
    let artist_norm := normalize_string artist_raw in
    let track_norm := normalize_string track_raw in
    lb_spotify_id ← eval (Py.get info (py "spotify_id") JNull);
    is_track ← eval (if Py.truthy lb_spotify_id
                     then Py.contains (py "open.spotify.com/track/") lb_spotify_id
                     else Ok false);
    if is_track : bool
    then
      record ← eval (convert_lb_entry_to_spotify_format entry username country_code);
      _ ← append_record record;
      say (MsgUsedLB (master_metadata_album_artist_name record)
                     (master_metadata_track_name record))
    else
      api_result ← call (try_alternate_queries artist_norm track_norm token);
      '(spotify_uri, album_name) ←
        match api_result with
        | Some r => mret (Some (Match.spotify_track_uri r), Match.album_name r)
        | None =>
            unknowns_add (artist_raw ++ [32; 8211; 32] ++ track_raw);;
            mret (None, album_raw)
        end;
      duration_ms ← eval (Py.get info (py "duration_ms") (JInt 0));
      count ← append_record {|
        ts := ts_raw;
        username := username;
        platform := py "ListenBrainz Importer";
        ms_played := duration_ms;
        conn_country := country_code;
        ip_addr_decrypted := None;
        user_agent_decrypted := None;
        master_metadata_track_name := track_raw;
        master_metadata_album_artist_name := artist_raw;
        master_metadata_album_album_name := album_name;
        spotify_track_uri := spotify_uri;
        episode_name := None;
        episode_show_name := None;
        spotify_episode_uri := None;
        reason_start := py "trackdone";
        reason_end := None;
        shuffle := false;
        skipped := false;
        offline := true;
        offline_timestamp := t * 1000;
        incognito_mode := false
      |};
      if (count mod 100 =? 0)%Z then say (MsgProcessed count) else mret tt.

(** One iteration of [for line in f]: the [try] and its
    [except Exception]. *)
Definition handle_line (username country_code token line : pystr) (st : state)
  : state :=
  match process_line username country_code token line st with
  | (Ok _, st') => st'
  | (Raise e, st') => snd (say (MsgProcessingError e) st')
  end.

(** [convert_with_spotify_api] up to the end of the loops: [files] lists
    the lines of each .jsonl file in the order of the walk, [token] is
    what [get_spotify_access_token] returned.  The files are taken to be
    UTF-8: the lines are read outside the [try], and a file that cannot
    be decoded ends the run there with [UnicodeDecodeError]. *)
Definition convert_with_spotify_api (files : list (list pystr))
    (username country_code token : pystr) (w : env) : state :=
  fold_left (fun st line => handle_line username country_code token line st)
    (concat files)
    {| world := load_cache w; output_data := []; unknowns := ∅;
       processed_count := 0; skipped_spotify := 0 |}.

End Program.

#[export] Existing Instances M_ret M_bind.

(** * The rest of the script *)

(** ** More [str] methods *)

Module Str2.

(** [s.endswith(suffix)] *)
Definition endswith (suffix s : pystr) : bool :=
  Str.startswith (rev suffix) (rev s).

(** [sep.join(l)] *)
Fixpoint join (sep : pystr) (l : list pystr) : pystr :=
  match l with
  | [] => []
  | [x] => x
  | x :: l' => x ++ sep ++ join sep l'
  end.

(** [a <= b] on strings: the order of [sorted], code point by code
    point, a proper prefix first. *)
Fixpoint le (a b : pystr) : bool :=
  match a, b with
  | [], _ => true
  | _ :: _, [] => false
  | x :: a', y :: b' =>
      if x <? y then true else if y <? x then false else le a' b'
  end.

End Str2.

#[export] Instance str_le_dec (a b : pystr) : Decision (Str2.le a b = true).
Proof. apply _. Defined.

(** [sorted(l)] for a list of strings *)
Definition sorted (l : list pystr) : list pystr :=
  merge_sort (fun a b => Str2.le a b = true) l.

(** ** [all_jsonl_files_in] *)

Module Os.

(** [os.path.join(a, b)] of [posixpath] *)
Definition path_join (a b : pystr) : pystr :=
  if Str.startswith (py "/") b then b
  else if bool_decide (a = []) || Str2.endswith (py "/") a then a ++ b
  else a ++ py "/" ++ b.

(** A directory as [os.walk] reads it: the names that are not
    directories, and the names that are, each with the directory behind
    it, or [None] when [os.walk] does not go into it (a symbolic link, or
    a directory that cannot be read yields nothing of its own). *)
#[warnings="-register-all"]
Inductive dir :=
| Dir (files : list pystr) (subdirs : list (pystr * option dir)).

(** [os.walk(top)], top-down: the triple of a directory, then the walks
    of its subdirectories in the order of the listing. *)
Fixpoint walk (top : pystr) (d : dir)
  : list (pystr * list pystr * list pystr) :=
  match d with
  | Dir files subdirs =>
      (top, map fst subdirs, files) ::
      (fix walk_all (l : list (pystr * option dir)) :=
         match l with
         | [] => []
         | (name, Some sub) :: l' => walk (path_join top name) sub ++ walk_all l'
         | (_, None) :: l' => walk_all l'
         end) subdirs
  end.

End Os.

(** The generator, as the list of what it yields; [d] is the tree at
    [folder]. *)
Definition all_jsonl_files_in (folder : pystr) (d : Os.dir) : list pystr :=
  flat_map
    (fun '(root, _, files) =>
       flat_map
         (fun file =>
            if Str2.endswith (py ".jsonl") file
            then [Os.path_join root file] else [])
         files)
    (Os.walk folder d).

(** ** The report of unknown songs, line 271

    ["\n".join(sorted(unknowns))]; the newline is the code point 10, and
    [elements] stands for the order in which the set is iterated. *)

Definition unknowns_report (unknowns : gset pystr) : pystr :=
  Str2.join [10] (sorted (elements unknowns)).

(** ** The final statistics, lines 274-287 *)

Record stats := {
  total_records : Z;
  unique_artists : gset pystr;
  unique_tracks : gset pystr;
  total_ms : Z
}.

(** [total_ms += value] for an [int] on the left: an [int] (a [bool] is
    one) is added; [None], a [str], a [list] and a [dict] raise.  (A
    [float] would be added as well; the numbers of [json] are the
    integers.) *)
Definition add_ms (total : Z) (value : json) : result Z :=
  match value with
  | JInt z => Ok (total + z)%Z
  | JBool b => Ok (total + (if b then 1 else 0))%Z
  | JNull | JStr _ | JArr _ | JObj _ => Raise TypeError
  end.

(** The loop of lines 279-283, from the statistics so far. *)
Fixpoint stats_loop (output_data : list record) (s : stats) : result stats :=
  match output_data with
  | [] => Ok s
  | record :: rest =>
      total ← add_ms (total_ms s) (ms_played record);
      stats_loop rest
        {| total_records := total_records s + 1;
           unique_artists :=
             {[ master_metadata_album_artist_name record ]} ∪ unique_artists s;
           unique_tracks :=
             {[ master_metadata_track_name record ]} ∪ unique_tracks s;
           total_ms := total |}
  end.

Definition final_stats (output_data : list record) : result stats :=
  stats_loop output_data
    {| total_records := 0; unique_artists := ∅; unique_tracks := ∅;
       total_ms := 0 |}.

(** [hours] and [minutes] of lines 285-287 *)
Definition play_time (total_ms : Z) : Z * Z :=
  let total_minutes := (total_ms / 60000)%Z in
  ((total_minutes / 60)%Z, (total_minutes mod 60)%Z).

(** * The vocabulary of the statements *)

(** ** Strings in normal form *)

Definition leading_space (s : pystr) : bool :=
  match s with
  | c :: _ => Str.isspace c
  | [] => false
  end.

Abbreviation norm_chars := (Forall (fun c => norm_char c = true)).

(** No whitespace but single blanks. *)
Fixpoint collapsed (s : pystr) : bool :=
  match s with
  | [] => true
  | c :: s' =>
      (if Str.isspace c then (c =? 32) && negb (leading_space s') else true)
      && collapsed s'
  end.

(** Lowercase letters, digits and single blanks, none at either end. *)
Definition normal (s : pystr) : Prop :=
  norm_chars s /\ collapsed s = true /\
  leading_space s = false /\ leading_space (rev s) = false.

(** ** Requests and the cache *)

(** The match a response yields: status 200 and at least one item. *)
Definition top_match (resp : response) : option Match.t :=
  match resp with
  | Status code (it :: _) =>
      if (code =? 200)%Z then Some (Match.mk (uri it) (album it)) else None
  | _ => None
  end.

Definition no_hit (x : pystr * response) : Prop := top_match x.2 = None.

(** The pairs [try_alternate_queries] passes to [query_spotify_api]:
    the variants whose track is not empty, stripped. *)
Fixpoint live (alts : list (pystr * pystr)) : list (pystr * pystr) :=
  match alts with
  | [] => []
  | (a, t) :: alts' =>
      if bool_decide (Str.strip t = []) then live alts'
      else (Str.strip a, Str.strip t) :: live alts'
  end.

(** The pairs of [l] that reach the network when the loop starts with
    the cache [c] and no request finds anything: a pair with a cached
    match ends the loop, a pair with a cached null is passed over, and a
    pair that was searched leaves a null behind. *)
Fixpoint pending (c : gmap pystr (option Match.t)) (l : list (pystr * pystr))
  : list (pystr * pystr) :=
  match l with
  | [] => []
  | (a, t) :: l' =>
      match c !! base_key a t with
      | Some (Some _) => []
      | Some None => pending c l'
      | None => (a, t) :: pending (<[base_key a t := None]> c) l'
      end
  end.

(** The formulations of a list of pairs, in order. *)
Definition formulations (l : list (pystr * pystr)) : list pystr :=
  flat_map (fun p => queries p.1 p.2) l.

Section Environments.

Context {net_state : Type}.

Implicit Types (w : @env net_state).

(** [w] after more output. *)
Definition with_stdout (out : list message) w : env :=
  {| cache := cache w; cache_file := cache_file w; net := net w;
     requests := requests w; stdout := stdout w ++ out |}.

(** The file holds what the cache holds. *)
Definition synced w : Prop := default ∅ (cache_file w) = cache w.

(** Two environments that differ in [stdout] at most. *)
Definition same_io w1 w2 : Prop :=
  cache w1 = cache w2 /\ cache_file w1 = cache_file w2 /\
  net w1 = net w2 /\ requests w1 = requests w2.

(** A variant that is skipped, or whose key holds a null. *)
Definition settled (v : pystr * pystr) w : Prop :=
  Str.strip v.2 = [] \/
  cache w !! base_key (Str.strip v.1) (Str.strip v.2) = Some None.

End Environments.

(** ** The calendar *)

Module Calendar.
Import Datetime.

Local Open Scope Z_scope.

(** A date [k] times 400 years later. *)
Definition later (k : Z) (date : Z * Z * Z) : Z * Z * Z :=
  let '(y, m, d) := date in (y + k * 400, m, d).

(** The value of a string of decimal digits. *)
Definition digits_value (s : pystr) : Z :=
  fold_left (fun acc c => 10 * acc + (Z.of_N c - 48)) s 0.

End Calendar.

(** ** The loop body *)

(** The record of lines 234-256 (and of lines 71-93), as a function of
    what varies. *)
Definition output_of (username country_code ts_raw track_raw artist_raw
    album_name : pystr) (spotify_uri : option pystr) (duration_ms : json)
    (t : Z) : record :=
  {| ts := ts_raw;
     username := username;
     platform := py "ListenBrainz Importer";
     ms_played := duration_ms;
     conn_country := country_code;
     ip_addr_decrypted := None;
     user_agent_decrypted := None;
     master_metadata_track_name := track_raw;
     master_metadata_album_artist_name := artist_raw;
     master_metadata_album_album_name := album_name;
     spotify_track_uri := spotify_uri;
     episode_name := None;
     episode_show_name := None;
     spotify_episode_uri := None;
     reason_start := py "trackdone";
     reason_end := None;
     shuffle := false;
     skipped := false;
     offline := true;
     offline_timestamp := t * 1000;
     incognito_mode := false |}.

(** The fields of an event the loop body reads before it decides what
    to do with it. *)
Record fields := {
  f_meta : json;
  f_info : list (pystr * json);
  f_listened_at : Z;
  f_iso : pystr;
  f_artist_raw : pystr;
  f_track_raw : pystr;
  f_album_raw : pystr;
  f_spotify_id : json
}.

Definition reads (entry : json) (f : fields) : Prop :=
  Py.getitem entry (py "track_metadata") = Ok (f_meta f) /\
  Py.get (f_meta f) (py "additional_info") (JObj []) = Ok (JObj (f_info f)) /\
  Py.getitem entry (py "listened_at") ≫= Datetime.as_timestamp
    = Ok (f_listened_at f) /\
  Datetime.utcfromtimestamp_isoformat (f_listened_at f) = Ok (f_iso f) /\
  Py.get (f_meta f) (py "artist_name") (JStr []) ≫= Py.strip
    = Ok (f_artist_raw f) /\
  Py.get (f_meta f) (py "track_name") (JStr []) ≫= Py.strip
    = Ok (f_track_raw f) /\
  Py.get (f_meta f) (py "release_name") (JStr []) ≫= Py.strip
    = Ok (f_album_raw f) /\
  Py.get (JObj (f_info f)) (py "spotify_id") JNull = Ok (f_spotify_id f).

(** [duration_ms], 0 when absent. *)
Definition duration_of (f : fields) : json :=
  default (JInt 0) (Py.assoc (py "duration_ms") (f_info f)).

(** The condition of the fast path, lines 67 and 210. *)
Definition has_track_reference (spotify_id : json) : result bool :=
  if Py.truthy spotify_id
  then Py.contains (py "open.spotify.com/track/") spotify_id
  else Ok false.

(** [music_service], [None] when absent. *)
Definition music_service_of (info : list (pystr * json)) : json :=
  default JNull (Py.assoc (py "music_service") info).

(** What the loop body does with a line; the line alone decides it. *)
Inductive decision :=
| Fails (e : exn)       (* an exception, caught and printed *)
| Skip                  (* a Spotify listen, passed over *)
| Direct (r : record)   (* the record is built from the event *)
| Resolve (f : fields). (* the resolver is asked *)

Section States.

Context {net_state : Type}.

Implicit Types (st : @state net_state) (w : @env net_state).

Definition set_world w st : state :=
  {| world := w; output_data := output_data st; unknowns := unknowns st;
     processed_count := processed_count st;
     skipped_spotify := skipped_spotify st |}.

(** The state after a Spotify listen was passed over. *)
Definition after_skip st : state :=
  {| world := world st; output_data := output_data st; unknowns := unknowns st;
     processed_count := processed_count st;
     skipped_spotify := skipped_spotify st + 1 |}.

(** The state after an error was caught and printed. *)
Definition after_error (e : exn) st : state :=
  set_world (print (MsgProcessingError e) (world st)) st.

(** The state after a record was built from the event alone. *)
Definition after_direct (r : record) st : state :=
  {| world := print (MsgUsedLB (master_metadata_album_artist_name r)
                               (master_metadata_track_name r)) (world st);
     output_data := output_data st ++ [r]; unknowns := unknowns st;
     processed_count := processed_count st + 1;
     skipped_spotify := skipped_spotify st |}.

(** Two states that differ in what was printed at most. *)
Definition same_state st1 st2 : Prop :=
  same_io (world st1) (world st2) /\
  output_data st1 = output_data st2 /\
  unknowns st1 = unknowns st2 /\
  processed_count st1 = processed_count st2 /\
  skipped_spotify st1 = skipped_spotify st2.

End States.

Module Outcome.
Section Outcome.

Variable lower : pystr -> pystr.
Variable json_loads : pystr -> option json.
Context {net_state : Type}.
Variable http_get : pystr -> pystr -> net_state -> response * net_state.
Variables username country_code token : pystr.

Implicit Types (st : @state net_state) (w : @env net_state).

(** The state after the resolver was asked. *)
Definition after_resolve (f : fields) st : state :=
  let '(api_result, w) :=
    try_alternate_queries http_get (normalize_string lower (f_artist_raw f))
      (normalize_string lower (f_track_raw f)) token (world st) in
  let count := (processed_count st + 1)%Z in
  {| world := if (count mod 100 =? 0)%Z then print (MsgProcessed count) w else w;
     output_data := output_data st ++
       [output_of username country_code (f_iso f ++ py "Z") (f_track_raw f)
          (f_artist_raw f)
          (match api_result with
           | Some m => Match.album_name m
           | None => f_album_raw f
           end)
          (Match.spotify_track_uri <$> api_result)
          (duration_of f) (f_listened_at f)];
     unknowns :=
       match api_result with
       | Some _ => unknowns st
       | None => {[ f_artist_raw f ++ [32; 8211; 32] ++ f_track_raw f ]} ∪ unknowns st
       end;
     processed_count := count;
     skipped_spotify := skipped_spotify st |}.

Definition decides (line : pystr) (d : decision) : Prop :=
  match d with
  | Fails e => True
  | Skip =>
      exists entry meta info,
        json_loads line = Some entry /\
        Py.getitem entry (py "track_metadata") = Ok meta /\
        Py.get meta (py "additional_info") (JObj []) = Ok (JObj info) /\
        Py.eq_str (music_service_of info) (py "spotify.com") = true
  | Direct r =>
      exists entry f,
        json_loads line = Some entry /\ reads entry f /\
        Py.eq_str (music_service_of (f_info f)) (py "spotify.com") = false /\
        has_track_reference (f_spotify_id f) = Ok true /\
        convert_lb_entry_to_spotify_format entry username country_code = Ok r
  | Resolve f =>
      exists entry,
        json_loads line = Some entry /\ reads entry f /\
        Py.eq_str (music_service_of (f_info f)) (py "spotify.com") = false /\
        has_track_reference (f_spotify_id f) = Ok false
  end.

Definition run_body (d : decision) st : result unit * state :=
  match d with
  | Fails e => (Raise e, st)
  | Skip => (Ok tt, after_skip st)
  | Direct r => (Ok tt, after_direct r st)
  | Resolve f => (Ok tt, after_resolve f st)
  end.

Definition finish (d : decision) st : state :=
  match d with
  | Fails e => after_error e st
  | Skip => after_skip st
  | Direct r => after_direct r st
  | Resolve f => after_resolve f st
  end.

(** The lines of the files, one after the other. *)
Definition handle_all (lines : list pystr) st : state :=
  fold_left (fun s line => handle_line lower json_loads http_get username country_code token line s) lines st.

End Outcome.
End Outcome.

(** ** Endpoints and output *)

(** Two environments with the same cache, cache file and network. *)
Definition same_store {net_state : Type} (w1 w2 : @env net_state) : Prop :=
  cache w1 = cache w2 /\ cache_file w1 = cache_file w2 /\ net w1 = net w2.

(** Two states with the same records, unknowns and counters. *)
Definition same_results {net_state : Type} (st1 st2 : @state net_state) : Prop :=
  output_data st1 = output_data st2 /\ unknowns st1 = unknowns st2 /\
  processed_count st1 = processed_count st2 /\
  skipped_spotify st1 = skipped_spotify st2.

(** [st'] holds what [st] holds, and possibly more. *)
Definition grows {net_state : Type} (st st' : @state net_state) : Prop :=
  output_data st `prefix_of` output_data st' /\
  unknowns st ⊆ unknowns st' /\
  (processed_count st <= processed_count st')%Z /\
  (skipped_spotify st <= skipped_spotify st')%Z /\
  cache (world st) ⊆ cache (world st') /\
  requests (world st) `prefix_of` requests (world st') /\
  stdout (world st) `prefix_of` stdout (world st').

(** What every record of the importer carries, whatever the event. *)
Definition imported_record (user country : pystr) (r : record) : Prop :=
  username r = user /\ conn_country r = country /\
  platform r = py "ListenBrainz Importer" /\ reason_start r = py "trackdone" /\
  ip_addr_decrypted r = None /\ user_agent_decrypted r = None /\
  episode_name r = None /\ episode_show_name r = None /\
  spotify_episode_uri r = None /\ reason_end r = None /\
  Str.strip (master_metadata_track_name r) = master_metadata_track_name r /\
  Str.strip (master_metadata_album_artist_name r) =
    master_metadata_album_artist_name r.

(** The integer a value counts as in a sum: an [int], or a [bool]. *)
Definition int_of (j : json) : option Z :=
  match j with
  | JInt z => Some z
  | JBool b => Some (if b then 1 else 0)%Z
  | _ => None
  end.

(** A value that is no number at all: [None], a [str], a [list] or a
    [dict]. *)
Definition no_number (j : json) : Prop :=
  match j with
  | JNull | JStr _ | JArr _ | JObj _ => True
  | JBool _ | JInt _ => False
  end.

(** The sum of [ms_played] over the records. *)
Definition played_ms (l : list record) : Z :=
  foldr (fun r acc => (default 0 (int_of (ms_played r)) + acc)%Z) 0%Z l.

(** The number written in [len] characters of [s] from [start] on. *)
Definition ts_field (start len : nat) (s : pystr) : Z :=
  Calendar.digits_value (take len (drop start s)).

(** A record whose [ts] and [offline_timestamp] are those of the second
    [t]: [ts] is [YYYY-MM-DDTHH:MM:SSZ] with the date of the day
    [t / 86400] and the time within that day. *)
Definition stamped (t : Z) (r : record) : Prop :=
  offline_timestamp r = (t * 1000)%Z /\
  (Datetime.min_timestamp <= t <= Datetime.max_timestamp)%Z /\
  length (ts r) = 20%nat /\
  ts r !! 4%nat = Some 45 /\ ts r !! 7%nat = Some 45 /\
  ts r !! 10%nat = Some 84 /\ ts r !! 13%nat = Some 58 /\
  ts r !! 16%nat = Some 58 /\ ts r !! 19%nat = Some 90 /\
  Datetime.civil_from_days (t / 86400) =
    (ts_field 0 4 (ts r), ts_field 5 2 (ts r), ts_field 8 2 (ts r)) /\
  (1 <= ts_field 0 4 (ts r) <= 9999)%Z /\
  (1 <= ts_field 5 2 (ts r) <= 12)%Z /\
  (1 <= ts_field 8 2 (ts r) <= 31)%Z /\
  (0 <= ts_field 11 2 (ts r) < 24)%Z /\
  (0 <= ts_field 14 2 (ts r) < 60)%Z /\
  (0 <= ts_field 17 2 (ts r) < 60)%Z /\
  (t = t / 86400 * 86400 + ts_field 11 2 (ts r) * 3600
       + ts_field 14 2 (ts r) * 60 + ts_field 17 2 (ts r))%Z.

(** A response with an exception turned into one without items. *)
Definition quiet (resp : response) : response :=
  match resp with
  | Raised => Status 200 []
  | _ => resp
  end.

Definition quiet_endpoint {net_state : Type}
    (http_get : pystr -> pystr -> net_state -> response * net_state)
    (token query : pystr) (n : net_state) : response * net_state :=
  let '(resp, n') := http_get token query n in (quiet resp, n').

(** The errors of the loop body among what was printed. *)
Definition processing_errors (out : list message) : nat :=
  length (List.filter
            (fun m => match m with MsgProcessingError _ => true | _ => false end)
            out).

(** The line of a record in the report of unknown songs. *)
Definition unknown_line (r : record) : pystr :=
  master_metadata_album_artist_name r ++ [32; 8211; 32]
  ++ master_metadata_track_name r.

(** The number of files of a tree that [os.walk] reaches and whose name
    ends with ".jsonl". *)
Fixpoint count_jsonl (d : Os.dir) : nat :=
  match d with
  | Os.Dir files subdirs =>
      (length (List.filter (Str2.endswith (py ".jsonl")) files) +
       (fix count_all (l : list (pystr * option Os.dir)) :=
          match l with
          | [] => 0
          | (_, Some sub) :: l' => count_jsonl sub + count_all l'
          | (_, None) :: l' => count_all l'
          end) subdirs)%nat
  end.

(** ** Examples *)

(** Stand-ins for the world outside the script, to run it on examples. *)
Module Examples.

(** [str.lower] on ASCII strings. *)
Definition ascii_lower_str (s : pystr) : pystr := map Str.ascii_lower s.

Definition abc123 : item :=
  {| uri := py "spotify:track:abc123"; album := py "Let It Be" |}.

(** An endpoint that finds nothing, and one that finds the same track
    for every query. *)
Definition never_found (token query : pystr) (n : unit) : response * unit :=
  (Status 200 [], tt).

Definition always_found (token query : pystr) (n : unit) : response * unit :=
  (Status 200 [abc123], tt).

(** An endpoint that answers the first formulation of "Let It Be" by
    The Beatles only. *)
Definition beatles_only (token query : pystr) (n : unit) : response * unit :=
  (if bool_decide (query = py "let it be artist:the beatles")
   then Status 200 [abc123] else Status 200 [], tt).

Definition start (c : gmap pystr (option Match.t)) : @env unit :=
  {| cache := c; cache_file := Some c; net := tt; requests := []; stdout := [] |}.

Definition fresh (w : @env unit) : state :=
  {| world := w; output_data := []; unknowns := ∅;
     processed_count := 0; skipped_spotify := 0 |}.

(** The event of the end-to-end example of the specification. *)
Definition let_it_be : json :=
  JObj [(py "listened_at", JInt 1700000000);
        (py "track_metadata",
         JObj [(py "artist_name", JStr (py "The Beatles"));
               (py "track_name", JStr (py "Let It Be"));
               (py "additional_info",
                JObj [(py "duration_ms", JInt 243000)])])].

(** A listen that came from Spotify, with the page of its track. *)
Definition from_spotify : json :=
  JObj [(py "listened_at", JInt 1700000000);
        (py "track_metadata",
         JObj [(py "artist_name", JStr (py "The Beatles"));
               (py "track_name", JStr (py "Let It Be"));
               (py "additional_info",
                JObj [(py "music_service", JStr (py "spotify.com"));
                      (py "spotify_id",
                       JStr (py "https://open.spotify.com/track/abc123"))])])].

(** A listen from elsewhere that carries the page of its track. *)
Definition with_track_page : json :=
  JObj [(py "listened_at", JInt 1700000000);
        (py "track_metadata",
         JObj [(py "artist_name", JStr (py "The Beatles"));
               (py "track_name", JStr (py "Let It Be"));
               (py "release_name", JStr (py "Let It Be"));
               (py "additional_info",
                JObj [(py "spotify_id",
                       JStr (py "https://open.spotify.com/track/abc123"))])])].

(** [json.loads] on the lines of the examples; any other line is not
    JSON. *)
Definition loads (line : pystr) : option json :=
  if bool_decide (line = py "let it be") then Some let_it_be
  else if bool_decide (line = py "from spotify") then Some from_spotify
  else if bool_decide (line = py "with track page") then Some with_track_page
  else None.

(** The fields of [with_track_page]. *)
Definition with_track_page_fields : fields :=
  {| f_meta :=
       JObj [(py "artist_name", JStr (py "The Beatles"));
             (py "track_name", JStr (py "Let It Be"));
             (py "release_name", JStr (py "Let It Be"));
             (py "additional_info",
              JObj [(py "spotify_id",
                     JStr (py "https://open.spotify.com/track/abc123"))])];
     f_info := [(py "spotify_id",
                 JStr (py "https://open.spotify.com/track/abc123"))];
     f_listened_at := 1700000000;
     f_iso := py "2023-11-14T22:13:20";
     f_artist_raw := py "The Beatles";
     f_track_raw := py "Let It Be";
     f_album_raw := py "Let It Be";
     f_spotify_id := JStr (py "https://open.spotify.com/track/abc123") |}.

End Examples.

(** More stand-ins, for the rest of the script. *)
Module Samples.

(** An endpoint whose every request raises. *)
Definition unreachable (token query : pystr) (n : unit) : response * unit :=
  (Raised, tt).

(** The fields of [Examples.let_it_be]. *)
Definition let_it_be_fields : fields :=
  {| f_meta :=
       JObj [(py "artist_name", JStr (py "The Beatles"));
             (py "track_name", JStr (py "Let It Be"));
             (py "additional_info",
              JObj [(py "duration_ms", JInt 243000)])];
     f_info := [(py "duration_ms", JInt 243000)];
     f_listened_at := 1700000000;
     f_iso := py "2023-11-14T22:13:20";
     f_artist_raw := py "The Beatles";
     f_track_raw := py "Let It Be";
     f_album_raw := [];
     f_spotify_id := JNull |}.

End Samples.

(** * Properties *)

(** ** Strings *)

Module StrFacts.
Import Str.

Lemma lstrip_suffix s : lstrip s `suffix_of` s.
Proof.
  induction s as [|c s IH]; simpl; [done|].
  destruct (isspace c); [|done].
  by apply suffix_cons_r.
Qed.

Lemma lstrip_leading s : leading_space (lstrip s) = false.
Proof.
  induction s as [|c s IH]; simpl; [done|].
  destruct (isspace c) eqn:E; [done|]. simpl. by rewrite E.
Qed.

Lemma lstrip_id s : leading_space s = false -> lstrip s = s.
Proof. destruct s as [|c s]; simpl; [done|]. by intros ->. Qed.

Lemma lstrip_nil s : lstrip s = [] <-> Forall (fun c => isspace c = true) s.
Proof.
  induction s as [|c s IH]; simpl.
  - split; [constructor|done].
  - destruct (isspace c) eqn:E.
    + rewrite IH. split; [by constructor|]. by inversion 1.
    + split; [done|]. inversion 1; congruence.
Qed.

Lemma rstrip_prefix s : rstrip s `prefix_of` s.
Proof.
  unfold rstrip. destruct (lstrip_suffix (rev s)) as [k Hk].
  exists (rev k). apply (f_equal (@rev N)) in Hk.
  by rewrite rev_involutive, rev_app_distr in Hk.
Qed.

Lemma rstrip_id s : leading_space (rev s) = false -> rstrip s = s.
Proof. intros H. unfold rstrip. by rewrite lstrip_id, rev_involutive. Qed.

Lemma strip_id s :
  leading_space s = false -> leading_space (rev s) = false -> strip s = s.
Proof. intros H1 H2. unfold strip. by rewrite lstrip_id, rstrip_id. Qed.

Lemma strip_trailing s : leading_space (rev (strip s)) = false.
Proof.
  unfold strip, rstrip. rewrite rev_involutive. apply lstrip_leading.
Qed.

Lemma leading_space_prefix s t :
  s `prefix_of` t -> leading_space t = false -> leading_space s = false.
Proof. intros [k ->]. by destruct s. Qed.

Lemma strip_leading s : leading_space (strip s) = false.
Proof.
  unfold strip. eapply leading_space_prefix; [apply rstrip_prefix|].
  apply lstrip_leading.
Qed.

(** The characters of [strip s] are characters of [s], in a row. *)
Lemma strip_infix s : exists l r, s = l ++ strip s ++ r.
Proof.
  unfold strip.
  destruct (lstrip_suffix s) as [l Hl].
  destruct (rstrip_prefix (lstrip s)) as [r Hr].
  exists l, r. by rewrite <- Hr.
Qed.

Lemma strip_Forall (P : N -> Prop) s : Forall P s -> Forall P (strip s).
Proof.
  intros H. destruct (strip_infix s) as (l & r & E). rewrite E in H.
  by apply Forall_app in H as [_ [H _]%Forall_app].
Qed.

Lemma strip_nil s : strip s = [] <-> Forall (fun c => isspace c = true) s.
Proof.
  split.
  - intros H. unfold strip, rstrip in H.
    apply (f_equal (@rev N)) in H. rewrite rev_involutive in H. simpl in H.
    apply lstrip_nil in H.
    assert (lstrip s = []) as H0.
    { pose proof (lstrip_leading s) as L.
      destruct (lstrip s) as [|c l]; [done|]. simpl in L.
      apply Forall_rev in H. rewrite rev_involutive in H.
      inversion H; congruence. }
    by apply lstrip_nil.
  - intros H. unfold strip. apply lstrip_nil in H. by rewrite H.
Qed.

Lemma startswith_cons_absent c p s : c ∉ s -> startswith (c :: p) s = false.
Proof.
  destruct s as [|x s]; simpl; [done|]. intros H.
  destruct (N.eqb_spec c x) as [->|]; [|done].
  exfalso. apply H. by left.
Qed.

(** [replace] leaves a string without the first character of [old] alone. *)
Lemma replace_absent c old new s : c ∉ s -> replace (c :: old) new s = s.
Proof.
  unfold replace. induction s as [|x s IH]; [done|]. intros H.
  cbn [replace_from]. rewrite (startswith_cons_absent c old (x :: s) H).
  f_equal. apply IH. intros ?. apply H. by right.
Qed.

(** [split] does not cut a string without the first character of [sep]. *)
Lemma split_from_absent c sep cur s :
  c ∉ s -> split_from (c :: sep) 0 cur s = [cur ++ s].
Proof.
  revert cur. induction s as [|x s IH]; intros cur H.
  - simpl. by rewrite app_nil_r.
  - cbn [split_from]. rewrite (startswith_cons_absent c sep (x :: s) H).
    rewrite IH; [by rewrite <- app_assoc|]. intros ?. apply H. by right.
Qed.

End StrFacts.

(** ** The regular-expression engine *)

Module ReFacts.
Import Re.

(** A pattern calls its continuation on suffixes of the subject only: if
    the continuation refuses them all, there is no match. *)
Lemma star_loop_fail greedy (body : pystr -> cont -> option pystr) :
  (forall s k, (forall s', s' `suffix_of` s -> k s' = None) -> body s k = None) ->
  forall fuel s k,
    (forall s', s' `suffix_of` s -> k s' = None) ->
    star_loop greedy body fuel s k = None.
Proof.
  intros Hbody fuel. induction fuel as [|n IH]; intros s k Hk; simpl.
  - by apply Hk.
  - rewrite (Hk s) by done.
    rewrite Hbody.
    + by destruct greedy.
    + intros s' Hs'. destruct (_ <? _)%nat; [|done].
      apply IH. intros s'' Hs''. apply Hk. by etrans.
Qed.

Lemma rmatch_fail r : forall s k,
  (forall s', s' `suffix_of` s -> k s' = None) -> rmatch r s k = None.
Proof.
  induction r as [c|p|r1 IH1 r2 IH2|r1 IH1 r2 IH2| |r1 IH1|r1 IH1];
    intros s k Hk; simpl.
  - destruct s as [|x s]; [done|]. destruct (x =? c); [|done].
    apply Hk. by apply suffix_cons_r.
  - destruct s as [|x s]; [done|]. destruct (p x); [|done].
    apply Hk. by apply suffix_cons_r.
  - apply IH1. intros s' Hs'. apply IH2. intros s'' Hs''. apply Hk. by etrans.
  - by rewrite IH1, IH2.
  - by apply Hk.
  - by apply star_loop_fail.
  - by apply star_loop_fail.
Qed.

(** A pattern [\s*c...] does not match a subject without [c]. *)
Lemma match_at_absent c rs s :
  c ∉ s -> match_at (Seqs (Star space :: Lit c :: rs)) s = None.
Proof.
  intros H. unfold match_at. cbn [Seqs fold_right]. 
  change (rmatch (Seq ?a ?b) s Some) with (rmatch a s (fun s' => rmatch b s' Some)).
  apply rmatch_fail. intros s' [l ->]. 
  change (rmatch (Seq ?a ?b) s' Some) with (rmatch a s' (fun s'' => rmatch b s'' Some)).
  simpl. destruct s' as [|x s']; [done|].
  destruct (N.eqb_spec x c) as [->|]; [|done].
  exfalso. apply H. apply elem_of_app. right. by left.
Qed.

Lemma match_at_lit_absent c r s : c ∉ s -> match_at (Seq (Lit c) r) s = None.
Proof.
  intros H. unfold match_at. simpl. destruct s as [|x s]; [done|].
  destruct (N.eqb_spec x c) as [->|]; [|done].
  exfalso. apply H. by left.
Qed.

(** Without a match anywhere, [sub] returns the subject. *)
Lemma sub_no_match r repl s :
  (forall s', s' `suffix_of` s -> match_at r s' = None) -> sub r repl s = s.
Proof.
  unfold sub. induction s as [|c s IH]; intros H.
  - simpl. by rewrite H.
  - cbn [sub_from]. rewrite H by done. f_equal. apply IH.
    intros s' Hs'. apply H. by apply suffix_cons_r.
Qed.

Lemma not_elem_of_suffix (c : N) s s' : s' `suffix_of` s -> c ∉ s -> c ∉ s'.
Proof. intros [l ->] H ?. apply H, elem_of_app. by right. Qed.

End ReFacts.

(** ** [normalize_string] *)

Module NormFacts.
Import Str Re StrFacts ReFacts.

Ltac bools :=
  repeat match goal with
    | H : _ && _ = true |- _ => apply andb_true_iff in H as [? ?]
    | H : _ || _ = true |- _ => apply orb_true_iff in H as [?|?]
    | H : (_ <=? _) = true |- _ => apply N.leb_le in H
    | H : (_ <? _) = true |- _ => apply N.ltb_lt in H
    | H : (_ =? _) = true |- _ => apply N.eqb_eq in H
    end.

Lemma norm_char_range c :
  norm_char c = true -> 97 <= c <= 122 \/ 48 <= c <= 57 \/ c = 32.
Proof.
  unfold norm_char, is_lower_az, is_digit. intros H. bools; lia.
Qed.

Lemma norm_char_space c : norm_char c = true -> isspace c = (c =? 32).
Proof.
  intros [H | [H | ->] ]%norm_char_range; [| |done];
    unfold isspace;
    repeat match goal with
      | |- context [?a <=? ?b] => destruct (N.leb_spec a b); try lia
      | |- context [?a =? ?b] => destruct (N.eqb_spec a b); try lia
      end; done.
Qed.

Lemma norm_char_lower c : norm_char c = true -> ascii_lower c = c.
Proof.
  intros H%norm_char_range. unfold ascii_lower, is_upper_az.
  destruct (N.leb_spec 65 c), (N.leb_spec c 90); simpl; lia.
Qed.

Lemma norm_char_ascii c : norm_char c = true -> is_ascii c = true.
Proof.
  intros H%norm_char_range. unfold is_ascii. apply N.ltb_lt. lia.
Qed.

Lemma norm_chars_absent c s : norm_char c = false -> norm_chars s -> c ∉ s.
Proof.
  intros Hc Hs Hin. rewrite Forall_forall in Hs. apply Hs in Hin. congruence.
Qed.

(** *** The character filter [[^a-z0-9 ]] *)

Lemma sub_class_cons p repl c s :
  sub (Class p) repl (c :: s) =
  if p c then repl ++ sub (Class p) repl s else c :: sub (Class p) repl s.
Proof.
  unfold sub. cbn [sub_from]. unfold match_at. cbn [rmatch].
  destruct (p c); [|done].
  replace (length (c :: s) - length s)%nat with 1%nat by (simpl; lia).
  done.
Qed.

Lemma sub_class_nil p repl : sub (Class p) repl [] = [].
Proof. done. Qed.

Lemma sub_not_norm_chars s : norm_chars (sub re_not_norm [] s).
Proof.
  unfold re_not_norm. induction s as [|c s IH].
  - rewrite sub_class_nil. constructor.
  - rewrite sub_class_cons. destruct (norm_char c) eqn:E; simpl; [|done].
    by constructor.
Qed.

Lemma sub_not_norm_id s : norm_chars s -> sub re_not_norm [] s = s.
Proof.
  unfold re_not_norm. induction 1 as [|c s Hc Hs IH]; [done|].
  rewrite sub_class_cons, Hc. simpl. by f_equal.
Qed.

(** *** The whitespace runs [\s+] *)

Lemma star_space fuel : forall s,
  (length s <= fuel)%nat -> star_loop true (rmatch space) fuel s Some = Some (lstrip s).
Proof.
  induction fuel as [|n IH]; intros s Hlen.
  - destruct s; [done|simpl in Hlen; lia].
  - cbn [star_loop]. unfold space at 1. cbn [rmatch].
    destruct s as [|x s]; [done|]. cbn [lstrip].
    destruct (isspace x); [|done].
    assert ((length s <? length (x :: s))%nat = true) as ->
      by (apply Nat.ltb_lt; simpl; lia).
    rewrite IH by (simpl in Hlen; lia). done.
Qed.

Lemma match_at_spaces s :
  match_at re_spaces s =
  match s with
  | c :: s' => if isspace c then Some (lstrip s') else None
  | [] => None
  end.
Proof.
  unfold match_at, re_spaces, Plus. cbn [rmatch]. unfold space at 1. cbn [rmatch].
  destruct s as [|c s]; [done|]. destruct (isspace c); [|done].
  by apply star_space.
Qed.

Lemma sub_from_skip r repl n : forall s,
  (n <= length s)%nat -> sub_from r repl n s = sub_from r repl 0 (drop n s).
Proof.
  induction n as [|n IH]; intros s Hn; [done|].
  destruct s as [|c s]; [simpl in Hn; lia|].
  cbn [sub_from drop]. apply IH. simpl in Hn. lia.
Qed.

Lemma drop_suffix (s s' : pystr) :
  s' `suffix_of` s -> drop (length s - length s') s = s'.
Proof.
  intros [l ->]. rewrite length_app.
  replace (length l + length s' - length s')%nat with (length l) by lia.
  by rewrite drop_app_length.
Qed.

Lemma sub_spaces_cons repl c s :
  sub re_spaces repl (c :: s) =
  if isspace c then repl ++ sub re_spaces repl (lstrip s)
  else c :: sub re_spaces repl s.
Proof.
  unfold sub. cbn [sub_from]. rewrite match_at_spaces.
  destruct (isspace c); [|done].
  pose proof (lstrip_suffix s) as Hsuf.
  pose proof (suffix_length _ _ Hsuf) as Hlen.
  replace (length (c :: s) - length (lstrip s))%nat
    with (S (length s - length (lstrip s))) by (simpl; lia).
  rewrite sub_from_skip by lia. by rewrite drop_suffix.
Qed.

Lemma sub_spaces_nil repl : sub re_spaces repl [] = [].
Proof. done. Qed.

Lemma sub_spaces_leading s :
  leading_space (sub re_spaces (py " ") s) = leading_space s.
Proof.
  destruct s as [|c s]; [done|]. rewrite sub_spaces_cons.
  by destruct (isspace c) eqn:E.
Qed.

Lemma sub_spaces_spec n : forall s,
  (length s <= n)%nat ->
  collapsed (sub re_spaces (py " ") s) = true /\
  (norm_chars s -> norm_chars (sub re_spaces (py " ") s)).
Proof.
  induction n as [|n IH]; intros s Hlen.
  - destruct s; [|simpl in Hlen; lia]. rewrite sub_spaces_nil. by split.
  - destruct s as [|c s]; [rewrite sub_spaces_nil; by split|].
    simpl in Hlen. rewrite sub_spaces_cons.
    destruct (isspace c) eqn:E.
    + pose proof (suffix_length _ _ (lstrip_suffix s)) as Hl.
      destruct (IH (lstrip s)) as [IH1 IH2]; [lia|]. split.
      * change (py " " ++ ?l) with (32 :: l). cbn [collapsed].
        rewrite sub_spaces_leading, lstrip_leading, IH1. done.
      * intros Hs. change (py " " ++ ?l) with (32 :: l).
        constructor; [done|]. apply IH2.
        inversion Hs as [|? ? _ Hs']; subst.
        destruct (lstrip_suffix s) as [l Hl']. rewrite Hl' in Hs'.
        by apply Forall_app in Hs' as [_ ?].
    + destruct (IH s) as [IH1 IH2]; [lia|]. split.
      * cbn [collapsed]. by rewrite E, IH1.
      * intros Hs. inversion Hs; subst. constructor; [done|]. by apply IH2.
Qed.

Lemma sub_spaces_collapsed s : collapsed (sub re_spaces (py " ") s) = true.
Proof. by apply (sub_spaces_spec (length s)). Qed.

Lemma sub_spaces_norm_chars s :
  norm_chars s -> norm_chars (sub re_spaces (py " ") s).
Proof. by apply (sub_spaces_spec (length s)). Qed.

Lemma sub_spaces_id s : collapsed s = true -> sub re_spaces (py " ") s = s.
Proof.
  induction s as [|c s IH]; [done|]. cbn [collapsed]. intros H.
  apply andb_true_iff in H as [H1 H2]. rewrite sub_spaces_cons.
  destruct (isspace c).
  - apply andb_true_iff in H1 as [->%N.eqb_eq H1].
    apply negb_true_iff in H1. rewrite lstrip_id by done.
    rewrite IH by done. done.
  - by rewrite IH.
Qed.

Lemma collapsed_app_r l s : collapsed (l ++ s) = true -> collapsed s = true.
Proof.
  induction l as [|c l IH]; [done|]. simpl. intros H.
  apply andb_true_iff in H as [_ H]. by apply IH.
Qed.

Lemma collapsed_app_l s r : collapsed (s ++ r) = true -> collapsed s = true.
Proof.
  induction s as [|c s IH]; [done|]. simpl. intros H.
  apply andb_true_iff in H as [H1 H2]. rewrite (IH H2), andb_true_r.
  destruct (isspace c); [|done].
  apply andb_true_iff in H1 as [-> H1]. simpl.
  destruct s; [done|]. done.
Qed.

Lemma strip_collapsed s : collapsed s = true -> collapsed (strip s) = true.
Proof.
  intros H. destruct (strip_infix s) as (l & r & E). rewrite E in H.
  by apply collapsed_app_r, collapsed_app_l in H.
Qed.

(** *** Normal forms *)

Lemma normal_absent c s : norm_char c = false -> normal s -> c ∉ s.
Proof. intros Hc [Hs _]. by apply norm_chars_absent. Qed.

Lemma normal_strip s : normal s -> strip s = s.
Proof. intros (_ & _ & H1 & H2). by apply strip_id. Qed.

(** A pattern [\s*c...] with [c] outside the alphabet leaves a normal
    string alone. *)
Lemma sub_absent c rs repl s :
  c ∉ s -> sub (Seqs (Star space :: Lit c :: rs)) repl s = s.
Proof.
  intros H. apply sub_no_match. intros s' Hs'.
  apply match_at_absent. by eapply not_elem_of_suffix.
Qed.

Lemma sub_paren_or_bracket_absent repl s :
  40 ∉ s -> 91 ∉ s -> sub re_paren_or_bracket repl s = s.
Proof.
  intros H1 H2. apply sub_no_match. intros s' Hs'.
  unfold re_paren_or_bracket, match_at. cbn [rmatch].
  fold (match_at (Seqs [Star space; Lit 40; LazyStar dot; Lit 41]) s').
  rewrite match_at_absent by (by eapply not_elem_of_suffix).
  apply match_at_lit_absent. by eapply not_elem_of_suffix.
Qed.

Section Normalize.

Variable lower : pystr -> pystr.

Lemma normalize_string_normal x : normal (normalize_string lower x).
Proof.
  unfold normalize_string.
  set (s := sub re_not_norm [] _).
  assert (norm_chars s) as Hs by apply sub_not_norm_chars.
  repeat split.
  - by apply strip_Forall, sub_spaces_norm_chars.
  - apply strip_collapsed, sub_spaces_collapsed.
  - apply strip_leading.
  - apply strip_trailing.
Qed.

Hypothesis lower_ascii :
  forall s, Forall (fun c => is_ascii c = true) s -> lower s = map ascii_lower s.

Lemma lower_normal s : norm_chars s -> lower s = s.
Proof.
  intros H. rewrite lower_ascii.
  - induction H as [|c s Hc Hs IH]; [done|]. simpl.
    by rewrite norm_char_lower, IH.
  - eapply Forall_impl; [done|]. apply norm_char_ascii.
Qed.

Lemma normalize_string_fixed s :
  normal s -> normalize_string lower s = s.
Proof.
  intros Hn. pose proof Hn as (Hs & Hc & H1 & H2). unfold normalize_string.
  rewrite lower_normal by done.
  unfold re_feat, re_bracket.
  rewrite (sub_absent 40) by (by apply normal_absent).
  rewrite (sub_absent 91) by (by apply normal_absent).
  rewrite sub_not_norm_id by done.
  rewrite sub_spaces_id by done.
  by apply strip_id.
Qed.

End Normalize.

End NormFacts.

(** ** The cache and the resolver *)

Section Resolver.

Context {net_state : Type}.
Variable http_get : pystr -> pystr -> net_state -> response * net_state.

Implicit Types (w : @env net_state) (r : option Match.t).

Lemma print_with_stdout m w : print m w = with_stdout [m] w.
Proof. done. Qed.

Lemma with_stdout_app o1 o2 w :
  with_stdout o2 (with_stdout o1 w) = with_stdout (o1 ++ o2) w.
Proof. unfold with_stdout. simpl. by rewrite app_assoc. Qed.

Lemma with_stdout_nil w : with_stdout [] w = w.
Proof. destruct w. unfold with_stdout. simpl. by rewrite app_nil_r. Qed.

(** *** One call of [query_spotify_api] *)

Lemma search_loop_spec a t token : forall qs i w r w',
  search_loop http_get a t token i qs w = (r, w') ->
  exists issued,
    requests w' = requests w ++ issued /\
    cache w' = <[base_key a t := r]> (cache w) /\
    cache_file w' = Some (cache w') /\
    match r with
    | Some m =>
        exists pre q resp,
          issued = pre ++ [(q, resp)] /\ Forall no_hit pre /\
          top_match resp = Some m /\ map fst issued `prefix_of` qs
    | None => Forall no_hit issued /\ map fst issued = qs
    end.
Proof.
  induction qs as [|q qs IH]; intros i w r w' H.
  - simpl in H. inversion H; subst; clear H. exists []. simpl.
    rewrite app_nil_r. repeat split; constructor.
  - cbn [search_loop] in H. unfold send in H.
    destruct (http_get token q (net w)) as [resp n] eqn:Hget.
    assert (forall w1 i',
      requests w1 = requests w ++ [(q, resp)] -> cache w1 = cache w ->
      top_match resp = None ->
      search_loop http_get a t token i' qs w1 = (r, w') ->
      exists issued,
        requests w' = requests w ++ issued /\
        cache w' = <[base_key a t := r]> (cache w) /\
        cache_file w' = Some (cache w') /\
        match r with
        | Some m =>
            exists pre q0 resp0,
              issued = pre ++ [(q0, resp0)] /\ Forall no_hit pre /\
              top_match resp0 = Some m /\ map fst issued `prefix_of` q :: qs
        | None => Forall no_hit issued /\ map fst issued = q :: qs
        end) as Hnext.
    { intros w1 i' Hreq Hcache Hno Hloop.
      apply IH in Hloop as (issued & E1 & E2 & E3 & E4).
      exists ((q, resp) :: issued).
      split; [by rewrite E1, Hreq, <- app_assoc|].
      split; [by rewrite E2, Hcache|].
      split; [done|].
      destruct r as [m|].
      - destruct E4 as (pre & q0 & resp0 & -> & Hpre & Htop & Hpref).
        exists ((q, resp) :: pre), q0, resp0. repeat split; [|done|].
        + by constructor.
        + simpl. by apply prefix_cons.
      - destruct E4 as [Hall <-]. split; [|done]. by constructor. }
    destruct resp as [|code items].
    + eapply Hnext; [| |done|exact H]; done.
    + destruct (code =? 200)%Z eqn:Hcode; [destruct items as [|it items]|].
      * eapply Hnext; [| | |exact H]; try done.
      * inversion H; subst; clear H. simpl.
        exists [(q, Status code (it :: items))]. repeat split.
        exists [], q, (Status code (it :: items)). repeat split.
        -- constructor.
        -- simpl. by rewrite Hcode.
        -- simpl. apply prefix_cons, prefix_nil.
      * eapply Hnext; [| | |exact H]; try done.
        simpl. destruct items; [done|]. by rewrite Hcode.
Qed.

Lemma query_hit a t token w e :
  cache w !! base_key a t = Some e ->
  query_spotify_api http_get a t token w = (e, print (MsgCache a t) w).
Proof. intros H. unfold query_spotify_api. by rewrite H. Qed.

Lemma query_miss a t token w :
  cache w !! base_key a t = None ->
  query_spotify_api http_get a t token w =
  search_loop http_get a t token 0 (queries a t) w.
Proof. intros H. unfold query_spotify_api. by rewrite H. Qed.

(** After a call the key holds the answer, and no other entry changed. *)
Lemma query_cache a t token w r w' :
  query_spotify_api http_get a t token w = (r, w') ->
  cache w' !! base_key a t = Some r /\ cache w ⊆ cache w'.
Proof.
  intros H. destruct (cache w !! base_key a t) as [e|] eqn:E.
  - rewrite (query_hit _ _ _ _ _ E) in H. inversion H; subst. by split.
  - rewrite (query_miss _ _ _ _ E) in H.
    apply search_loop_spec in H as (issued & _ & -> & _).
    split; [apply lookup_insert_eq|by apply insert_subseteq].
Qed.

Lemma load_cache_synced w : synced (load_cache w).
Proof. done. Qed.

Lemma query_synced a t token w r w' :
  query_spotify_api http_get a t token w = (r, w') -> synced w -> synced w'.
Proof.
  intros H Hs. destruct (cache w !! base_key a t) as [e|] eqn:E.
  - rewrite (query_hit _ _ _ _ _ E) in H. by inversion H; subst.
  - rewrite (query_miss _ _ _ _ E) in H.
    apply search_loop_spec in H as (issued & _ & _ & Hf & _).
    unfold synced. by rewrite Hf.
Qed.

Lemma query_requests a t token w r w' :
  query_spotify_api http_get a t token w = (r, w') ->
  exists issued,
    requests w' = requests w ++ issued /\ (length issued <= 3)%nat.
Proof.
  intros H. destruct (cache w !! base_key a t) as [e|] eqn:E.
  - rewrite (query_hit _ _ _ _ _ E) in H. inversion H; subst.
    exists []. simpl. rewrite app_nil_r. split; [done|lia].
  - rewrite (query_miss _ _ _ _ E) in H.
    apply search_loop_spec in H as (issued & Hreq & _ & _ & Hr).
    exists issued. split; [done|].
    assert (length (map fst issued) <= 3)%nat; [|by rewrite length_map in *].
    destruct r as [m|].
    + destruct Hr as (pre & q & resp & _ & _ & _ & Hp).
      by apply prefix_length in Hp.
    + destruct Hr as [_ ->]. done.
Qed.

End Resolver.

Section Loop.

Context {net_state : Type}.
Variable http_get : pystr -> pystr -> net_state -> response * net_state.

Implicit Types (w : @env net_state) (r : option Match.t).

Lemma live_cons_skip a t alts :
  Str.strip t = [] -> live ((a, t) :: alts) = live alts.
Proof. intros H. simpl. by rewrite bool_decide_eq_true_2. Qed.

Lemma live_cons_keep a t alts :
  Str.strip t <> [] ->
  live ((a, t) :: alts) = (Str.strip a, Str.strip t) :: live alts.
Proof. intros H. simpl. by rewrite bool_decide_eq_false_2. Qed.

(** The loop, one variant at a time. *)
Lemma loop_cons_skip a t alts token w :
  Str.strip t = [] ->
  alternates_loop http_get ((a, t) :: alts) token w =
  alternates_loop http_get alts token w.
Proof. intros H. simpl. by rewrite bool_decide_eq_true_2. Qed.

Lemma loop_cons_keep a t alts token w :
  Str.strip t <> [] ->
  alternates_loop http_get ((a, t) :: alts) token w =
  let '(r, w1) := query_spotify_api http_get (Str.strip a) (Str.strip t) token w in
  match r with
  | Some m => (Some m, w1)
  | None => alternates_loop http_get alts token w1
  end.
Proof. intros H. simpl. by rewrite bool_decide_eq_false_2. Qed.

(** *** The requests of one call of [try_alternate_queries] *)

Lemma loop_trace token : forall alts w r w',
  alternates_loop http_get alts token w = (r, w') ->
  exists issued,
    requests w' = requests w ++ issued /\
    map fst issued `prefix_of` formulations (pending (cache w) (live alts)) /\
    ((Forall no_hit issued /\
      map fst issued = formulations (pending (cache w) (live alts)))
     \/
     (exists pre q resp m,
        issued = pre ++ [(q, resp)] /\ Forall no_hit pre /\
        top_match resp = Some m /\ r = Some m)).
Proof.
  induction alts as [|[a0 t0] alts IH]; intros w r w' H.
  - simpl in H. inversion H; subst. exists []. rewrite app_nil_r.
    split; [done|]. split; [done|]. left. by split.
  - destruct (decide (Str.strip t0 = [])) as [Ht|Ht].
    { rewrite loop_cons_skip in H by done. rewrite live_cons_skip by done.
      by apply IH. }
    rewrite loop_cons_keep in H by done. rewrite live_cons_keep by done.
    set (a := Str.strip a0) in *. set (t := Str.strip t0) in *.
    cbn [pending].
    destruct (cache w !! base_key a t) as [[m|]|] eqn:E.
    + rewrite (query_hit _ _ _ _ _ _ E) in H. inversion H; subst.
      exists []. simpl. rewrite app_nil_r. split; [done|]. split; [done|].
      left. by split.
    + rewrite (query_hit _ _ _ _ _ _ E) in H.
      apply IH in H as (issued & H1 & H2 & H3). by exists issued.
    + rewrite (query_miss _ _ _ _ _ E) in H.
      destruct (search_loop http_get a t token 0 (queries a t) w)
        as [r0 w1] eqn:Hs.
      apply search_loop_spec in Hs as (issued0 & E1 & E2 & _ & E4).
      unfold formulations. cbn [flat_map]. cbn [fst snd].
      destruct r0 as [m|].
      * inversion H; subst. exists issued0. split; [done|].
        destruct E4 as (pre & q & resp & -> & Hpre & Htop & Hpref).
        split; [by apply prefix_app_r|].
        right. by exists pre, q, resp, m.
      * destruct E4 as [Hno Hqs].
        apply IH in H as (issued1 & F1 & F2 & F3). rewrite E2 in F2, F3.
        exists (issued0 ++ issued1).
        split; [by rewrite F1, E1, app_assoc|].
        rewrite map_app, Hqs.
        split; [by apply prefix_app|].
        destruct F3 as [[G1 G2]|(pre & q & resp & m & -> & G1 & G2 & G3)].
        -- left. split; [by apply Forall_app|]. unfold formulations in G2.
           by rewrite G2.
        -- right. exists (issued0 ++ pre), q, resp, m.
           split; [by rewrite app_assoc|]. split; [by apply Forall_app|done].
Qed.

(** *** The cache after one call of [try_alternate_queries] *)

Lemma loop_cache token : forall alts w r w',
  alternates_loop http_get alts token w = (r, w') ->
  cache w ⊆ cache w' /\ (synced w -> synced w') /\
  match r with
  | Some m =>
      exists a t, (a, t) ∈ live alts /\ cache w' !! base_key a t = Some (Some m)
  | None =>
      forall a t, (a, t) ∈ live alts -> cache w' !! base_key a t = Some None
  end.
Proof.
  induction alts as [|[a0 t0] alts IH]; intros w r w' H.
  - simpl in H. inversion H; subst. split; [done|]. split; [done|].
    intros a t Hin. by apply elem_of_nil in Hin.
  - destruct (decide (Str.strip t0 = [])) as [Ht|Ht].
    { rewrite loop_cons_skip in H by done. rewrite live_cons_skip by done.
      by apply IH. }
    rewrite loop_cons_keep in H by done. rewrite live_cons_keep by done.
    destruct (query_spotify_api http_get (Str.strip a0) (Str.strip t0) token w)
      as [r0 w1] eqn:Hq.
    pose proof (query_cache _ _ _ _ _ _ _ Hq) as [Hk Hsub].
    pose proof (query_synced _ _ _ _ _ _ _ Hq) as Hsync.
    destruct r0 as [m|].
    + inversion H; subst. split; [done|]. split; [done|].
      exists (Str.strip a0), (Str.strip t0). split; [by left|done].
    + apply IH in H as (H1 & H2 & H3).
      split; [by etrans|]. split; [by auto|].
      destruct r as [m|].
      * destruct H3 as (a & t & Hin & Hc). exists a, t. split; [by right|done].
      * intros a t [[= -> ->]|Hin]%elem_of_cons; [|by apply H3].
        by eapply lookup_weaken.
Qed.

Lemma loop_requests token : forall alts w r w',
  alternates_loop http_get alts token w = (r, w') ->
  exists issued,
    requests w' = requests w ++ issued /\
    (length issued <= 3 * length alts)%nat.
Proof.
  induction alts as [|[a0 t0] alts IH]; intros w r w' H.
  - simpl in H. inversion H; subst. exists []. rewrite app_nil_r. by split.
  - destruct (decide (Str.strip t0 = [])) as [Ht|Ht].
    { rewrite loop_cons_skip in H by done.
      apply IH in H as (issued & H1 & H2). exists issued. split; [done|].
      simpl. lia. }
    rewrite loop_cons_keep in H by done.
    destruct (query_spotify_api http_get (Str.strip a0) (Str.strip t0) token w)
      as [r0 w1] eqn:Hq.
    apply query_requests in Hq as (issued0 & E1 & E2).
    destruct r0 as [m|].
    + inversion H; subst. exists issued0. split; [done|]. simpl. lia.
    + apply IH in H as (issued1 & F1 & F2). exists (issued0 ++ issued1).
      split; [by rewrite F1, E1, app_assoc|]. rewrite length_app. simpl. lia.
Qed.

(** *** Asking again

    A call whose cache holds what an earlier, identical call left is
    answered like the earlier one, and only prints. *)
Lemma loop_replay token token' : forall alts w r w',
  alternates_loop http_get alts token w = (r, w') ->
  forall w2, cache w' ⊆ cache w2 ->
  exists out, alternates_loop http_get alts token' w2 = (r, with_stdout out w2).
Proof.
  induction alts as [|[a0 t0] alts IH]; intros w r w' H w2 Hsub.
  - simpl in H. inversion H; subst. exists []. by rewrite with_stdout_nil.
  - destruct (decide (Str.strip t0 = [])) as [Ht|Ht].
    { rewrite loop_cons_skip in H |- * by done. by eapply IH. }
    rewrite loop_cons_keep in H |- * by done.
    destruct (query_spotify_api http_get (Str.strip a0) (Str.strip t0) token w)
      as [r0 w1] eqn:Hq.
    apply query_cache in Hq as [Hk Hsub1].
    destruct r0 as [m|].
    + inversion H; subst.
      rewrite (query_hit _ _ _ token' w2 (Some m)) by (by eapply lookup_weaken).
      by exists [MsgCache (Str.strip a0) (Str.strip t0)].
    + pose proof (loop_cache _ _ _ _ _ H) as [Hsub2 _].
      rewrite (query_hit _ _ _ token' w2 None).
      2:{ eapply lookup_weaken; [|exact Hsub].
          eapply lookup_weaken; [exact Hk|done]. }
      destruct (IH _ _ _ H (print (MsgCache (Str.strip a0) (Str.strip t0)) w2))
        as [out Hout]; [done|].
      rewrite Hout, print_with_stdout, with_stdout_app. by eexists.
Qed.

End Loop.

(** *** What is printed does not matter *)

Section Frame.

Context {net_state : Type}.
Variable http_get : pystr -> pystr -> net_state -> response * net_state.

Implicit Types (w : @env net_state) (r : option Match.t).

Lemma same_io_refl w : same_io w w.
Proof. by repeat split. Qed.

Lemma same_io_trans w1 w2 w3 : same_io w1 w2 -> same_io w2 w3 -> same_io w1 w3.
Proof.
  intros (?&?&?&?) (?&?&?&?). repeat split; congruence.
Qed.

Lemma same_io_print_l m w1 w2 : same_io w1 w2 -> same_io (print m w1) w2.
Proof. by intros (?&?&?&?). Qed.

Lemma same_io_print_r m w1 w2 : same_io w1 w2 -> same_io w1 (print m w2).
Proof. by intros (?&?&?&?). Qed.

Lemma same_io_with_stdout out w : same_io (with_stdout out w) w.
Proof. by repeat split. Qed.

Lemma search_loop_frame a t token : forall qs i w1 w2,
  same_io w1 w2 ->
  (search_loop http_get a t token i qs w1).1 =
  (search_loop http_get a t token i qs w2).1 /\
  same_io (search_loop http_get a t token i qs w1).2
          (search_loop http_get a t token i qs w2).2.
Proof.
  induction qs as [|q qs IH]; intros i w1 w2 (Hc & Hf & Hn & Hr).
  - simpl. split; [done|]. unfold same_io. simpl. by rewrite Hc, Hn, Hr.
  - cbn [search_loop]. unfold send. rewrite Hn.
    destruct (http_get token q (net w2)) as [resp n].
    destruct resp as [|code items].
    + apply IH. unfold same_io. simpl. by rewrite Hc, Hf, Hr.
    + destruct (code =? 200)%Z; [destruct items as [|it items]|].
      * apply IH. unfold same_io. simpl. by rewrite Hc, Hf, Hr.
      * simpl. split; [done|]. unfold same_io. simpl. by rewrite Hc, Hr.
      * apply IH. unfold same_io. simpl. by rewrite Hc, Hf, Hr.
Qed.

Lemma query_frame a t token w1 w2 :
  same_io w1 w2 ->
  (query_spotify_api http_get a t token w1).1 =
  (query_spotify_api http_get a t token w2).1 /\
  same_io (query_spotify_api http_get a t token w1).2
          (query_spotify_api http_get a t token w2).2.
Proof.
  intros H. pose proof H as (Hc & _). unfold query_spotify_api. rewrite Hc.
  destruct (cache w2 !! base_key a t) as [e|].
  - simpl. split; [done|]. by apply same_io_print_l, same_io_print_r.
  - by apply search_loop_frame.
Qed.

Lemma loop_frame token : forall alts w1 w2,
  same_io w1 w2 ->
  (alternates_loop http_get alts token w1).1 =
  (alternates_loop http_get alts token w2).1 /\
  same_io (alternates_loop http_get alts token w1).2
          (alternates_loop http_get alts token w2).2.
Proof.
  induction alts as [|[a0 t0] alts IH]; intros w1 w2 H; [done|].
  destruct (decide (Str.strip t0 = [])) as [Ht|Ht].
  { rewrite !loop_cons_skip by done. by apply IH. }
  rewrite !loop_cons_keep by done.
  pose proof (query_frame (Str.strip a0) (Str.strip t0) token w1 w2 H) as [E1 E2].
  destruct (query_spotify_api http_get _ _ token w1) as [r1 w1'].
  destruct (query_spotify_api http_get _ _ token w2) as [r2 w2'].
  simpl in E1, E2. subst r2. destruct r1; [done|]. by apply IH.
Qed.

Lemma loop_settled v alts token w :
  settled v w ->
  (alternates_loop http_get (v :: alts) token w).1 =
  (alternates_loop http_get alts token w).1 /\
  same_io (alternates_loop http_get (v :: alts) token w).2
          (alternates_loop http_get alts token w).2.
Proof.
  destruct v as [a t]. intros [Ht|Hc]; simpl in *.
  - rewrite bool_decide_eq_true_2 by done. split; [done|apply same_io_refl].
  - case_bool_decide; [split; [done|apply same_io_refl]|].
    rewrite (query_hit _ _ _ _ _ _ Hc).
    apply loop_frame, same_io_print_l, same_io_refl.
Qed.

(** A variant that repeats an earlier one of the same call changes
    nothing but the output. *)
Lemma loop_repeated v token l2 : forall l1 w1 w2,
  same_io w1 w2 -> v ∈ l1 \/ settled v w1 ->
  (alternates_loop http_get (l1 ++ v :: l2) token w1).1 =
  (alternates_loop http_get (l1 ++ l2) token w2).1 /\
  same_io (alternates_loop http_get (l1 ++ v :: l2) token w1).2
          (alternates_loop http_get (l1 ++ l2) token w2).2.
Proof.
  induction l1 as [|[a0 t0] l1 IH]; intros w1 w2 Hw Hv.
  - destruct Hv as [Hv|Hv]; [by apply elem_of_nil in Hv|]. simpl app.
    destruct (loop_settled v l2 token w1 Hv) as [E1 E2].
    destruct (loop_frame token l2 w1 w2 Hw) as [F1 F2].
    split; [congruence|by eapply same_io_trans].
  - rewrite <- !app_comm_cons.
    destruct (decide (Str.strip t0 = [])) as [Ht|Ht].
    { rewrite !loop_cons_skip by done. apply IH; [done|].
      destruct Hv as [[->|Hv]%elem_of_cons|Hv]; [|by left|by right].
      right. by left. }
    rewrite !loop_cons_keep by done.
    pose proof (query_frame (Str.strip a0) (Str.strip t0) token w1 w2 Hw)
      as [E1 E2].
    destruct (query_spotify_api http_get _ _ token w1) as [r1 w1'] eqn:Hq.
    destruct (query_spotify_api http_get _ _ token w2) as [r2 w2'].
    simpl in E1, E2. subst r2. destruct r1 as [m|]; [done|].
    apply query_cache in Hq as [Hk Hsub].
    apply IH; [done|].
    destruct Hv as [[->|Hv]%elem_of_cons|[Hv|Hv]].
    + right. by right.
    + by left.
    + right. by left.
    + right. right. by eapply lookup_weaken.
Qed.

End Frame.

Section Pending.

Implicit Types (c : gmap pystr (option Match.t)) (l : list (pystr * pystr)).

Lemma pending_sublist l : forall c, pending c l `sublist_of` l.
Proof.
  induction l as [|[a t] l IH]; intros c; simpl; [done|].
  destruct (c !! base_key a t) as [[m|]|].
  - apply sublist_nil_l.
  - by apply sublist_cons.
  - by apply sublist_skip.
Qed.

Lemma live_sublist alts :
  live alts `sublist_of` map (fun p => (Str.strip p.1, Str.strip p.2)) alts.
Proof.
  induction alts as [|[a t] alts IH]; simpl; [done|].
  case_bool_decide; [by apply sublist_cons|by apply sublist_skip].
Qed.

(** With none of the keys in the cache and no key twice, every pair is
    searched. *)
Lemma pending_cold l : forall c,
  (forall a t, (a, t) ∈ l -> c !! base_key a t = None) ->
  NoDup (map (fun p => base_key p.1 p.2) l) ->
  pending c l = l.
Proof.
  induction l as [|[a t] l IH]; intros c Hc Hnd; simpl; [done|].
  rewrite Hc by left. f_equal.
  inversion Hnd as [|? ? Hnotin Hnd']; subst. apply IH; [|done].
  intros a' t' Hin. rewrite lookup_insert_ne; [apply Hc; by right|].
  simpl in Hnotin. intros Heq. apply Hnotin.
  apply list_elem_of_fmap. exists (a', t'). by split.
Qed.

End Pending.

(** ** The calendar *)

Module DatetimeFacts.
Import Datetime Calendar.

Local Open Scope Z_scope.

Lemma civil_from_days_later k z :
  civil_from_days (z + k * 146097) = later k (civil_from_days z).
Proof.
  unfold civil_from_days, later.
  replace (z + k * 146097 + 719468) with (z + 719468 + k * 146097) by lia.
  set (a := z + 719468).
  rewrite Z.div_add by lia.
  replace (a + k * 146097 - (a / 146097 + k) * 146097)
    with (a - a / 146097 * 146097) by lia.
  set (doe := a - a / 146097 * 146097).
  set (yoe := (doe - doe / 1460 + doe / 36524 - doe / 146096) / 365).
  set (doy := doe - (365 * yoe + yoe / 4 - yoe / 100)).
  set (mp := (5 * doy + 2) / 153).
  cbv zeta.
  destruct ((if mp <? 10 then mp + 3 else mp - 9) <=? 2); f_equal; f_equal; lia.
Qed.

(** Day 0 is 1970-01-01; 2000 is a leap year and 1900 is not. *)
Lemma civil_from_days_epoch : civil_from_days 0 = (1970, 1, 1).
Proof. reflexivity. Qed.

Lemma civil_from_days_2000 :
  civil_from_days 11016 = (2000, 2, 29) /\ civil_from_days 11017 = (2000, 3, 1).
Proof. by split. Qed.

Lemma civil_from_days_1900 :
  civil_from_days (-25509) = (1900, 2, 28) /\
  civil_from_days (-25508) = (1900, 3, 1).
Proof. by split. Qed.

(** The first and the last timestamp that can be rendered. *)
Lemma isoformat_bounds :
  utcfromtimestamp_isoformat min_timestamp = Ok (py "0001-01-01T00:00:00") /\
  utcfromtimestamp_isoformat max_timestamp = Ok (py "9999-12-31T23:59:59") /\
  utcfromtimestamp_isoformat (min_timestamp - 1) = Raise ValueError /\
  utcfromtimestamp_isoformat (max_timestamp + 1) = Raise ValueError.
Proof. by repeat split. Qed.

Lemma digit_range z : (48 <= digit z <= 57)%N.
Proof.
  unfold digit. pose proof (Z.mod_pos_bound z 10 ltac:(lia)). lia.
Qed.

Lemma two_digits_value z : 0 <= z < 100 -> digits_value (two_digits z) = z.
Proof.
  intros H. unfold digits_value, two_digits, digit. cbn [fold_left].
  rewrite !N2Z.inj_add, !Z2N.id by (apply Z.mod_pos_bound; lia).
  change (Z.of_N 48) with 48.
  Z.div_mod_to_equations. lia.
Qed.

Lemma four_digits_value z : 0 <= z < 10000 -> digits_value (four_digits z) = z.
Proof.
  intros H. unfold digits_value, four_digits, digit. cbn [fold_left].
  rewrite !N2Z.inj_add, !Z2N.id by (apply Z.mod_pos_bound; lia).
  change (Z.of_N 48) with 48.
  Z.div_mod_to_equations. lia.
Qed.

(** The rendering of an integer timestamp: the date of its day, and the
    hours, minutes and seconds within the day. *)
Lemma isoformat_shape t s :
  utcfromtimestamp_isoformat t = Ok s ->
  exists y m d,
    civil_from_days (t / 86400) = (y, m, d) /\
    s = four_digits y ++ py "-" ++ two_digits m ++ py "-" ++ two_digits d
        ++ py "T" ++ two_digits (t mod 86400 / 3600) ++ py ":"
        ++ two_digits (t mod 86400 mod 3600 / 60) ++ py ":"
        ++ two_digits (t mod 86400 mod 60) /\
    t = t / 86400 * 86400
        + (t mod 86400 / 3600) * 3600 + (t mod 86400 mod 3600 / 60) * 60
        + t mod 86400 mod 60.
Proof.
  unfold utcfromtimestamp_isoformat.
  destruct (_ && _); [|done].
  destruct (civil_from_days (t / 86400)) as [[y m] d].
  intros [= <-]. exists y, m, d. split; [done|]. split; [done|].
  Z.div_mod_to_equations. lia.
Qed.

End DatetimeFacts.

(** * The claims *)

(** C3.  [normalize_string] is a function of every string (so it is total
    and deterministic), and it is idempotent:
    [normalize(normalize(x)) == normalize(x)] for every string [x];
    [normalize("Song (feat. X) [Remix]")] is ["song"].  [str.lower] is
    only assumed to lower ASCII strings character by character. *)
Theorem C3_normalize_idempotent (lower : pystr -> pystr)
  (lower_ascii : forall s, Forall (fun c => Str.is_ascii c = true) s ->
                           lower s = map Str.ascii_lower s) :
  (forall x,
     normalize_string lower (normalize_string lower x) = normalize_string lower x) /\
  normalize_string lower (py "Song (feat. X) [Remix]") = py "song".
Proof.
  split.
  - intros x. apply NormFacts.normalize_string_fixed; [done|].
    apply NormFacts.normalize_string_normal.
  - unfold normalize_string. rewrite lower_ascii.
    + by vm_compute.
    + repeat constructor.
Qed.

(** C3 with the ASCII lowering for [str.lower]. *)
Lemma C3_normalize_idempotent_witness :
  (forall x,
     normalize_string Examples.ascii_lower_str
       (normalize_string Examples.ascii_lower_str x) =
     normalize_string Examples.ascii_lower_str x) /\
  normalize_string Examples.ascii_lower_str (py "Song (feat. X) [Remix]") = py "song".
Proof.
  apply (C3_normalize_idempotent Examples.ascii_lower_str).
  intros s _. reflexivity.
Defined.

(** C5.  When the track is empty after stripping, the track of every
    variant is empty after stripping; [try_alternate_queries] then skips
    every variant, sends no request, leaves the cache alone and returns
    [None]. *)
Theorem C5_empty_track_unresolved {net_state : Type}
  (http_get : pystr -> pystr -> net_state -> response * net_state)
  (artist track token : pystr) (w : env) :
  Str.strip track = [] ->
  Forall (fun v => Str.strip v.2 = []) (alternates artist track) /\
  try_alternate_queries http_get artist track token w = (None, w).
Proof.
  intros H.
  assert (Forall (fun v : pystr * pystr => Str.strip v.2 = [])
            (alternates artist track)) as Hall.
  { pose proof (proj1 (StrFacts.strip_nil track) H) as Hsp.
    assert (forall c, Str.isspace c = false -> c ∉ track) as Habs.
    { intros c Hc Hin. rewrite Forall_forall in Hsp. apply Hsp in Hin.
      congruence. }
    unfold alternates. repeat constructor; simpl; try done.
    - by rewrite NormFacts.sub_paren_or_bracket_absent by (by apply Habs).
    - change (py "remastered") with (114 :: py "emastered").
      rewrite StrFacts.replace_absent by (by apply Habs).
      rewrite H. done. }
  split; [done|]. unfold try_alternate_queries.
  induction Hall as [|[a t] alts Ht _ IH]; [done|].
  by rewrite loop_cons_skip.
Qed.

(** C5 on a track name made of punctuation, which normalizes to the
    empty string. *)
Lemma C5_empty_track_unresolved_witness :
  Str.strip (normalize_string Examples.ascii_lower_str (py "?!")) = [] /\
  try_alternate_queries Examples.always_found (py "the beatles")
    (normalize_string Examples.ascii_lower_str (py "?!")) (py "token")
    (Examples.start ∅) = (None, Examples.start ∅).
Proof.
  split; [reflexivity|].
  apply (C5_empty_track_unresolved Examples.always_found). reflexivity.
Defined.

(** C10.  On a normalized track (an output of [normalize_string])
    variant (d), which strips parenthesised and bracketed parts, is the
    identity: it is the same (artist, track) pair as variant (a).  It
    can never find a match that variant (a) did not: a call gives the
    same answer, cache, cache file and requests as the loop without
    variant (d). *)
Theorem C10_variant_d_redundant {net_state : Type}
  (http_get : pystr -> pystr -> net_state -> response * net_state)
  (lower : pystr -> pystr) (artist x token : pystr) (w : env) :
  let track := normalize_string lower x in
  let res := try_alternate_queries http_get artist track token w in
  let res' := alternates_loop http_get (delete 3%nat (alternates artist track)) token w in
  Re.sub re_paren_or_bracket [] track = track /\
  alternates artist track !! 3%nat = Some (artist, track) /\
  alternates artist track !! 0%nat = Some (artist, track) /\
  res.1 = res'.1 /\ same_io res.2 res'.2.
Proof.
  intros track res res'.
  assert (Re.sub re_paren_or_bracket [] track = track) as Hd.
  { pose proof (NormFacts.normalize_string_normal lower x) as Hn.
    apply NormFacts.sub_paren_or_bracket_absent.
    - by apply (NormFacts.normal_absent 40).
    - by apply (NormFacts.normal_absent 91). }
  split; [done|].
  unfold res, res', try_alternate_queries, alternates. rewrite Hd.
  split; [done|]. split; [done|].
  apply (loop_repeated http_get (artist, track) token
           [(artist, Str.strip (Str.replace (py "remastered") [] track))]
           [(artist, track); ([], track);
            (List.hd [] (Str.split (py " feat") artist), track)]).
  - apply same_io_refl.
  - left. by left.
Qed.

(** C4.  The requests of one call of [try_alternate_queries] are an
    initial part of the formulations of the variants that reach the
    network, in the order (a) to (e) of [alternates] and, for each
    variant, in the order of [queries].  Either no request found
    anything and all of them were sent, or the last request sent is the
    first that returned status 200 with an item; the first item of that
    response is the answer, and nothing is sent after it.  The variants
    that reach the network keep the order of [alternates]; they are all
    the variants with a track when the cache knows none of them and no
    key occurs twice. *)
Theorem C4_fallback_order {net_state : Type}
  (http_get : pystr -> pystr -> net_state -> response * net_state)
  (artist track token : pystr) (w : env) :
  let res := try_alternate_queries http_get artist track token w in
  let variants := live (alternates artist track) in
  let planned := pending (cache w) variants in
  alternates artist track =
    [ (artist, track); ([], track);
      (List.hd [] (Str.split (py " feat") artist), track);
      (artist, Re.sub re_paren_or_bracket [] track);
      (artist, Str.strip (Str.replace (py "remastered") [] track)) ] /\
  (forall a t, queries a t =
     [t ++ py " artist:" ++ a; t ++ py " " ++ a; py "track:" ++ t]) /\
  planned `sublist_of` variants /\
  ((forall a t, (a, t) ∈ variants -> cache w !! base_key a t = None) ->
   NoDup (map (fun p => base_key p.1 p.2) variants) ->
   planned = variants) /\
  exists issued,
    requests res.2 = requests w ++ issued /\
    map fst issued `prefix_of` formulations planned /\
    ((Forall no_hit issued /\ map fst issued = formulations planned)
     \/
     (exists pre q resp m,
        issued = pre ++ [(q, resp)] /\ Forall no_hit pre /\
        top_match resp = Some m /\ res.1 = Some m)).
Proof.
  intros res variants planned.
  split; [done|]. split; [done|].
  split; [apply pending_sublist|].
  split; [apply pending_cold|].
  unfold res, try_alternate_queries.
  destruct (alternates_loop http_get (alternates artist track) token w)
    as [r w'] eqn:E.
  by apply loop_trace in E.
Qed.





(** ** The loop body *)

Section Pipeline.

Variable lower : pystr -> pystr.
Variable json_loads : pystr -> option json.
Context {net_state : Type}.
Variable http_get : pystr -> pystr -> net_state -> response * net_state.
Variables username country_code token : pystr.

Implicit Types (st : @state net_state) (w : @env net_state).

Lemma bind_eval {A B} (r : result A) (k : A -> M B) st :
  (eval r ≫= k) st =
  match r with
  | Ok a => k a st
  | Raise e => (Raise e, st)
  end.
Proof. by destruct r. Qed.

Lemma result_bind_Ok {A B} (a : A) (k : A -> result B) : Ok a ≫= k = k a.
Proof. done. Qed.

Lemma result_bind_inv {A B} (m : result A) (k : A -> result B) b :
  m ≫= k = Ok b -> exists a, m = Ok a /\ k a = Ok b.
Proof. destruct m as [a|e]; [|done]. intros H. by exists a. Qed.

Lemma get_obj items k d :
  Py.get (JObj items) k d = Ok (default d (Py.assoc k items)).
Proof. unfold Py.get. by destruct (Py.assoc k items). Qed.

Lemma get_Ok_obj j k d v : Py.get j k d = Ok v -> exists items, j = JObj items.
Proof. destruct j; try done. by eexists. Qed.

Abbreviation body line :=
  (process_line lower json_loads http_get username country_code token line).
Abbreviation handle line :=
  (handle_line lower json_loads http_get username country_code token line).
Abbreviation after_resolve :=
  (Outcome.after_resolve lower http_get username country_code token).
Abbreviation decides := (Outcome.decides json_loads username country_code).
Abbreviation run_body :=
  (Outcome.run_body lower http_get username country_code token).
Abbreviation finish :=
  (Outcome.finish lower http_get username country_code token).
Abbreviation handle_all :=
  (Outcome.handle_all lower json_loads http_get username country_code token).

Ltac exec_line :=
  unfold process_line;
  repeat first
    [ rewrite bind_eval
    | progress cbn beta iota
    | progress cbn [from_option]
    | match goal with
      | H : ?x = _ |- context [?x] => rewrite H
      end ].

Lemma resolve_body f st :
  (call (try_alternate_queries http_get (normalize_string lower (f_artist_raw f))
           (normalize_string lower (f_track_raw f)) token)
   ≫= fun api_result =>
        match api_result with
        | Some r => mret (Some (Match.spotify_track_uri r), Match.album_name r)
        | None =>
            unknowns_add (f_artist_raw f ++ [32; 8211; 32] ++ f_track_raw f);;
            mret (None, f_album_raw f)
        end
        ≫= fun '(spotify_uri, album_name) =>
             eval (Py.get (JObj (f_info f)) (py "duration_ms") (JInt 0))
             ≫= fun duration_ms =>
                  append_record
                    (output_of username country_code (f_iso f ++ py "Z")
                       (f_track_raw f) (f_artist_raw f) album_name spotify_uri
                       duration_ms (f_listened_at f))
                  ≫= fun count =>
                       if (count mod 100 =? 0)%Z
                       then say (MsgProcessed count) else mret tt) st
  = (Ok tt, after_resolve f st).
Proof.
  unfold Outcome.after_resolve.
  unfold mbind at 1, M_bind at 1, call at 1.
  destruct (try_alternate_queries http_get (normalize_string lower (f_artist_raw f))
              (normalize_string lower (f_track_raw f)) token (world st))
    as [api w1].
  unfold duration_of.
  destruct api as [m|].
  - unfold mbind at 1, M_bind at 1, mret at 1, M_ret at 1.
    rewrite bind_eval, get_obj.
    unfold mbind, M_bind, append_record, say, call, mret, M_ret. simpl.
    by destruct (_ =? 0)%Z.
  - unfold mbind at 1, M_bind at 1. unfold mbind at 1, M_bind at 1.
    unfold unknowns_add at 1, mret at 1, M_ret at 1.
    rewrite bind_eval, get_obj.
    unfold mbind, M_bind, append_record, say, call, mret, M_ret. simpl.
    by destruct (_ =? 0)%Z.
Qed.

Lemma process_line_decision line :
  exists d, decides line d /\ forall st, body line st = run_body d st.
Proof.
  destruct (json_loads line) as [entry|] eqn:Hload.
  2:{ exists (Fails JSONDecodeError). split; [done|]. intros st. by exec_line. }
  destruct (Py.getitem entry (py "track_metadata")) as [meta|e] eqn:Hmeta.
  2:{ exists (Fails e). split; [done|]. intros st. by exec_line. }
  destruct (Py.get meta (py "additional_info") (JObj [])) as [info|e] eqn:Hinfo.
  2:{ exists (Fails e). split; [done|]. intros st. by exec_line. }
  destruct (Py.get info (py "music_service") JNull) as [ms|e] eqn:Hms.
  2:{ exists (Fails e). split; [done|]. intros st. by exec_line. }
  destruct (get_Ok_obj _ _ _ _ Hms) as [items ->].
  pose proof Hms as Hms'. rewrite get_obj in Hms'. injection Hms' as <-.
  fold (music_service_of items) in Hms.
  destruct (Py.eq_str (music_service_of items) (py "spotify.com")) eqn:Hsp.
  { exists Skip. split; [by exists entry, meta, items|]. intros st. by exec_line. }
  destruct (Py.getitem entry (py "listened_at")) as [la|e] eqn:Hla.
  2:{ exists (Fails e). split; [done|]. intros st. by exec_line. }
  destruct (Datetime.as_timestamp la) as [t|e] eqn:Ht.
  2:{ exists (Fails e). split; [done|]. intros st. by exec_line. }
  destruct (Datetime.utcfromtimestamp_isoformat t) as [iso|e] eqn:Hiso.
  2:{ exists (Fails e). split; [done|]. intros st. by exec_line. }
  destruct (Py.get meta (py "artist_name") (JStr []) ≫= Py.strip)
    as [artist_raw|e] eqn:Hartist.
  2:{ exists (Fails e). split; [done|]. intros st. by exec_line. }
  destruct (Py.get meta (py "track_name") (JStr []) ≫= Py.strip)
    as [track_raw|e] eqn:Htrack.
  2:{ exists (Fails e). split; [done|]. intros st. by exec_line. }
  destruct (Py.get meta (py "release_name") (JStr []) ≫= Py.strip)
    as [album_raw|e] eqn:Halbum.
  2:{ exists (Fails e). split; [done|]. intros st. by exec_line. }
  pose proof (get_obj items (py "spotify_id") JNull) as Hsid.
  set (sid := default JNull (Py.assoc (py "spotify_id") items)) in Hsid.
  set (f := {| f_meta := meta; f_info := items; f_listened_at := t;
               f_iso := iso; f_artist_raw := artist_raw;
               f_track_raw := track_raw; f_album_raw := album_raw;
               f_spotify_id := sid |}).
  assert (reads entry f) as Hreads.
  { unfold reads, f.
    cbn [f_meta f_info f_listened_at f_iso f_artist_raw f_track_raw
         f_album_raw f_spotify_id].
    rewrite Hla, result_bind_Ok. done. }
  destruct (has_track_reference sid) as [[|]|e] eqn:Href.
  - destruct (convert_lb_entry_to_spotify_format entry username country_code)
      as [r|e] eqn:Hconv.
    + exists (Direct r). split; [by exists entry, f|]. intros st.
      unfold has_track_reference in Href. by exec_line.
    + exists (Fails e). split; [done|]. intros st.
      unfold has_track_reference in Href. by exec_line.
  - exists (Resolve f). split; [by exists entry|]. intros st.
    unfold has_track_reference in Href. exec_line.
    apply (resolve_body f st).
  - exists (Fails e). split; [done|]. intros st.
    unfold has_track_reference in Href. by exec_line.
Qed.

Lemma handle_line_finish line d st :
  (forall st, body line st = run_body d st) -> handle line st = finish d st.
Proof.
  intros H. unfold handle_line. rewrite H. by destruct d.
Qed.

(** The record builder on an event whose fields were read. *)
Lemma convert_reads entry f :
  reads entry f ->
  convert_lb_entry_to_spotify_format entry username country_code =
  (is_track ← has_track_reference (f_spotify_id f);
   spotify_uri ← (if is_track : bool
                  then seg ← Py.split_last (py "/") (f_spotify_id f);
                       Ok (Some (py "spotify:track:" ++ seg))
                  else Ok None);
   Ok (output_of username country_code (f_iso f ++ py "Z") (f_track_raw f)
         (f_artist_raw f) (f_album_raw f) spotify_uri (duration_of f)
         (f_listened_at f))).
Proof.
  intros (Hm & Hi & Hla & Hiso & Ha & Ht & Hal & Hs).
  apply result_bind_inv in Hla as (la & Hla & Hts).
  unfold convert_lb_entry_to_spotify_format.
  rewrite Hm, result_bind_Ok, Hi, result_bind_Ok, Hla, result_bind_Ok.
  rewrite Hts, result_bind_Ok, Hiso, result_bind_Ok.
  rewrite Ha, result_bind_Ok, Ht, result_bind_Ok, Hal, result_bind_Ok.
  rewrite Hs, result_bind_Ok. fold (has_track_reference (f_spotify_id f)).
  destruct (has_track_reference (f_spotify_id f)) as [is_track|e]; [|done].
  rewrite !result_bind_Ok.
  destruct (if is_track then _ else _) as [uri|e]; [|done].
  rewrite !result_bind_Ok, get_obj. done.
Qed.

Lemma same_state_refl st : same_state st st.
Proof. repeat split. Qed.

Lemma after_error_same e st : same_state (after_error e st) st.
Proof. repeat split. Qed.

Lemma finish_frame d st1 st2 :
  same_state st1 st2 -> same_state (finish d st1) (finish d st2).
Proof.
  intros (Hw & Ho & Hu & Hp & Hs). pose proof Hw as (Hc & Hf & Hn & Hr).
  destruct d as [e| |r|f]; cbn [Outcome.finish].
  - unfold after_error, set_world, same_state. cbn. repeat split; done.
  - unfold after_skip, same_state. cbn. repeat split; try done. by rewrite Hs.
  - unfold after_direct, same_state. cbn. repeat split; try done.
    + by rewrite Ho.
    + by rewrite Hp.
  - unfold Outcome.after_resolve, try_alternate_queries.
    pose proof (loop_frame http_get token
                  (alternates (normalize_string lower (f_artist_raw f))
                     (normalize_string lower (f_track_raw f)))
                  (world st1) (world st2) Hw) as [E1 E2].
    destruct (alternates_loop http_get _ token (world st1)) as [r1 w1].
    destruct (alternates_loop http_get _ token (world st2)) as [r2 w2].
    cbn [fst snd] in E1, E2. subst r2. rewrite Hp, Ho, Hu.
    unfold same_state. cbn [world output_data unknowns processed_count skipped_spotify].
    repeat split; try done;
      destruct (_ =? 0)%Z; cbn; try apply E2.
Qed.

Lemma handle_frame line st1 st2 :
  same_state st1 st2 -> same_state (handle line st1) (handle line st2).
Proof.
  intros H. destruct (process_line_decision line) as (d & _ & Hd).
  rewrite !(handle_line_finish line d) by done. by apply finish_frame.
Qed.

Lemma handle_all_frame lines : forall st1 st2,
  same_state st1 st2 -> same_state (handle_all lines st1) (handle_all lines st2).
Proof.
  induction lines as [|line lines IH]; intros st1 st2 H; [done|].
  unfold Outcome.handle_all. cbn [fold_left]. by apply IH, handle_frame.
Qed.

Lemma handle_all_app l1 l2 st :
  handle_all (l1 ++ l2) st = handle_all l2 (handle_all l1 st).
Proof. unfold Outcome.handle_all. apply fold_left_app. Qed.

Lemma convert_handle_all files w :
  convert_with_spotify_api lower json_loads http_get files username
    country_code token w =
  handle_all (concat files)
    {| world := load_cache w; output_data := []; unknowns := ∅;
       processed_count := 0; skipped_spotify := 0 |}.
Proof. done. Qed.

Lemma has_track_reference_str sid :
  Str.contains (py "open.spotify.com/track/") sid = true ->
  has_track_reference (JStr sid) = Ok true.
Proof.
  intros H. unfold has_track_reference, Py.truthy, Py.contains. rewrite H.
  destruct sid; [done|]. done.
Qed.

Lemma eq_str_refl s : Py.eq_str (JStr s) s = true.
Proof. unfold Py.eq_str, Py.is_str. by apply bool_decide_eq_true_2. Qed.

Lemma not_app_one {A} (l : list A) x : l <> l ++ [x].
Proof.
  intros H. apply (f_equal length) in H. rewrite length_app in H.
  simpl in H. lia.
Qed.

(** C9.  An event whose [additional_info.music_service] is
    ["spotify.com"] is passed over: the loop body adds one to
    [skipped_spotify] and changes nothing else, so there is no record, no
    call of the resolver, no request, no entry in [unknowns] and no
    change of [processed_count]. *)
Theorem C9_spotify_listens_skipped line entry meta info st :
  json_loads line = Some entry ->
  Py.getitem entry (py "track_metadata") = Ok meta ->
  Py.get meta (py "additional_info") (JObj []) = Ok info ->
  Py.get info (py "music_service") JNull = Ok (JStr (py "spotify.com")) ->
  handle line st =
  {| world := world st; output_data := output_data st;
     unknowns := unknowns st; processed_count := processed_count st;
     skipped_spotify := skipped_spotify st + 1 |}.
Proof.
  intros H1 H2 H3 H4. unfold handle_line.
  assert (body line st = (Ok tt, after_skip st)) as ->; [|done].
  pose proof (eq_str_refl (py "spotify.com")) as Heq.
  by exec_line.
Qed.

(** C6, amended.  For an event whose fields can be read, whose
    [music_service] is not ["spotify.com"] and whose [spotify_id] is a
    string that contains ["open.spotify.com/track/"], the record is built
    from the event alone: nothing but a printed line changes in the cache,
    the cache file, the network and the requests, and the
    [spotify_track_uri] of the record is ["spotify:track:"] followed by
    the last ["/"]-separated part of [spotify_id]. *)
Theorem C6_direct_identifier line entry f sid st :
  json_loads line = Some entry ->
  reads entry f ->
  Py.eq_str (music_service_of (f_info f)) (py "spotify.com") = false ->
  f_spotify_id f = JStr sid ->
  Str.contains (py "open.spotify.com/track/") sid = true ->
  handle line st =
  {| world := print (MsgUsedLB (f_artist_raw f) (f_track_raw f)) (world st);
     output_data := output_data st ++
       [output_of username country_code (f_iso f ++ py "Z") (f_track_raw f)
          (f_artist_raw f) (f_album_raw f)
          (Some (py "spotify:track:" ++ List.last (Str.split (py "/") sid) []))
          (duration_of f) (f_listened_at f)];
     unknowns := unknowns st;
     processed_count := processed_count st + 1;
     skipped_spotify := skipped_spotify st |}.
Proof.
  intros Hload Hreads Hsp Hsid Hpat.
  pose proof (has_track_reference_str sid Hpat) as Href.
  pose proof (convert_reads entry f Hreads) as Hconv.
  rewrite Hsid, Href in Hconv. rewrite !result_bind_Ok in Hconv.
  cbn [Py.split_last] in Hconv. rewrite !result_bind_Ok in Hconv.
  destruct Hreads as (Hm & Hi & Hla & Hiso & Ha & Ht & Hal & Hs).
  apply result_bind_inv in Hla as (la & Hla & Hts).
  pose proof (get_obj (f_info f) (py "music_service") JNull) as Hms.
  fold (music_service_of (f_info f)) in Hms.
  rewrite Hsid in Hs. unfold has_track_reference in Href.
  unfold handle_line.
  match goal with
  | |- match body line st with _ => _ end = ?s =>
      assert (body line st = (Ok tt, s)) as ->; [|done]
  end.
  exec_line.
  unfold mbind, M_bind, append_record, say, call. by cbn.
Qed.


(** A line on which the loop body raises, at whatever point the body
    can raise here (parsing the line, reading the fields of the event,
    building the record of the fast path): the handler prints the error
    and nothing else changes, and the run over the files ends as the run
    over the same files without that line, up to what was printed. *)
Lemma raise_contained line e :
  (forall st0, (body line st0).1 = Raise e) ->
  (forall st, handle line st = after_error e st) /\
  (forall files1 before after files2 w,
     same_state
       (convert_with_spotify_api lower json_loads http_get
          (files1 ++ (before ++ line :: after) :: files2)
          username country_code token w)
       (convert_with_spotify_api lower json_loads http_get
          (files1 ++ (before ++ after) :: files2)
          username country_code token w)).
Proof.
  intros Hraise.
  assert (forall st, handle line st = after_error e st) as Hh.
  { intros st. destruct (process_line_decision line) as (d & _ & Hrun).
    pose proof (Hraise st) as Hst. rewrite Hrun in Hst.
    destruct d as [e'| |r|f]; cbn [Outcome.run_body fst] in Hst; try done.
    injection Hst as ->.
    by rewrite (handle_line_finish line (Fails e) st Hrun). }
  split; [apply Hh|].
  intros files1 before after files2 w.
  rewrite !convert_handle_all.
  rewrite !concat_app, !concat_cons, <- !app_assoc, <- !app_comm_cons.
  rewrite !(handle_all_app (concat files1)), !(handle_all_app before).
  change (handle_all (line :: ?l) ?s) with (handle_all l (handle line s)).
  apply handle_all_frame. rewrite Hh. apply after_error_same.
Qed.

End Pipeline.

(** C6, as stated, fails: a listen that came from Spotify carries the
    page of its track, and it is passed over before the fast path is
    looked at; no record is built from it. *)
Lemma C6_counterexample :
  let st := Examples.fresh (Examples.start ∅) in
  let st' :=
    handle_line Examples.ascii_lower_str Examples.loads Examples.always_found
      (py "me") (py "XX") (py "token") (py "from spotify") st in
  Examples.loads (py "from spotify") = Some Examples.from_spotify /\
  (meta ← Py.getitem Examples.from_spotify (py "track_metadata");
   info ← Py.get meta (py "additional_info") (JObj []);
   Py.get info (py "spotify_id") JNull)
  = Ok (JStr (py "https://open.spotify.com/track/abc123")) /\
  Str.contains (py "open.spotify.com/track/")
    (py "https://open.spotify.com/track/abc123") = true /\
  output_data st' = [] /\
  processed_count st' = 0%Z /\
  skipped_spotify st' = 1%Z.
Proof. vm_compute. repeat split. Qed.

(** C6, amended, on a listen from elsewhere with the page of its track. *)
Lemma C6_direct_identifier_witness :
  let st := Examples.fresh (Examples.start ∅) in
  handle_line Examples.ascii_lower_str Examples.loads Examples.always_found
    (py "me") (py "XX") (py "token") (py "with track page") st =
  {| world := print (MsgUsedLB (py "The Beatles") (py "Let It Be")) (world st);
     output_data := output_data st ++
       [output_of (py "me") (py "XX") (py "2023-11-14T22:13:20" ++ py "Z")
          (py "Let It Be") (py "The Beatles") (py "Let It Be")
          (Some (py "spotify:track:" ++
                 List.last (Str.split (py "/")
                              (py "https://open.spotify.com/track/abc123")) []))
          (JInt 0) 1700000000];
     unknowns := unknowns st;
     processed_count := processed_count st + 1;
     skipped_spotify := skipped_spotify st |}.
Proof.
  intros st.
  apply (C6_direct_identifier Examples.ascii_lower_str Examples.loads
           Examples.always_found (py "me") (py "XX") (py "token")
           (py "with track page") Examples.with_track_page
           Examples.with_track_page_fields
           (py "https://open.spotify.com/track/abc123")).
  - reflexivity.
  - repeat split; reflexivity.
  - reflexivity.
  - reflexivity.
  - reflexivity.
Defined.


(** C9 on a listen that came from Spotify. *)
Lemma C9_spotify_listens_skipped_witness :
  let st := Examples.fresh (Examples.start ∅) in
  handle_line Examples.ascii_lower_str Examples.loads Examples.always_found
    (py "me") (py "XX") (py "token") (py "from spotify") st =
  {| world := world st; output_data := output_data st;
     unknowns := unknowns st; processed_count := processed_count st;
     skipped_spotify := skipped_spotify st + 1 |}.
Proof.
  intros st.
  apply (C9_spotify_listens_skipped Examples.ascii_lower_str Examples.loads
           Examples.always_found (py "me") (py "XX") (py "token")
           (py "from spotify") Examples.from_spotify
           (JObj [(py "artist_name", JStr (py "The Beatles"));
                  (py "track_name", JStr (py "Let It Be"));
                  (py "additional_info",
                   JObj [(py "music_service", JStr (py "spotify.com"));
                         (py "spotify_id",
                          JStr (py "https://open.spotify.com/track/abc123"))])])
           (JObj [(py "music_service", JStr (py "spotify.com"));
                  (py "spotify_id",
                   JStr (py "https://open.spotify.com/track/abc123"))]));
    reflexivity.
Defined.

(** The end-to-end example of the specification, with a line that is not
    JSON before the event: one error is printed, one record is written. *)
Example end_to_end :
  let st :=
    convert_with_spotify_api Examples.ascii_lower_str Examples.loads
      Examples.beatles_only [[py "{"; py "let it be"]] (py "me") (py "XX")
      (py "token") (Examples.start ∅) in
  output_data st =
    [output_of (py "me") (py "XX") (py "2023-11-14T22:13:20Z") (py "Let It Be")
       (py "The Beatles") (py "Let It Be") (Some (py "spotify:track:abc123"))
       (JInt 243000) 1700000000] /\
  map fst (requests (world st)) = [py "let it be artist:the beatles"] /\
  stdout (world st) =
    [MsgProcessingError JSONDecodeError;
     MsgFound (py "the beatles") (py "let it be") 1] /\
  unknowns st = ∅.
Proof. vm_compute. repeat split. Qed.

(** * Further properties of the script *)

(** ** Strings *)

Module StrMore.
Import Str StrFacts.

Lemma collapsed_no_double s :
  collapsed s = true ->
  forall i, s !! i = Some 32 -> s !! S i <> Some 32.
Proof.
  induction s as [|c s IH]; intros H i Hi Hn; [done|].
  cbn [collapsed] in H. apply andb_true_iff in H as [H1 H2].
  destruct i as [|i].
  - simpl in Hi, Hn. injection Hi as ->. simpl in H1.
    apply negb_true_iff in H1. destruct s as [|d s]; [done|].
    simpl in Hn. injection Hn as ->. done.
  - by apply (IH H2 i).
Qed.

Lemma last_rev (s : pystr) : last s = head (rev s).
Proof.
  destruct s as [|x l _] using rev_ind; [done|].
  by rewrite last_snoc, rev_unit.
Qed.

Lemma leading_space_head s : leading_space s = false -> head s <> Some 32.
Proof. destruct s as [|c s]; [done|]. simpl. by intros H [= ->]. Qed.

Lemma strip_strip s : strip (strip s) = strip s.
Proof. apply strip_id; [apply strip_leading|apply strip_trailing]. Qed.

Lemma contains_false_suffix p s :
  contains p s = false ->
  forall s', s' `suffix_of` s -> startswith p s' = false.
Proof.
  induction s as [|c s IH]; intros H s' Hs'.
  - apply suffix_nil_inv in Hs' as ->. simpl in H.
    by apply orb_false_iff in H as [H _].
  - cbn [contains] in H. apply orb_false_iff in H as [H1 H2].
    destruct Hs' as [[|x k] Hk]; simpl in Hk; [by subst s'|].
    injection Hk as _ ->. apply IH; [done|]. by exists k.
Qed.

Lemma split_from_no_occurrence sep s : forall cur,
  (forall s', s' `suffix_of` s -> startswith sep s' = false) ->
  split_from sep 0 cur s = [cur ++ s].
Proof.
  induction s as [|c s IH]; intros cur H.
  - simpl. by rewrite app_nil_r.
  - cbn [split_from]. rewrite H by done.
    rewrite IH; [by rewrite <- app_assoc|].
    intros s' Hs'. apply H. by apply suffix_cons_r.
Qed.

(** A string without the separator is not cut. *)
Lemma split_no_occurrence sep s :
  contains sep s = false -> split sep s = [s].
Proof.
  intros H. unfold split. rewrite split_from_no_occurrence; [done|].
  by apply contains_false_suffix.
Qed.

(** A string without [old] is left alone. *)
Lemma replace_no_occurrence old new s :
  contains old s = false -> replace old new s = s.
Proof.
  intros H. pose proof (contains_false_suffix _ _ H) as Hs. clear H.
  unfold replace. induction s as [|c s IH]; [done|].
  cbn [replace_from]. rewrite Hs by done. f_equal. apply IH.
  intros s' Hs'. apply Hs. by apply suffix_cons_r.
Qed.

(** The parts of a string cut at a character do not hold it. *)
Lemma split_from_char c s : forall cur,
  c ∉ cur -> Forall (fun seg => c ∉ seg) (split_from [c] 0 cur s).
Proof.
  induction s as [|x s IH]; intros cur Hcur.
  - simpl. by constructor.
  - cbn [split_from startswith]. destruct (N.eqb_spec c x) as [->|Hne].
    + simpl. constructor; [done|]. apply IH. by apply not_elem_of_nil.
    + simpl. apply IH. intros Hin. apply elem_of_app in Hin as [Hin|Hin]; [done|].
      apply list_elem_of_singleton in Hin. done.
Qed.

Lemma split_last_char c s : c ∉ List.last (split [c] s) [].
Proof.
  pose proof (split_from_char c s [] (not_elem_of_nil _)) as H.
  unfold split. induction H as [|seg l Hseg Hl IH]; [apply not_elem_of_nil|].
  destruct l as [|seg' l]; [done|]. exact IH.
Qed.

(** Two strings cut at the first [c] are equal part by part. *)
Lemma app_sep_inj (c : N) a : forall a' t t',
  c ∉ a -> c ∉ a' -> a ++ c :: t = a' ++ c :: t' -> a = a' /\ t = t'.
Proof.
  induction a as [|x a IH]; intros a' t t' Ha Ha' H.
  - destruct a' as [|y a']; simpl in H; [by injection H|].
    injection H as <- _. exfalso. apply Ha'. by left.
  - destruct a' as [|y a']; simpl in H.
    + injection H as -> _. exfalso. apply Ha. by left.
    + injection H as -> H. destruct (IH a' t t') as [-> ->]; [| |done|done].
      * intros ?. apply Ha. by right.
      * intros ?. apply Ha'. by right.
Qed.

Lemma startswith_prefix p : forall s, startswith p s = true <-> p `prefix_of` s.
Proof.
  induction p as [|a p IH]; intros s.
  - split; [intros _; apply prefix_nil|done].
  - destruct s as [|b s]; simpl.
    + split; [done|]. intros [k Hk]. done.
    + rewrite andb_true_iff, N.eqb_eq, IH. split.
      * intros [-> H]. by apply prefix_cons.
      * intros [k Hk]. injection Hk as -> ->. split; [done|]. by exists k.
Qed.

(** A string that contains [p] holds every character of [p]. *)
Lemma contains_elem p c : c ∈ p -> forall s, contains p s = true -> c ∈ s.
Proof.
  intros Hc. induction s as [|x s IH]; cbn [contains]; intros H.
  - rewrite orb_false_r in H. apply startswith_prefix in H.
    apply prefix_nil_inv in H. subst p. by apply elem_of_nil in Hc.
  - apply orb_true_iff in H as [H|H].
    + apply startswith_prefix in H as [k ->]. apply elem_of_app. by left.
    + right. by apply IH.
Qed.

Lemma split_from_not_nil sep s : forall k cur, split_from sep k cur s <> [].
Proof.
  induction s as [|x s IH]; intros k cur; [done|].
  cbn [split_from]. destruct k; [|apply IH].
  destruct (startswith sep (x :: s)); [done|apply IH].
Qed.

Lemma last_cons_not_nil (x : pystr) l : l <> [] -> List.last (x :: l) [] = List.last l [].
Proof. by destruct l. Qed.

(** What follows the last [c] of a string is the last part of the
    string cut at [c]. *)
Lemma split_from_last_app c s : forall cur,
  c ∈ s -> exists pre, s = pre ++ c :: List.last (split_from [c] 0 cur s) [].
Proof.
  induction s as [|x s IH]; intros cur Hin; [by apply elem_of_nil in Hin|].
  cbn [split_from startswith]. destruct (N.eqb_spec c x) as [<-|Hne].
  - cbn [andb length Nat.sub]. rewrite last_cons_not_nil by apply split_from_not_nil.
    destruct (decide (c ∈ s)) as [Hs|Hs].
    + destruct (IH [] Hs) as [pre Hpre]. exists (c :: pre).
      by rewrite <- app_comm_cons, <- Hpre.
    + exists []. by rewrite (StrFacts.split_from_absent c [] [] s Hs).
  - cbn [andb]. apply elem_of_cons in Hin as [->|Hin]; [done|].
    destruct (IH (cur ++ [x]) Hin) as [pre Hpre]. exists (x :: pre).
    by rewrite <- app_comm_cons, <- Hpre.
Qed.

Lemma split_last_app c pre seg :
  c ∉ seg -> List.last (split [c] (pre ++ c :: seg)) [] = seg.
Proof.
  intros Hseg.
  destruct (split_from_last_app c (pre ++ c :: seg) []) as [pre' E].
  { apply elem_of_app. right. by left. }
  fold (split [c] (pre ++ c :: seg)) in E.
  pose proof (split_last_char c (pre ++ c :: seg)) as Hlast.
  set (L := List.last (split [c] (pre ++ c :: seg)) []) in *.
  apply (f_equal (@rev N)) in E.
  rewrite !rev_app_distr in E. cbn [rev] in E. rewrite <- !app_assoc in E.
  cbn [app] in E.
  apply app_sep_inj in E as [E _].
  - apply (f_equal (@rev N)) in E. by rewrite !rev_involutive in E.
  - by rewrite list_elem_of_In, <- in_rev, <- list_elem_of_In.
  - by rewrite list_elem_of_In, <- in_rev, <- list_elem_of_In.
Qed.

End StrMore.

(** X1.  Whatever [str.lower] does, a normalized string holds only
    lowercase ASCII letters, digits and blanks, no two blanks in a row,
    and no blank at either end. *)
Theorem X1_normalize_string_shape (lower : pystr -> pystr) (x : pystr) :
  let s := normalize_string lower x in
  (forall c, c ∈ s -> 97 <= c <= 122 \/ 48 <= c <= 57 \/ c = 32) /\
  (forall i, s !! i = Some 32 -> s !! S i <> Some 32) /\
  head s <> Some 32 /\ last s <> Some 32.
Proof.
  intros s.
  destruct (NormFacts.normalize_string_normal lower x) as (H1 & H2 & H3 & H4).
  fold s in H1, H2, H3, H4. repeat split.
  - intros c Hc. rewrite Forall_forall in H1.
    by apply NormFacts.norm_char_range, H1.
  - by apply StrMore.collapsed_no_double.
  - by apply StrMore.leading_space_head.
  - rewrite StrMore.last_rev. by apply StrMore.leading_space_head.
Qed.

(** X2.  Two normalized pairs with the same cache key are the same pair:
    a normalized string has no ["|"], so the key can be cut in one way
    only. *)
Theorem X2_base_key_injective (lower : pystr -> pystr)
  (artist track artist' track' : pystr) :
  base_key (normalize_string lower artist) (normalize_string lower track) =
  base_key (normalize_string lower artist') (normalize_string lower track') ->
  normalize_string lower artist = normalize_string lower artist' /\
  normalize_string lower track = normalize_string lower track'.
Proof.
  unfold base_key. change (py "|" ++ ?t) with (124 :: t).
  apply StrMore.app_sep_inj;
    by apply (NormFacts.normal_absent 124), NormFacts.normalize_string_normal.
Qed.

(** X2 on two spellings of one pair. *)
Lemma X2_base_key_injective_witness :
  normalize_string Examples.ascii_lower_str (py "The Beatles") =
  normalize_string Examples.ascii_lower_str (py " the  BEATLES!") /\
  normalize_string Examples.ascii_lower_str (py "Let It Be") =
  normalize_string Examples.ascii_lower_str (py "let it be (feat. nobody)").
Proof.
  apply (X2_base_key_injective Examples.ascii_lower_str). reflexivity.
Defined.

(** ** More on the resolver *)

Section MoreResolver.

Context {net_state : Type}.
Variable http_get : pystr -> pystr -> net_state -> response * net_state.

Implicit Types (w : @env net_state) (r : option Match.t).

(** A search sends at least its first formulation. *)
Lemma search_loop_sends a t token qs i w :
  qs <> [] ->
  (length (requests w) <
   length (requests (search_loop http_get a t token i qs w).2))%nat.
Proof.
  intros Hqs.
  destruct (search_loop http_get a t token i qs w) as [r w'] eqn:E.
  cbn [snd]. apply search_loop_spec in E as (issued & -> & _ & _ & Hr).
  rewrite length_app.
  assert (issued <> []); [|destruct issued; simpl; [done|lia]].
  destruct r as [m|].
  - destruct Hr as (pre & q & resp & -> & _). by destruct pre.
  - destruct Hr as [_ Hm]. intros ->. by destruct qs.
Qed.

(** One call either only prints, or it sends, stores and saves. *)
Lemma query_steps a t token w r w' :
  query_spotify_api http_get a t token w = (r, w') ->
  (cache w !! base_key a t = Some r /\ w' = print (MsgCache a t) w) \/
  (cache w !! base_key a t = None /\
   cache w' = <[base_key a t := r]> (cache w) /\
   (length (requests w) < length (requests w'))%nat /\
   cache_file w' = Some (cache w')).
Proof.
  intros H. destruct (cache w !! base_key a t) as [e|] eqn:E.
  - rewrite (query_hit _ _ _ _ _ _ E) in H. inversion H; subst. by left.
  - rewrite (query_miss _ _ _ _ _ E) in H. right. split; [done|].
    pose proof (search_loop_sends a t token (queries a t) 0 w) as Hlen.
    rewrite H in Hlen.
    apply search_loop_spec in H as (issued & _ & Hc & Hf & _).
    split; [done|]. split; [by apply Hlen|done].
Qed.

Lemma loop_steps token : forall alts w r w',
  alternates_loop http_get alts token w = (r, w') ->
  (exists out, w' = with_stdout out w) \/
  ((size (cache w) < size (cache w'))%nat /\
   (length (requests w) < length (requests w'))%nat /\
   cache_file w' = Some (cache w')).
Proof.
  induction alts as [|[a0 t0] alts IH]; intros w r w' H.
  - simpl in H. inversion H; subst. left. exists []. by rewrite with_stdout_nil.
  - destruct (decide (Str.strip t0 = [])) as [Ht|Ht].
    { rewrite loop_cons_skip in H by done. by eapply IH. }
    rewrite loop_cons_keep in H by done.
    destruct (query_spotify_api http_get (Str.strip a0) (Str.strip t0) token w)
      as [r0 w1] eqn:Hq.
    assert ((exists out, w' = with_stdout out w1) \/
            ((size (cache w1) < size (cache w'))%nat /\
             (length (requests w1) < length (requests w'))%nat /\
             cache_file w' = Some (cache w'))) as Hrest.
    { destruct r0 as [m|]; [|by eapply IH].
      inversion H; subst. left. exists []. by rewrite with_stdout_nil. }
    clear H.
    apply query_steps in Hq as [[_ ->]|(Hnone & Hc & Hlen & Hf)].
    + destruct Hrest as [[out ->]|Hrest]; [|by right].
      left. rewrite print_with_stdout, with_stdout_app. by eexists.
    + right.
      assert (size (cache w) < size (cache w1))%nat as Hsize.
      { rewrite Hc, map_size_insert_None by done. lia. }
      destruct Hrest as [[out ->]|(H1 & H2 & H3)]; [done|].
      split; [lia|]. split; [lia|done].
Qed.

(** The keys a call adds are keys of its variants. *)
Lemma loop_new_keys token : forall alts w r w',
  alternates_loop http_get alts token w = (r, w') ->
  forall k, cache w !! k = None -> is_Some (cache w' !! k) ->
  exists a t, (a, t) ∈ live alts /\ k = base_key a t.
Proof.
  induction alts as [|[a0 t0] alts IH]; intros w r w' H k Hk Hk'.
  - simpl in H. inversion H; subst. rewrite Hk in Hk'. by destruct Hk'.
  - destruct (decide (Str.strip t0 = [])) as [Ht|Ht].
    { rewrite loop_cons_skip in H by done. rewrite live_cons_skip by done.
      by eapply IH. }
    rewrite loop_cons_keep in H by done. rewrite live_cons_keep by done.
    destruct (decide (k = base_key (Str.strip a0) (Str.strip t0))) as [->|Hne].
    { exists (Str.strip a0), (Str.strip t0). split; [by left|done]. }
    destruct (query_spotify_api http_get (Str.strip a0) (Str.strip t0) token w)
      as [r0 w1] eqn:Hq.
    assert (cache w1 !! k = None) as Hk1.
    { apply query_steps in Hq as [[_ ->]|(_ & -> & _)]; [done|].
      by rewrite lookup_insert_ne. }
    destruct r0 as [m|].
    + inversion H; subst. rewrite Hk1 in Hk'. by destruct Hk'.
    + destruct (IH _ _ _ H k Hk1 Hk') as (a & t & Hin & ->).
      exists a, t. split; [by right|done].
Qed.

(** *** An exception in a request *)

Lemma top_match_quiet resp : top_match (quiet resp) = top_match resp.
Proof. by destruct resp. Qed.

Lemma search_loop_quiet a t token : forall qs i w1 w2,
  same_store w1 w2 ->
  (search_loop http_get a t token i qs w1).1 =
  (search_loop (quiet_endpoint http_get) a t token i qs w2).1 /\
  same_store (search_loop http_get a t token i qs w1).2
             (search_loop (quiet_endpoint http_get) a t token i qs w2).2 /\
  exists issued,
    requests (search_loop http_get a t token i qs w1).2 =
      requests w1 ++ issued /\
    requests (search_loop (quiet_endpoint http_get) a t token i qs w2).2 =
      requests w2 ++ map (fun x => (x.1, quiet x.2)) issued.
Proof.
  induction qs as [|q qs IH]; intros i w1 w2 (Hc & Hf & Hn).
  - simpl. split; [done|]. split.
    + unfold same_store. simpl. by rewrite Hc, Hn.
    + exists []. by rewrite !app_nil_r.
  - assert (forall w1' w2' resp,
              requests w1' = requests w1 ++ [(q, resp)] ->
              requests w2' = requests w2 ++ [(q, quiet resp)] ->
              same_store w1' w2' ->
              let res1 := search_loop http_get a t token (S i) qs w1' in
              let res2 := search_loop (quiet_endpoint http_get) a t token (S i) qs w2' in
              res1.1 = res2.1 /\ same_store res1.2 res2.2 /\
              exists issued,
                requests res1.2 = requests w1 ++ issued /\
                requests res2.2 =
                  requests w2 ++ map (fun x => (x.1, quiet x.2)) issued) as Hnext.
    { intros w1' w2' resp E1 E2 Hs.
      destruct (IH (S i) w1' w2' Hs) as (R1 & R2 & issued & R3 & R4).
      split; [done|]. split; [done|].
      exists ((q, resp) :: issued).
      rewrite R3, R4, E1, E2, <- !app_assoc. done. }
    cbn [search_loop]. unfold send, quiet_endpoint. rewrite Hn.
    destruct (http_get token q (net w2)) as [resp n].
    destruct resp as [|code items]; cbn [quiet].
    + change (200 =? 200)%Z with true. cbn beta iota.
      apply (Hnext _ _ Raised); [done|done|].
      unfold same_store. simpl. by rewrite Hc, Hf.
    + destruct (code =? 200)%Z; [destruct items as [|it items]|].
      * apply (Hnext _ _ (Status code [])); [done|done|].
        unfold same_store. simpl. by rewrite Hc, Hf.
      * cbn [fst snd]. split; [done|]. split.
        -- unfold same_store. simpl. by rewrite Hc.
        -- exists [(q, Status code (it :: items))]. done.
      * apply (Hnext _ _ (Status code items)); [done|done|].
        unfold same_store. simpl. by rewrite Hc, Hf.
Qed.

Lemma loop_quiet token : forall alts w1 w2,
  same_store w1 w2 ->
  (alternates_loop http_get alts token w1).1 =
  (alternates_loop (quiet_endpoint http_get) alts token w2).1 /\
  same_store (alternates_loop http_get alts token w1).2
             (alternates_loop (quiet_endpoint http_get) alts token w2).2 /\
  exists issued,
    requests (alternates_loop http_get alts token w1).2 =
      requests w1 ++ issued /\
    requests (alternates_loop (quiet_endpoint http_get) alts token w2).2 =
      requests w2 ++ map (fun x => (x.1, quiet x.2)) issued.
Proof.
  induction alts as [|[a0 t0] alts IH]; intros w1 w2 Hs.
  - simpl. split; [done|]. split; [done|]. exists []. by rewrite !app_nil_r.
  - destruct (decide (Str.strip t0 = [])) as [Ht|Ht].
    { rewrite !loop_cons_skip by done. by apply IH. }
    rewrite !loop_cons_keep by done.
    set (a := Str.strip a0). set (t := Str.strip t0).
    assert ((query_spotify_api http_get a t token w1).1 =
            (query_spotify_api (quiet_endpoint http_get) a t token w2).1 /\
            same_store (query_spotify_api http_get a t token w1).2
              (query_spotify_api (quiet_endpoint http_get) a t token w2).2 /\
            exists issued,
              requests (query_spotify_api http_get a t token w1).2 =
                requests w1 ++ issued /\
              requests (query_spotify_api (quiet_endpoint http_get) a t token w2).2 =
                requests w2 ++ map (fun x => (x.1, quiet x.2)) issued)
      as (Q1 & Q2 & issued0 & Q3 & Q4).
    { pose proof Hs as (Hc & Hf & Hn). unfold query_spotify_api. rewrite Hc.
      destruct (cache w2 !! base_key a t) as [e|].
      - cbn [fst snd]. split; [done|]. split; [done|].
        exists []. simpl. by rewrite !app_nil_r.
      - by apply search_loop_quiet. }
    destruct (query_spotify_api http_get a t token w1) as [r1 w1'].
    destruct (query_spotify_api (quiet_endpoint http_get) a t token w2)
      as [r2 w2'].
    cbn [fst snd] in Q1, Q2, Q3, Q4. subst r2.
    destruct r1 as [m|].
    + cbn [fst snd]. split; [done|]. split; [done|]. by exists issued0.
    + destruct (IH w1' w2' Q2) as (R1 & R2 & issued1 & R3 & R4).
      split; [done|]. split; [done|].
      exists (issued0 ++ issued1).
      rewrite R3, R4, Q3, Q4, map_app, <- !app_assoc. done.
Qed.

End MoreResolver.

(** X3.  One call of [query_spotify_api] stores its answer under its key
    and changes no other entry.  When the key was not in the cache, the
    cache file afterwards holds the whole cache, at least one request
    was sent, and the answer is null exactly when no request that was
    sent had a hit; a request that raised counts as one without a hit,
    so a key whose requests all raised is stored and saved as a null. *)
Theorem X3_query_stores_answer {net_state : Type}
  (http_get : pystr -> pystr -> net_state -> response * net_state)
  (artist track token : pystr) (w : env) :
  let res := query_spotify_api http_get artist track token w in
  cache res.2 !! base_key artist track = Some res.1 /\
  (forall k, k <> base_key artist track -> cache res.2 !! k = cache w !! k) /\
  (cache w !! base_key artist track = None ->
   cache_file res.2 = Some (cache res.2) /\
   exists issued,
     requests res.2 = requests w ++ issued /\ issued <> [] /\
     (Forall no_hit issued <-> res.1 = None) /\
     (Forall (fun x => x.2 = Raised) issued ->
      res.1 = None /\
      default ∅ (cache_file res.2) !! base_key artist track = Some None)).
Proof.
  intros res. unfold res.
  destruct (query_spotify_api http_get artist track token w) as [r w'] eqn:E.
  cbn [fst snd].
  pose proof (query_steps _ _ _ _ _ _ _ E) as [[Hc ->]|(Hn & Hc & Hlen & Hf)].
  - split; [done|]. split; [done|]. intros Hnone. cbn [print cache] in Hnone.
    congruence.
  - split; [by rewrite Hc, lookup_insert_eq|].
    split; [intros k Hk; by rewrite Hc, lookup_insert_ne|].
    intros _. split; [done|].
    rewrite (query_miss _ _ _ _ _ Hn) in E.
    apply search_loop_spec in E as (issued & Hreq & _ & _ & Hr).
    exists issued. split; [done|].
    assert (issued <> []) as Hne.
    { intros ->. rewrite Hreq, app_nil_r in Hlen. lia. }
    split; [done|].
    assert (Forall no_hit issued <-> r = None) as Hiff.
    { destruct r as [m|]; [|by destruct Hr].
      destruct Hr as (pre & q & resp & -> & _ & Htop & _).
      split; [|done]. intros Hall. apply Forall_app in Hall as [_ Hall].
      inversion Hall as [|? ? Hno _]; subst. unfold no_hit in Hno.
      simpl in Hno. congruence. }
    split; [done|]. intros Hall.
    assert (r = None) as ->.
    { apply Hiff. eapply Forall_impl; [exact Hall|].
      intros [q resp] Hx. simpl in Hx. by subst. }
    split; [done|]. by rewrite Hf, Hc; cbn; rewrite lookup_insert_eq.
Qed.

(** X4.  A call of [try_alternate_queries] adds entries to the cache
    under the keys of its own variants only.  Either it sends nothing,
    stores nothing and only prints, or it sends at least one request,
    the cache grows, and the cache file holds the whole cache when it
    returns. *)
Theorem X4_resolver_writes_through {net_state : Type}
  (http_get : pystr -> pystr -> net_state -> response * net_state)
  (artist track token : pystr) (w : env) :
  let res := try_alternate_queries http_get artist track token w in
  (forall k, cache w !! k = None -> is_Some (cache res.2 !! k) ->
     exists a t, (a, t) ∈ live (alternates artist track) /\ k = base_key a t) /\
  ((exists out, res.2 = with_stdout out w) \/
   ((size (cache w) < size (cache res.2))%nat /\
    (length (requests w) < length (requests res.2))%nat /\
    cache_file res.2 = Some (cache res.2))).
Proof.
  intros res. unfold res, try_alternate_queries.
  destruct (alternates_loop http_get (alternates artist track) token w)
    as [r w'] eqn:E.
  cbn [snd]. split.
  - by eapply loop_new_keys.
  - by eapply loop_steps.
Qed.

(** X5.  A request that raises is handled like a response without
    items: with an endpoint that answers [Status 200 []] wherever the
    given one raises, a call returns the same answer, leaves the same
    cache, cache file and network, and sends the same queries; the
    responses differ where the exception was, and so does what is
    printed. *)
Theorem X5_exception_as_no_result {net_state : Type}
  (http_get : pystr -> pystr -> net_state -> response * net_state)
  (artist track token : pystr) (w : env) :
  let res := try_alternate_queries http_get artist track token w in
  let res' :=
    try_alternate_queries (quiet_endpoint http_get) artist track token w in
  res.1 = res'.1 /\ same_store res.2 res'.2 /\
  exists issued,
    requests res.2 = requests w ++ issued /\
    requests res'.2 = requests w ++ map (fun x => (x.1, quiet x.2)) issued.
Proof.
  intros res res'. unfold res, res', try_alternate_queries.
  by apply loop_quiet.
Qed.

(** X6.  For a normalized pair whose artist has no [" feat"] and whose
    track has no ["remastered"], the variants (c), (d) and (e) are the
    pair itself: the call is the loop over the pair and the pair without
    artist, up to what is printed, and it sends at most six requests. *)
Theorem X6_plain_names_two_variants {net_state : Type}
  (http_get : pystr -> pystr -> net_state -> response * net_state)
  (lower : pystr -> pystr) (artist_raw track_raw token : pystr) (w : env) :
  let artist := normalize_string lower artist_raw in
  let track := normalize_string lower track_raw in
  Str.contains (py " feat") artist = false ->
  Str.contains (py "remastered") track = false ->
  let res := try_alternate_queries http_get artist track token w in
  let res' := alternates_loop http_get [(artist, track); ([], track)] token w in
  alternates artist track =
    [(artist, track); ([], track); (artist, track); (artist, track);
     (artist, track)] /\
  res.1 = res'.1 /\ same_io res.2 res'.2 /\
  exists issued,
    requests res.2 = requests w ++ issued /\ (length issued <= 6)%nat.
Proof.
  intros artist track Hfeat Hrem res res'.
  pose proof (NormFacts.normalize_string_normal lower track_raw) as Hn.
  fold track in Hn.
  assert (alternates artist track =
          [(artist, track); ([], track); (artist, track); (artist, track);
           (artist, track)]) as Halts.
  { unfold alternates.
    rewrite (StrMore.split_no_occurrence _ _ Hfeat).
    rewrite (StrMore.replace_no_occurrence _ _ _ Hrem).
    rewrite NormFacts.sub_paren_or_bracket_absent;
      [|by apply (NormFacts.normal_absent 40)
       |by apply (NormFacts.normal_absent 91)].
    by rewrite (NormFacts.normal_strip _ Hn). }
  split; [done|].
  set (A := (artist, track)). set (B := (@nil N, track)).
  assert (res.1 = res'.1 /\ same_io res.2 res'.2) as [E1 E2].
  { unfold res, res', try_alternate_queries. rewrite Halts. fold A B.
    destruct (loop_repeated http_get A token [] [A; B; A; A] w w)
      as [F1 F2]; [apply same_io_refl|left; by left|].
    destruct (loop_repeated http_get A token [] [A; B; A] w w)
      as [G1 G2]; [apply same_io_refl|left; by left|].
    destruct (loop_repeated http_get A token [] [A; B] w w)
      as [H1 H2]; [apply same_io_refl|left; by left|].
    cbn [app] in F1, F2, G1, G2, H1, H2.
    split; [congruence|].
    eapply same_io_trans; [exact F2|]. by eapply same_io_trans. }
  split; [done|]. split; [done|].
  destruct res' as [r' w'] eqn:E. unfold res' in E.
  apply loop_requests in E as (issued & H1 & H2).
  exists issued. destruct E2 as (_ & _ & _ & ->). cbn [snd].
  split; [done|]. simpl in H2. lia.
Qed.

(** X6 on "Let It Be" by The Beatles, with an endpoint that finds
    nothing. *)
Lemma X6_plain_names_two_variants_witness :
  let artist := normalize_string Examples.ascii_lower_str (py "The Beatles") in
  let track := normalize_string Examples.ascii_lower_str (py "Let It Be") in
  let res :=
    try_alternate_queries Examples.never_found artist track (py "token")
      (Examples.start ∅) in
  Str.contains (py " feat") artist = false /\
  Str.contains (py "remastered") track = false /\
  exists issued,
    requests res.2 = [] ++ issued /\ (length issued <= 6)%nat.
Proof.
  split; [reflexivity|]. split; [reflexivity|].
  apply (X6_plain_names_two_variants Examples.never_found
           Examples.ascii_lower_str (py "The Beatles") (py "Let It Be")
           (py "token") (Examples.start ∅)); reflexivity.
Defined.

(** ** What the resolver prints *)

Lemma processing_errors_app o1 o2 :
  processing_errors (o1 ++ o2) =
  (processing_errors o1 + processing_errors o2)%nat.
Proof. unfold processing_errors. by rewrite List.filter_app, length_app. Qed.

Section Printed.

Context {net_state : Type}.
Variable http_get : pystr -> pystr -> net_state -> response * net_state.

Implicit Types (w : @env net_state).

Lemma search_loop_stdout a t token : forall qs i w,
  exists out,
    stdout (search_loop http_get a t token i qs w).2 = stdout w ++ out /\
    processing_errors out = 0%nat.
Proof.
  induction qs as [|q qs IH]; intros i w.
  - simpl. by exists [MsgNotFound a t].
  - cbn [search_loop]. unfold send.
    destruct (http_get token q (net w)) as [resp n].
    destruct resp as [|code items].
    + match goal with
      | |- context [search_loop _ _ _ _ _ _ ?w1] =>
          destruct (IH (S i) w1) as (out & E & Hz)
      end.
      exists (MsgApiError a t (S i) :: out). rewrite E. simpl.
      by rewrite <- app_assoc.
    + destruct (code =? 200)%Z; [destruct items as [|it items]|].
      * match goal with
        | |- context [search_loop _ _ _ _ _ _ ?w1] =>
            destruct (IH (S i) w1) as (out & E & Hz)
        end.
        exists out. by split.
      * by exists [MsgFound a t (S i)].
      * match goal with
        | |- context [search_loop _ _ _ _ _ _ ?w1] =>
            destruct (IH (S i) w1) as (out & E & Hz)
        end.
        exists out. by split.
Qed.

Lemma loop_stdout token : forall alts w,
  exists out,
    stdout (alternates_loop http_get alts token w).2 = stdout w ++ out /\
    processing_errors out = 0%nat.
Proof.
  induction alts as [|[a0 t0] alts IH]; intros w.
  - exists []. simpl. by rewrite app_nil_r.
  - destruct (decide (Str.strip t0 = [])) as [Ht|Ht].
    { rewrite loop_cons_skip by done. apply IH. }
    rewrite loop_cons_keep by done.
    assert (exists out,
              stdout (query_spotify_api http_get (Str.strip a0) (Str.strip t0)
                        token w).2 = stdout w ++ out /\
              processing_errors out = 0%nat) as (out0 & E0 & Hz0).
    { unfold query_spotify_api.
      destruct (cache w !! base_key (Str.strip a0) (Str.strip t0)) as [e|].
      - by exists [MsgCache (Str.strip a0) (Str.strip t0)].
      - apply search_loop_stdout. }
    destruct (query_spotify_api http_get (Str.strip a0) (Str.strip t0) token w)
      as [r0 w1].
    cbn [snd] in E0. destruct r0 as [m|].
    + exists out0. by split.
    + destruct (IH w1) as (out1 & E1 & Hz1). exists (out0 ++ out1).
      rewrite E1, E0, <- app_assoc, processing_errors_app, Hz0, Hz1. done.
Qed.

End Printed.

(** ** The date and the time of a record *)

Module CalendarMore.
Import Datetime Calendar DatetimeFacts.

Local Open Scope Z_scope.

(** The fields of a date of the years 1 to 9999. *)
Lemma civil_fields z :
  -719162 <= z <= 2932896 ->
  exists y m d, civil_from_days z = (y, m, d) /\
                1 <= y <= 9999 /\ 1 <= m <= 12 /\ 1 <= d <= 31.
Proof.
  intros Hz. unfold civil_from_days.
  set (a := z + 719468).
  assert (306 <= a <= 3652364) as Ha by (unfold a; lia).
  clearbody a. clear z Hz.
  set (era := a / 146097).
  assert (0 <= era <= 24) as Hera
    by (unfold era; Z.div_mod_to_equations; lia).
  set (doe := a - era * 146097).
  assert (0 <= doe <= 146096) as Hdoe
    by (unfold doe, era; Z.div_mod_to_equations; lia).
  assert (era = 0 -> 306 <= doe) as Hlow by (unfold doe; lia).
  assert (era = 24 -> doe <= 146036) as Hhigh by (unfold doe; lia).
  clearbody doe era. clear a Ha.
  set (yoe := (doe - doe / 1460 + doe / 36524 - doe / 146096) / 365).
  assert (0 <= yoe <= 399) as Hyoe
    by (unfold yoe; Z.div_mod_to_equations; lia).
  set (doy := doe - (365 * yoe + yoe / 4 - yoe / 100)).
  assert (0 <= doy <= 365) as Hdoy
    by (unfold doy, yoe; Z.div_mod_to_equations; lia).
  assert (era = 0 -> yoe = 0 -> 306 <= doy) as Hlow'
    by (intros; unfold doy; Z.div_mod_to_equations; lia).
  assert (era = 24 -> yoe = 399 -> doy <= 305) as Hhigh'
    by (intros; unfold doy; Z.div_mod_to_equations; lia).
  clearbody doy yoe. clear Hlow Hhigh doe Hdoe.
  set (mp := (5 * doy + 2) / 153).
  assert (0 <= mp <= 11) as Hmp by (unfold mp; Z.div_mod_to_equations; lia).
  assert (1 <= doy - (153 * mp + 2) / 5 + 1 <= 31) as Hd
    by (unfold mp; Z.div_mod_to_equations; lia).
  assert (306 <= doy <-> 10 <= mp) as Hm
    by (unfold mp; Z.div_mod_to_equations; lia).
  clearbody mp. cbv zeta.
  do 3 eexists. split; [reflexivity|].
  destruct (Z.ltb_spec mp 10);
    [destruct (Z.leb_spec (mp + 3) 2)|destruct (Z.leb_spec (mp - 9) 2)]; lia.
Qed.

(** A record with the rendering of [t] and with [t] in milliseconds. *)
Lemma isoformat_stamped t iso r :
  utcfromtimestamp_isoformat t = Ok iso ->
  ts r = iso ++ py "Z" -> offline_timestamp r = t * 1000 ->
  stamped t r.
Proof.
  unfold utcfromtimestamp_isoformat. intros H Hts Hoff.
  destruct (_ && _) eqn:Hrange; [|done].
  apply andb_true_iff in Hrange as [H1%Z.leb_le H2%Z.leb_le].
  destruct (civil_fields (t / 86400)) as (y & m & d & Hc & Hy & Hm & Hd).
  { unfold min_timestamp, max_timestamp in *. Z.div_mod_to_equations. lia. }
  rewrite Hc in H. injection H as <-.
  assert (0 <= t mod 86400 / 3600 < 24 /\ 0 <= t mod 86400 mod 3600 / 60 < 60 /\
          0 <= t mod 86400 mod 60 < 60 /\
          t = t / 86400 * 86400 + t mod 86400 / 3600 * 3600
              + t mod 86400 mod 3600 / 60 * 60 + t mod 86400 mod 60)
    as (Hh & Hmi & Hs & Ht) by (Z.div_mod_to_equations; lia).
  unfold stamped, ts_field. rewrite Hts.
  change (py "-") with [45%N]. change (py "T") with [84%N].
  change (py ":") with [58%N]. change (py "Z") with [90%N].
  pose proof (four_digits_value y ltac:(lia)) as Ey.
  pose proof (two_digits_value m ltac:(lia)) as Em.
  pose proof (two_digits_value d ltac:(lia)) as Ed.
  pose proof (two_digits_value (t mod 86400 / 3600) ltac:(lia)) as Eh.
  pose proof (two_digits_value (t mod 86400 mod 3600 / 60) ltac:(lia)) as Emi.
  pose proof (two_digits_value (t mod 86400 mod 60) ltac:(lia)) as Es.
  unfold four_digits, two_digits in *.
  cbn [app take drop length lookup list_lookup].
  rewrite Ey, Em, Ed, Eh, Emi, Es.
  repeat split; try done; lia.
Qed.

End CalendarMore.

(** ** The run over the files *)

Section Run.

Variable lower : pystr -> pystr.
Variable json_loads : pystr -> option json.
Context {net_state : Type}.
Variable http_get : pystr -> pystr -> net_state -> response * net_state.
Variables username country_code : pystr.

Implicit Types (st : @state net_state) (w : @env net_state) (token : pystr).

Abbreviation body token line :=
  (process_line lower json_loads http_get username country_code token line).
Abbreviation handle token line :=
  (handle_line lower json_loads http_get username country_code token line).
Abbreviation after_resolve token :=
  (Outcome.after_resolve lower http_get username country_code token).
Abbreviation decides := (Outcome.decides json_loads username country_code).
Abbreviation run_body token :=
  (Outcome.run_body lower http_get username country_code token).
Abbreviation finish token :=
  (Outcome.finish lower http_get username country_code token).
Abbreviation handle_all token :=
  (Outcome.handle_all lower json_loads http_get username country_code token).
Abbreviation run files token w :=
  (convert_with_spotify_api lower json_loads http_get files username
     country_code token w).
Abbreviation resolve token f st :=
  (try_alternate_queries http_get (normalize_string lower (f_artist_raw f))
     (normalize_string lower (f_track_raw f)) token (world st)).

Ltac run_line :=
  unfold process_line;
  repeat first
    [ rewrite bind_eval
    | progress cbn beta iota
    | progress cbn [from_option]
    | match goal with
      | H : ?x = _ |- context [?x] => rewrite H
      end ].

Ltac record_fields :=
  cbn [world output_data unknowns processed_count skipped_spotify
       cache cache_file net requests stdout print with_stdout load_cache].

(** What the loop body does with a line does not depend on the token or
    on the state. *)
Lemma process_line_decision_any line :
  exists d, decides line d /\
            forall token st, body token line st = run_body token d st.
Proof.
  destruct (json_loads line) as [entry|] eqn:Hload.
  2:{ exists (Fails JSONDecodeError). split; [done|]. intros token st. by run_line. }
  destruct (Py.getitem entry (py "track_metadata")) as [meta|e] eqn:Hmeta.
  2:{ exists (Fails e). split; [done|]. intros token st. by run_line. }
  destruct (Py.get meta (py "additional_info") (JObj [])) as [info|e] eqn:Hinfo.
  2:{ exists (Fails e). split; [done|]. intros token st. by run_line. }
  destruct (Py.get info (py "music_service") JNull) as [ms|e] eqn:Hms.
  2:{ exists (Fails e). split; [done|]. intros token st. by run_line. }
  destruct (get_Ok_obj _ _ _ _ Hms) as [items ->].
  pose proof Hms as Hms'. rewrite get_obj in Hms'. injection Hms' as <-.
  fold (music_service_of items) in Hms.
  destruct (Py.eq_str (music_service_of items) (py "spotify.com")) eqn:Hsp.
  { exists Skip. split; [by exists entry, meta, items|]. intros token st.
    by run_line. }
  destruct (Py.getitem entry (py "listened_at")) as [la|e] eqn:Hla.
  2:{ exists (Fails e). split; [done|]. intros token st. by run_line. }
  destruct (Datetime.as_timestamp la) as [t|e] eqn:Ht.
  2:{ exists (Fails e). split; [done|]. intros token st. by run_line. }
  destruct (Datetime.utcfromtimestamp_isoformat t) as [iso|e] eqn:Hiso.
  2:{ exists (Fails e). split; [done|]. intros token st. by run_line. }
  destruct (Py.get meta (py "artist_name") (JStr []) ≫= Py.strip)
    as [artist_raw|e] eqn:Hartist.
  2:{ exists (Fails e). split; [done|]. intros token st. by run_line. }
  destruct (Py.get meta (py "track_name") (JStr []) ≫= Py.strip)
    as [track_raw|e] eqn:Htrack.
  2:{ exists (Fails e). split; [done|]. intros token st. by run_line. }
  destruct (Py.get meta (py "release_name") (JStr []) ≫= Py.strip)
    as [album_raw|e] eqn:Halbum.
  2:{ exists (Fails e). split; [done|]. intros token st. by run_line. }
  pose proof (get_obj items (py "spotify_id") JNull) as Hsid.
  set (sid := default JNull (Py.assoc (py "spotify_id") items)) in Hsid.
  set (f := {| f_meta := meta; f_info := items; f_listened_at := t;
               f_iso := iso; f_artist_raw := artist_raw;
               f_track_raw := track_raw; f_album_raw := album_raw;
               f_spotify_id := sid |}).
  assert (reads entry f) as Hreads.
  { unfold reads, f.
    cbn [f_meta f_info f_listened_at f_iso f_artist_raw f_track_raw
         f_album_raw f_spotify_id].
    rewrite Hla, result_bind_Ok. done. }
  destruct (has_track_reference sid) as [[|]|e] eqn:Href.
  - destruct (convert_lb_entry_to_spotify_format entry username country_code)
      as [r|e] eqn:Hconv.
    + exists (Direct r). split; [by exists entry, f|]. intros token st.
      unfold has_track_reference in Href. by run_line.
    + exists (Fails e). split; [done|]. intros token st.
      unfold has_track_reference in Href. by run_line.
  - exists (Resolve f). split; [by exists entry|]. intros token st.
    unfold has_track_reference in Href. run_line.
    apply (resolve_body lower http_get username country_code token f st).
  - exists (Fails e). split; [done|]. intros token st.
    unfold has_track_reference in Href. by run_line.
Qed.

Lemma handle_decided line :
  exists d, decides line d /\
            forall token st, handle token line st = finish token d st.
Proof.
  destruct (process_line_decision_any line) as (d & Hd & Hrun).
  exists d. split; [done|]. intros token st.
  apply (handle_line_finish lower json_loads http_get username country_code
           token line d st).
  intros st'. apply Hrun.
Qed.

(** An invariant of the loop body is an invariant of the run. *)
Lemma handle_all_invariant (P : state -> Prop) token :
  (forall line d st, decides line d -> P st -> P (finish token d st)) ->
  forall lines st, P st -> P (handle_all token lines st).
Proof.
  intros Hstep. induction lines as [|line lines IH]; intros st H; [done|].
  unfold Outcome.handle_all. cbn [fold_left]. apply IH.
  destruct (handle_decided line) as (d & Hd & ->). by apply (Hstep line).
Qed.

Lemma handle_all_cons token line lines st :
  handle_all token (line :: lines) st =
  handle_all token lines (handle token line st).
Proof. done. Qed.

(** The state after the resolver was asked, spelled out. *)
Lemma after_resolve_spec token f st :
  exists r w1 out,
    resolve token f st = (r, w1) /\
    processing_errors out = 0%nat /\
    after_resolve token f st =
    {| world := with_stdout out w1;
       output_data := output_data st ++
         [output_of username country_code (f_iso f ++ py "Z") (f_track_raw f)
            (f_artist_raw f)
            (match r with
             | Some m => Match.album_name m
             | None => f_album_raw f
             end)
            (Match.spotify_track_uri <$> r) (duration_of f) (f_listened_at f)];
       unknowns :=
         match r with
         | Some _ => unknowns st
         | None =>
             {[ f_artist_raw f ++ [32; 8211; 32] ++ f_track_raw f ]} ∪ unknowns st
         end;
       processed_count := processed_count st + 1;
       skipped_spotify := skipped_spotify st |}.
Proof.
  unfold Outcome.after_resolve.
  destruct (resolve token f st) as [r w1]. exists r, w1.
  destruct ((processed_count st + 1) mod 100 =? 0)%Z.
  - by exists [MsgProcessed (processed_count st + 1)].
  - exists []. by rewrite with_stdout_nil.
Qed.

(** The names of an event that was read are stripped. *)
Lemma get_strip_stripped j k d a :
  Py.get j k d ≫= Py.strip = Ok a -> Str.strip a = a.
Proof.
  intros H. apply result_bind_inv in H as (v & _ & H).
  destruct v; try done. injection H as <-. apply StrMore.strip_strip.
Qed.

Lemma reads_stripped entry f :
  reads entry f ->
  Str.strip (f_artist_raw f) = f_artist_raw f /\
  Str.strip (f_track_raw f) = f_track_raw f.
Proof.
  intros (_ & _ & _ & _ & Ha & Ht & _).
  split; by eapply get_strip_stripped.
Qed.

(** The record of the fast path. *)
Lemma direct_record line r :
  decides line (Direct r) ->
  exists entry f sid,
    json_loads line = Some entry /\ reads entry f /\
    f_spotify_id f = JStr sid /\
    Str.contains (py "open.spotify.com/track/") sid = true /\
    r = output_of username country_code (f_iso f ++ py "Z") (f_track_raw f)
          (f_artist_raw f) (f_album_raw f)
          (Some (py "spotify:track:" ++ List.last (Str.split (py "/") sid) []))
          (duration_of f) (f_listened_at f).
Proof.
  intros (entry & f & Hload & Hreads & _ & Href & Hconv).
  rewrite (convert_reads username country_code entry f Hreads), Href in Hconv.
  rewrite result_bind_Ok in Hconv.
  destruct (f_spotify_id f) as [| | |sid| |] eqn:Hsid; try done.
  cbn [Py.split_last] in Hconv. rewrite !result_bind_Ok in Hconv.
  injection Hconv as <-.
  exists entry, f, sid. do 3 (split; [done|]). split; [|done].
  unfold has_track_reference in Href. destruct (Py.truthy (JStr sid)); [|done].
  cbn [Py.contains] in Href. by injection Href.
Qed.

(** *** Counting *)

Lemma finish_counts token d st :
  let st' := finish token d st in
  (processed_count st' - Z.of_nat (length (output_data st')) =
   processed_count st - Z.of_nat (length (output_data st)))%Z /\
  (processed_count st' + skipped_spotify st'
   + Z.of_nat (processing_errors (stdout (world st'))) =
   processed_count st + skipped_spotify st
   + Z.of_nat (processing_errors (stdout (world st))) + 1)%Z /\
  (length (requests (world st')) + 15 * length (output_data st) <=
   length (requests (world st)) + 15 * length (output_data st'))%nat.
Proof.
  destruct d as [e| |r|f]; cbn [Outcome.finish]; cbv zeta.
  - unfold after_error, set_world. record_fields.
    rewrite processing_errors_app. cbn. lia.
  - unfold after_skip. record_fields. lia.
  - unfold after_direct. record_fields.
    rewrite processing_errors_app, length_app. cbn. lia.
  - destruct (after_resolve_spec token f st) as (r & w1 & out & Hq & Hout & ->).
    record_fields. rewrite length_app, processing_errors_app, Hout.
    unfold try_alternate_queries in Hq.
    destruct (loop_stdout http_get token
                (alternates (normalize_string lower (f_artist_raw f))
                   (normalize_string lower (f_track_raw f))) (world st))
      as (out1 & E1 & Hz1).
    rewrite Hq in E1. cbn [snd] in E1.
    rewrite E1, processing_errors_app, Hz1.
    apply loop_requests in Hq as (issued & -> & Hlen).
    rewrite length_app. cbn in Hlen. cbn [length]. lia.
Qed.

Lemma handle_all_counts token : forall lines st,
  let st' := handle_all token lines st in
  (processed_count st' - Z.of_nat (length (output_data st')) =
   processed_count st - Z.of_nat (length (output_data st)))%Z /\
  (processed_count st' + skipped_spotify st'
   + Z.of_nat (processing_errors (stdout (world st'))) =
   processed_count st + skipped_spotify st
   + Z.of_nat (processing_errors (stdout (world st)))
   + Z.of_nat (length lines))%Z /\
  (length (requests (world st')) + 15 * length (output_data st) <=
   length (requests (world st)) + 15 * length (output_data st'))%nat.
Proof.
  induction lines as [|line lines IH]; intros st; cbv zeta.
  - unfold Outcome.handle_all. cbn. lia.
  - unfold Outcome.handle_all. cbn [fold_left].
    destruct (handle_decided line) as (d & _ & ->).
    fold (handle_all token lines (finish token d st)).
    pose proof (IH (finish token d st)) as (H1 & H2 & H3).
    pose proof (finish_counts token d st) as (G1 & G2 & G3).
    cbv zeta in *. cbn [length]. lia.
Qed.

(** *** Nothing is taken back *)

Lemma grows_refl st : grows st st.
Proof. unfold grows. repeat split; try done; lia. Qed.

Lemma grows_trans st1 st2 st3 : grows st1 st2 -> grows st2 st3 -> grows st1 st3.
Proof.
  intros (A1 & A2 & A3 & A4 & A5 & A6 & A7) (B1 & B2 & B3 & B4 & B5 & B6 & B7).
  unfold grows. repeat split; try (by etrans); lia.
Qed.

Lemma finish_grows token d st : grows st (finish token d st).
Proof.
  destruct d as [e| |r|f]; cbn [Outcome.finish].
  - unfold grows, after_error, set_world. record_fields.
    repeat split; try done; try lia. by apply prefix_app_r.
  - unfold grows, after_skip. record_fields. repeat split; try done; lia.
  - unfold grows, after_direct. record_fields.
    repeat split; try done; try lia; by apply prefix_app_r.
  - destruct (after_resolve_spec token f st) as (r & w1 & out & Hq & Hout & ->).
    unfold try_alternate_queries in Hq.
    destruct (loop_stdout http_get token
                (alternates (normalize_string lower (f_artist_raw f))
                   (normalize_string lower (f_track_raw f))) (world st))
      as (out1 & E1 & Hz1).
    rewrite Hq in E1. cbn [snd] in E1.
    pose proof (loop_cache _ _ _ _ _ _ Hq) as (Hsub & _).
    apply loop_requests in Hq as (issued & Hreq & _).
    unfold grows. record_fields. rewrite Hreq, E1.
    repeat split; try done; try lia.
    + by apply prefix_app_r.
    + destruct r; [done|]. apply union_subseteq_r.
    + by apply prefix_app_r.
    + rewrite <- app_assoc. by apply prefix_app_r.
Qed.

Lemma handle_all_grows token : forall lines st,
  grows st (handle_all token lines st).
Proof.
  induction lines as [|line lines IH]; intros st; [apply grows_refl|].
  unfold Outcome.handle_all. cbn [fold_left].
  destruct (handle_decided line) as (d & _ & ->).
  eapply grows_trans; [apply (finish_grows token d)|apply IH].
Qed.

(** *** Asking again *)

Lemma finish_replay token token' d st1 st2 :
  same_results st1 st2 ->
  cache (world (finish token d st1)) ⊆ cache (world st2) ->
  same_results (finish token d st1) (finish token' d st2) /\
  exists out, world (finish token' d st2) = with_stdout out (world st2).
Proof.
  intros (Ho & Hu & Hp & Hs) Hsub.
  destruct d as [e| |r|f]; cbn [Outcome.finish] in *.
  - split; [by repeat split|]. by exists [MsgProcessingError e].
  - split.
    + unfold same_results, after_skip. cbn. repeat split; congruence.
    + exists []. by rewrite with_stdout_nil.
  - split.
    + unfold same_results, after_direct. cbn. repeat split; congruence.
    + by eexists [_].
  - destruct (after_resolve_spec token f st1) as (r & w1 & out & Hq & Hout & E).
    rewrite E in Hsub |- *. cbn [world with_stdout cache] in Hsub.
    destruct (after_resolve_spec token' f st2)
      as (r2 & w2 & out2 & Hq2 & Hout2 & ->).
    unfold try_alternate_queries in Hq, Hq2.
    destruct (loop_replay http_get token token' _ _ _ _ Hq (world st2) Hsub)
      as [out' Hrep].
    rewrite Hrep in Hq2. injection Hq2 as <- <-.
    split.
    + unfold same_results. record_fields. by rewrite Ho, Hu, Hp, Hs.
    + cbn [world]. rewrite with_stdout_app. by eexists.
Qed.

Lemma handle_all_replay token token' : forall lines st1 st2,
  same_results st1 st2 ->
  cache (world (handle_all token lines st1)) ⊆ cache (world st2) ->
  same_results (handle_all token lines st1) (handle_all token' lines st2) /\
  exists out, world (handle_all token' lines st2) = with_stdout out (world st2).
Proof.
  induction lines as [|line lines IH]; intros st1 st2 Hres Hsub.
  - split; [done|]. exists []. by rewrite with_stdout_nil.
  - rewrite handle_all_cons in Hsub |- *. rewrite (handle_all_cons token').
    destruct (handle_decided line) as (d & _ & Hd). rewrite !Hd in *.
    pose proof (handle_all_grows token lines (finish token d st1))
      as (_ & _ & _ & _ & Hg & _).
    destruct (finish_replay token token' d st1 st2 Hres) as [Hres' [out Hw]];
      [by etrans|].
    destruct (IH (finish token d st1) (finish token' d st2) Hres')
      as [Hfin [out' Hw']].
    { rewrite Hw. cbn [with_stdout cache]. done. }
    split; [done|]. rewrite Hw', Hw, with_stdout_app. by eexists.
Qed.

(** X7.  [processed_count] is the number of records.  Every record
    and every listen passed over as one from Spotify comes from a line
    of its own, and every line that was read gave a record, or was
    passed over, or had an error printed.  The run sends at most fifteen
    requests for each record. *)
Theorem X7_every_line_accounted files token w :
  let st := run files token w in
  let lines := Z.of_nat (length (concat files)) in
  let records := Z.of_nat (length (output_data st)) in
  let errors :=
    (Z.of_nat (processing_errors (stdout (world st)))
     - Z.of_nat (processing_errors (stdout w)))%Z in
  processed_count st = records /\
  (0 <= skipped_spotify st)%Z /\
  (records + skipped_spotify st <= lines)%Z /\
  (lines <= records + skipped_spotify st + errors)%Z /\
  (length (requests (world st)) <=
   length (requests w) + 15 * length (output_data st))%nat.
Proof.
  intros st lines records errors. unfold lines, records, errors, st.
  rewrite convert_handle_all.
  match goal with
  | |- context [Outcome.handle_all _ _ _ _ _ _ ?lines ?st0] =>
      pose proof (handle_all_counts token lines st0) as (H1 & H2 & H3);
      pose proof (handle_all_grows token lines st0) as (_ & _ & _ & H4 & _ & _ & H5)
  end.
  cbv zeta in H1, H2, H3.
  cbn [world output_data processed_count skipped_spotify requests stdout
       load_cache length] in H1, H2, H3, H4, H5 |- *.
  destruct H5 as [out H5]. rewrite H5, processing_errors_app in H2 |- *.
  lia.
Qed.

(** X8.  Nothing is taken back: the run over more files begins with
    the records of the run over the files before them, and keeps the
    unknowns, the counts, the cached entries, the requests and the
    output of that run.  The entries of the cache file read at the start
    are all in the cache at the end. *)
Theorem X8_earlier_results_kept files more token w :
  grows (run files token w) (run (files ++ more) token w) /\
  default ∅ (cache_file w) ⊆ cache (world (run files token w)).
Proof.
  rewrite !convert_handle_all, concat_app, handle_all_app. split.
  - apply handle_all_grows.
  - match goal with
    | |- context [Outcome.handle_all _ _ _ _ _ _ ?lines ?st0] =>
        pose proof (handle_all_grows token lines st0) as (_ & _ & _ & _ & H & _)
    end.
    exact H.
Qed.

(** X9.  Every unknown is the line of a record without a track: a
    line of [unknowns] is the artist, [" – "] and the track of some record
    of the output that has no [spotify_track_uri]. *)
Theorem X9_unknowns_are_unresolved_records files token w s :
  let st := run files token w in
  s ∈ unknowns st ->
  exists r, r ∈ output_data st /\ spotify_track_uri r = None /\
            unknown_line r = s.
Proof.
  intros st. unfold st. rewrite convert_handle_all. revert s.
  apply (handle_all_invariant
           (fun st => forall s, s ∈ unknowns st ->
              exists r, r ∈ output_data st /\ spotify_track_uri r = None /\
                        unknown_line r = s)).
  - intros line d st0 Hd IH s.
    destruct d as [e| |r|f]; cbn [Outcome.finish].
    + apply IH.
    + apply IH.
    + cbn [after_direct unknowns output_data]. intros Hs.
      destruct (IH s Hs) as (r0 & Hin & Hr). exists r0. split; [|done].
      apply elem_of_app. by left.
    + destruct (after_resolve_spec token f st0) as (r & w1 & out & _ & _ & ->).
      cbn [unknowns output_data]. intros Hs.
      assert (s ∈ unknowns st0 \/
              (r = None /\ s = f_artist_raw f ++ [32; 8211; 32] ++ f_track_raw f))
        as [Hold|[-> ->]].
      { destruct r as [m|]; [by left|].
        apply elem_of_union in Hs as [Hs|Hs]; [|by left].
        apply elem_of_singleton in Hs. by right. }
      * destruct (IH s Hold) as (r0 & Hin & Hr). exists r0. split; [|done].
        apply elem_of_app. by left.
      * eexists. split; [apply elem_of_app; right; by left|]. done.
  - by intros s ?%elem_of_empty.
Qed.

Lemma run_synced files token w : synced (world (run files token w)).
Proof.
  rewrite convert_handle_all.
  apply (handle_all_invariant (fun st => synced (world st))); [|done].
  intros line d st0 _ IH. destruct d as [e| |r|f]; cbn [Outcome.finish]; try done.
  destruct (after_resolve_spec token f st0) as (r & w1 & out & Hq & _ & ->).
  unfold try_alternate_queries in Hq.
  apply loop_cache in Hq as (_ & Hs & _). by apply Hs.
Qed.

(** X10.  After every line the cache file holds what the cache holds:
    at the end of a run over any files, reading the file back gives the
    cache in memory. *)
Theorem X10_cache_file_current files token w :
  let st :=
    convert_with_spotify_api lower json_loads http_get files username
      country_code token w in
  synced (world st) /\
  default ∅ (cache_file (world st)) = cache (world st).
Proof. split; apply run_synced. Qed.

(** X11.  Every record of the output carries the configured user name
    and country, the platform and the start reason of the importer, and
    no address, user agent, episode or end reason; its track and artist
    names have no whitespace at either end. *)
Theorem X11_records_of_the_importer files token w :
  Forall (imported_record username country_code)
    (output_data (run files token w)).
Proof.
  rewrite convert_handle_all.
  apply (handle_all_invariant
           (fun st => Forall (imported_record username country_code)
                        (output_data st))); [|done].
  intros line d st0 Hd IH. destruct d as [e| |r|f]; cbn [Outcome.finish]; try done.
  - apply direct_record in Hd as (entry & f & sid & _ & Hreads & _ & _ & ->).
    apply reads_stripped in Hreads as [Ha Ht].
    cbn [after_direct output_data]. apply Forall_app. split; [done|].
    constructor; [|done]. by repeat split.
  - destruct Hd as (entry & _ & Hreads & _).
    apply reads_stripped in Hreads as [Ha Ht].
    destruct (after_resolve_spec token f st0) as (r & w1 & out & _ & _ & ->).
    cbn [output_data]. apply Forall_app. split; [done|].
    constructor; [|done]. by repeat split.
Qed.

(** X12.  A run over the same files that starts from the cache file an
    earlier run left, with whatever token, sends no request: it gives
    the same records, unknowns and counts, and leaves the cache, the
    cache file and the network as it found them. *)
Theorem X12_second_run_from_cache files token token' w w2 :
  let first := run files token w in
  cache_file w2 = cache_file (world first) ->
  let second := run files token' w2 in
  same_results first second /\
  requests (world second) = requests w2 /\
  net (world second) = net w2 /\
  cache_file (world second) = cache_file w2 /\
  cache (world second) = cache (world first).
Proof.
  intros first Hfile second.
  pose proof (run_synced files token w) as Hsync. unfold synced in Hsync.
  unfold first, second in *. rewrite !convert_handle_all in *.
  match goal with
  | |- context [Outcome.handle_all _ _ _ _ _ token ?lines ?st0] =>
      set (st1 := st0) in *; set (ls := lines) in *
  end.
  destruct (handle_all_replay token token' ls st1
              {| world := load_cache w2; output_data := []; unknowns := ∅;
                 processed_count := 0; skipped_spotify := 0 |})
    as [Hres [out Hw]]; [done| |].
  { cbn [world load_cache cache]. rewrite Hfile.
    fold (handle_all token ls st1). by rewrite Hsync. }
  split; [done|]. fold (handle_all token' ls
    {| world := load_cache w2; output_data := []; unknowns := ∅;
       processed_count := 0; skipped_spotify := 0 |}).
  rewrite Hw. cbn. split; [done|]. split; [done|]. split; [done|].
  rewrite Hfile. fold (handle_all token ls st1). by rewrite Hsync.
Qed.

(** The event of a line is the one [json.loads] gives. *)
Lemma decides_listened_at line d entry t :
  decides line d -> json_loads line = Some entry ->
  Py.getitem entry (py "listened_at") = Ok (JInt t) ->
  match d with
  | Direct r =>
      exists f, reads entry f /\ f_listened_at f = t /\
                ts r = f_iso f ++ py "Z" /\
                offline_timestamp r = (f_listened_at f * 1000)%Z
  | Resolve f => reads entry f /\ f_listened_at f = t
  | _ => True
  end.
Proof.
  intros Hd Hload Hla. destruct d as [e| |r|f]; try done.
  - apply direct_record in Hd as (entry' & f & sid & Hload' & Hreads & _ & _ & ->).
    rewrite Hload in Hload'. injection Hload' as <-.
    exists f. split; [done|]. split; [|done].
    destruct Hreads as (_ & _ & Ht & _). rewrite Hla in Ht.
    cbn in Ht. by injection Ht.
  - destruct Hd as (entry' & Hload' & Hreads & _).
    rewrite Hload in Hload'. injection Hload' as <-. split; [done|].
    destruct Hreads as (_ & _ & Ht & _). rewrite Hla in Ht.
    cbn in Ht. by injection Ht.
Qed.

(** X19.  The record of an event whose [listened_at] is the integer [t]
    is stamped with that second: [t] lies between the years 1 and 9999,
    [offline_timestamp] is [t] in milliseconds, and [ts] is the twenty
    characters [YYYY-MM-DDTHH:MM:SSZ] whose digits read back as the date
    of the day [t / 86400], with the month in 1..12 and the day in
    1..31, and as the hour, minute and second that, with that day, give
    [t] back. *)
Theorem X19_records_are_stamped token line entry t st r :
  json_loads line = Some entry ->
  Py.getitem entry (py "listened_at") = Ok (JInt t) ->
  output_data (handle token line st) = output_data st ++ [r] ->
  stamped t r.
Proof.
  intros Hload Hla Hout.
  destruct (handle_decided line) as (d & Hd & Hfin). rewrite Hfin in Hout.
  pose proof (decides_listened_at line d entry t Hd Hload Hla) as Hev.
  destruct d as [e| |r0|f]; cbn [Outcome.finish] in Hout.
  - by apply not_app_one in Hout.
  - by apply not_app_one in Hout.
  - cbn [after_direct output_data] in Hout.
    apply app_inv_head in Hout. injection Hout as ->.
    destruct Hev as (f & Hreads & <- & Hts & Hoff).
    destruct Hreads as (_ & _ & _ & Hiso & _).
    by eapply CalendarMore.isoformat_stamped.
  - destruct Hev as [Hreads <-].
    destruct Hreads as (_ & _ & _ & Hiso & _).
    destruct (after_resolve_spec token f st) as (m & w1 & out & _ & _ & E).
    rewrite E in Hout. cbn [output_data] in Hout.
    apply app_inv_head in Hout. injection Hout as <-.
    by eapply CalendarMore.isoformat_stamped.
Qed.

(** X20.  A line that is not JSON, and a line whose event has no
    [track_metadata] (or is not an object), are contained: the handler
    prints the error and nothing else changes, and the run over the
    files ends as the run over the same files without that line, up to
    what was printed. *)
Theorem X20_unreadable_line_contained token line :
  let contained e :=
    (forall st, handle token line st = after_error e st) /\
    (forall files1 before after files2 w,
       same_state
         (run (files1 ++ (before ++ line :: after) :: files2) token w)
         (run (files1 ++ (before ++ after) :: files2) token w)) in
  (json_loads line = None -> contained JSONDecodeError) /\
  (forall entry e,
     json_loads line = Some entry ->
     Py.getitem entry (py "track_metadata") = Raise e -> contained e).
Proof.
  intros contained. unfold contained. split.
  - intros Hload.
    apply (raise_contained lower json_loads http_get username country_code
             token line JSONDecodeError).
    intros st0. unfold process_line. rewrite Hload. cbn [from_option].
    by rewrite bind_eval.
  - intros entry e Hload Hmeta.
    apply (raise_contained lower json_loads http_get username country_code
             token line e).
    intros st0. unfold process_line. rewrite Hload. cbn [from_option].
    by rewrite !bind_eval, Hmeta.
Qed.

(** A line whose event is read and goes to the resolver. *)
Lemma resolve_line line entry f :
  json_loads line = Some entry -> reads entry f ->
  Py.eq_str (music_service_of (f_info f)) (py "spotify.com") = false ->
  has_track_reference (f_spotify_id f) = Ok false ->
  forall token st, handle token line st = after_resolve token f st.
Proof.
  intros Hload Hreads Hsp Href token st.
  destruct Hreads as (Hm & Hi & Hla & Hiso & Ha & Ht & Hal & Hs).
  apply result_bind_inv in Hla as (la & Hla & Hts).
  pose proof (get_obj (f_info f) (py "music_service") JNull) as Hms.
  fold (music_service_of (f_info f)) in Hms.
  unfold has_track_reference in Href.
  unfold handle_line.
  assert (body token line st = (Ok tt, after_resolve token f st)) as ->;
    [|done].
  run_line.
  apply (resolve_body lower http_get username country_code token f st).
Qed.

(** X18.  A song is looked up once in a run: when a line went to the
    resolver, a later line of the run with the same normalized artist
    and track, under whatever spelling, sends no request and changes
    neither the cache nor the cache file, and its record has the
    [spotify_track_uri] of the record of the first. *)
Theorem X18_same_song_looked_up_once token line1 line2 entry1 entry2 f1 f2
    middle st :
  json_loads line1 = Some entry1 -> reads entry1 f1 ->
  Py.eq_str (music_service_of (f_info f1)) (py "spotify.com") = false ->
  has_track_reference (f_spotify_id f1) = Ok false ->
  json_loads line2 = Some entry2 -> reads entry2 f2 ->
  Py.eq_str (music_service_of (f_info f2)) (py "spotify.com") = false ->
  has_track_reference (f_spotify_id f2) = Ok false ->
  normalize_string lower (f_artist_raw f1) =
    normalize_string lower (f_artist_raw f2) ->
  normalize_string lower (f_track_raw f1) =
    normalize_string lower (f_track_raw f2) ->
  let before := handle_all token (line1 :: middle) st in
  let after := handle token line2 before in
  requests (world after) = requests (world before) /\
  cache (world after) = cache (world before) /\
  cache_file (world after) = cache_file (world before) /\
  exists r1 r2,
    output_data (handle token line1 st) = output_data st ++ [r1] /\
    output_data after = output_data before ++ [r2] /\
    spotify_track_uri r2 = spotify_track_uri r1.
Proof.
  intros Hl1 Hr1 Hs1 Ht1 Hl2 Hr2 Hs2 Ht2 Hna Hnt before after.
  unfold after, before. rewrite handle_all_cons.
  rewrite (resolve_line line1 entry1 f1 Hl1 Hr1 Hs1 Ht1).
  rewrite (resolve_line line2 entry2 f2 Hl2 Hr2 Hs2 Ht2).
  pose proof (handle_all_grows token middle (after_resolve token f1 st))
    as (_ & _ & _ & _ & Hg & _).
  set (st2 := handle_all token middle (after_resolve token f1 st)) in *.
  destruct (after_resolve_spec token f1 st) as (r & w1 & out & Hq & _ & E1).
  rewrite E1 in Hg |- *. cbn [world with_stdout cache] in Hg.
  destruct (after_resolve_spec token f2 st2) as (r2 & w2 & out2 & Hq2 & _ & ->).
  rewrite <- Hna, <- Hnt in Hq2. unfold try_alternate_queries in Hq, Hq2.
  destruct (loop_replay http_get token token _ _ _ _ Hq (world st2) Hg)
    as [out' Hrep].
  rewrite Hrep in Hq2. injection Hq2 as <- <-.
  record_fields. do 3 (split; [done|]).
  by eexists _, _.
Qed.

End Run.

(** X9 on a listen that the endpoint does not find. *)
Lemma X9_unknowns_are_unresolved_records_witness :
  let st :=
    convert_with_spotify_api Examples.ascii_lower_str Examples.loads
      Examples.never_found [[py "let it be"]] (py "me") (py "XX")
      (py "token") (Examples.start ∅) in
  let s := py "The Beatles" ++ [32; 8211; 32] ++ py "Let It Be" in
  s ∈ unknowns st /\
  exists r, r ∈ output_data st /\ spotify_track_uri r = None /\
            unknown_line r = s.
Proof.
  intros st s.
  assert (s ∈ unknowns st) as H by (vm_compute; reflexivity).
  split; [exact H|].
  exact (X9_unknowns_are_unresolved_records Examples.ascii_lower_str
           Examples.loads Examples.never_found (py "me") (py "XX")
           [[py "let it be"]] (py "token") (Examples.start ∅) s H).
Defined.

(** X19 on the event of the end-to-end example. *)
Lemma X19_records_are_stamped_witness :
  stamped 1700000000
    (output_of (py "me") (py "XX") (py "2023-11-14T22:13:20Z") (py "Let It Be")
       (py "The Beatles") (py "Let It Be") (Some (py "spotify:track:abc123"))
       (JInt 243000) 1700000000).
Proof.
  apply (X19_records_are_stamped Examples.ascii_lower_str Examples.loads
           Examples.beatles_only (py "me") (py "XX") (py "token")
           (py "let it be") Examples.let_it_be 1700000000
           (Examples.fresh (Examples.start ∅))).
  - reflexivity.
  - reflexivity.
  - by vm_compute.
Defined.

(** X18 on two listens of "Let It Be", with a line that is not JSON
    between them. *)
Lemma X18_same_song_looked_up_once_witness :
  let before :=
    Outcome.handle_all Examples.ascii_lower_str Examples.loads
      Examples.beatles_only (py "me") (py "XX") (py "token")
      [py "let it be"; py "{"] (Examples.fresh (Examples.start ∅)) in
  let after :=
    handle_line Examples.ascii_lower_str Examples.loads Examples.beatles_only
      (py "me") (py "XX") (py "token") (py "let it be") before in
  requests (world after) = requests (world before) /\
  cache (world after) = cache (world before) /\
  cache_file (world after) = cache_file (world before) /\
  exists r1 r2,
    output_data
      (handle_line Examples.ascii_lower_str Examples.loads
         Examples.beatles_only (py "me") (py "XX") (py "token")
         (py "let it be") (Examples.fresh (Examples.start ∅))) =
      output_data (Examples.fresh (Examples.start ∅)) ++ [r1] /\
    output_data after = output_data before ++ [r2] /\
    spotify_track_uri r2 = spotify_track_uri r1.
Proof.
  apply (X18_same_song_looked_up_once Examples.ascii_lower_str Examples.loads
           Examples.beatles_only (py "me") (py "XX") (py "token")
           (py "let it be") (py "let it be") Examples.let_it_be
           Examples.let_it_be Samples.let_it_be_fields
           Samples.let_it_be_fields [py "{"]
           (Examples.fresh (Examples.start ∅)));
    first [reflexivity | repeat split; reflexivity].
Defined.

(** X12 on the end-to-end example: a later run with another token and
    the cache file of the first. *)
Lemma X12_second_run_from_cache_witness :
  let first :=
    convert_with_spotify_api Examples.ascii_lower_str Examples.loads
      Examples.beatles_only [[py "{"; py "let it be"]] (py "me") (py "XX")
      (py "token") (Examples.start ∅) in
  let later : @env unit :=
    {| cache := ∅; cache_file := cache_file (world first); net := tt;
       requests := []; stdout := [] |} in
  let second :=
    convert_with_spotify_api Examples.ascii_lower_str Examples.loads
      Examples.beatles_only [[py "{"; py "let it be"]] (py "me") (py "XX")
      (py "later token") later in
  same_results first second /\
  requests (world second) = [] /\
  net (world second) = tt /\
  cache_file (world second) = cache_file (world first) /\
  cache (world second) = cache (world first).
Proof.
  intros first later second.
  apply (X12_second_run_from_cache Examples.ascii_lower_str Examples.loads
           Examples.beatles_only (py "me") (py "XX")
           [[py "{"; py "let it be"]] (py "token") (py "later token")
           (Examples.start ∅) later).
  reflexivity.
Defined.

(** ** The record of an event *)

Lemma convert_Ok_reads entry user country r :
  convert_lb_entry_to_spotify_format entry user country = Ok r ->
  exists f, reads entry f.
Proof.
  unfold convert_lb_entry_to_spotify_format. intros H.
  destruct (Py.getitem entry (py "track_metadata")) as [meta|e] eqn:Hmeta;
    [|done].
  rewrite result_bind_Ok in H.
  destruct (Py.get meta (py "additional_info") (JObj [])) as [info|e] eqn:Hinfo;
    [|done].
  rewrite result_bind_Ok in H.
  destruct (Py.getitem entry (py "listened_at")) as [la|e] eqn:Hla; [|done].
  rewrite result_bind_Ok in H.
  destruct (Datetime.as_timestamp la) as [t|e] eqn:Ht; [|done].
  rewrite result_bind_Ok in H.
  destruct (Datetime.utcfromtimestamp_isoformat t) as [iso|e] eqn:Hiso; [|done].
  rewrite result_bind_Ok in H.
  destruct (Py.get meta (py "artist_name") (JStr []) ≫= Py.strip)
    as [artist_raw|e] eqn:Hartist; [|done].
  rewrite result_bind_Ok in H.
  destruct (Py.get meta (py "track_name") (JStr []) ≫= Py.strip)
    as [track_raw|e] eqn:Htrack; [|done].
  rewrite result_bind_Ok in H.
  destruct (Py.get meta (py "release_name") (JStr []) ≫= Py.strip)
    as [album_raw|e] eqn:Halbum; [|done].
  rewrite result_bind_Ok in H.
  destruct (Py.get info (py "spotify_id") JNull) as [sid|e] eqn:Hsid; [|done].
  destruct (get_Ok_obj _ _ _ _ Hsid) as [items ->].
  exists {| f_meta := meta; f_info := items; f_listened_at := t;
            f_iso := iso; f_artist_raw := artist_raw;
            f_track_raw := track_raw; f_album_raw := album_raw;
            f_spotify_id := sid |}.
  unfold reads.
  cbn [f_meta f_info f_listened_at f_iso f_artist_raw f_track_raw
       f_album_raw f_spotify_id].
  rewrite Hla, result_bind_Ok. done.
Qed.

(** X13.  [convert_lb_entry_to_spotify_format] returns a record exactly
    when the fields of the event can be read and either [spotify_id]
    makes no reference to a track page (it is absent, empty, or a value
    without the marker), or it is a string with the marker; in that case
    the uri of the record is ["spotify:track:"] followed by what comes
    after the last ["/"] of the string.  Any other event raises: a
    missing or ill-typed field, a timestamp out of range, or a
    [spotify_id] that holds the marker without being a string. *)
Theorem X13_record_from_event (entry : json) (user country : pystr) (r : record) :
  convert_lb_entry_to_spotify_format entry user country = Ok r <->
  exists f, reads entry f /\
    ((has_track_reference (f_spotify_id f) = Ok false /\
      r = output_of user country (f_iso f ++ py "Z") (f_track_raw f)
            (f_artist_raw f) (f_album_raw f) None (duration_of f)
            (f_listened_at f))
     \/
     (exists pre seg,
        f_spotify_id f = JStr (pre ++ py "/" ++ seg) /\ (47 ∉ seg) /\
        Str.contains (py "open.spotify.com/track/") (pre ++ py "/" ++ seg)
          = true /\
        r = output_of user country (f_iso f ++ py "Z") (f_track_raw f)
              (f_artist_raw f) (f_album_raw f)
              (Some (py "spotify:track:" ++ seg)) (duration_of f)
              (f_listened_at f))).
Proof.
  change (py "/") with [47]. cbn [app]. split.
  - intros H. destruct (convert_Ok_reads _ _ _ _ H) as [f Hreads].
    exists f. split; [done|].
    rewrite (convert_reads user country entry f Hreads) in H.
    destruct (has_track_reference (f_spotify_id f)) as [[|]|e] eqn:Href;
      [| |done].
    + right. rewrite result_bind_Ok in H.
      destruct (f_spotify_id f) as [| | |sid| |] eqn:Hsid; try done.
      cbn [Py.split_last] in H. rewrite !result_bind_Ok in H.
      injection H as <-.
      assert (Str.contains (py "open.spotify.com/track/") sid = true) as Hc.
      { unfold has_track_reference in Href.
        destruct (Py.truthy (JStr sid)); [|done].
        cbn [Py.contains] in Href. by injection Href. }
      assert (47 ∈ sid) as Hin.
      { eapply StrMore.contains_elem; [|exact Hc].
        apply list_elem_of_lookup. by exists 16%nat. }
      destruct (StrMore.split_from_last_app 47 sid [] Hin) as [pre Hpre].
      fold (Str.split [47] sid) in Hpre.
      exists pre, (List.last (Str.split [47] sid) []).
      split; [by rewrite <- Hpre|].
      split; [apply StrMore.split_last_char|].
      split; [by rewrite <- Hpre|done].
    + left. rewrite !result_bind_Ok in H. by injection H as <-.
  - intros (f & Hreads & [[Href ->]|(pre & seg & Hsid & Hseg & Hc & ->)]);
      rewrite (convert_reads user country entry f Hreads).
    + by rewrite Href.
    + rewrite Hsid, (has_track_reference_str _ Hc), result_bind_Ok.
      cbn [Py.split_last]. rewrite result_bind_Ok.
      change (py "/") with [47]. by rewrite StrMore.split_last_app.
Qed.

(** ** The final statistics *)

Lemma add_ms_int_of total value :
  add_ms total value =
  match int_of value with
  | Some z => Ok (total + z)%Z
  | None => Raise TypeError
  end.
Proof. by destruct value. Qed.

Lemma played_ms_cons r l :
  played_ms (r :: l) = (default 0 (int_of (ms_played r)) + played_ms l)%Z.
Proof. done. Qed.

Lemma stats_loop_spec l : forall s,
  stats_loop l s =
  if decide (Forall (fun r => is_Some (int_of (ms_played r))) l)
  then Ok {| total_records := total_records s + Z.of_nat (length l);
             unique_artists :=
               list_to_set (map master_metadata_album_artist_name l)
               ∪ unique_artists s;
             unique_tracks :=
               list_to_set (map master_metadata_track_name l) ∪ unique_tracks s;
             total_ms := total_ms s + played_ms l |}
  else Raise TypeError.
Proof.
  induction l as [|r l IH]; intros s.
  - rewrite decide_True by constructor. destruct s. cbn.
    f_equal. f_equal; [lia|set_solver|set_solver|lia].
  - cbn [stats_loop]. rewrite add_ms_int_of.
    destruct (int_of (ms_played r)) as [z|] eqn:E.
    + rewrite result_bind_Ok, IH.
      cbn [total_records unique_artists unique_tracks total_ms].
      destruct (decide (Forall _ l)) as [Hl|Hl].
      * rewrite decide_True by (constructor; [by rewrite E|done]).
        f_equal. rewrite played_ms_cons, E.
        cbn [length map list_to_set default id].
        f_equal; [lia|set_solver|set_solver|lia].
      * rewrite decide_False; [done|]. intros H. by inversion H.
    + rewrite decide_False; [done|]. intros H. inversion H as [|? ? [z Hz] _].
      congruence.
Qed.

Lemma size_list_to_set_le (l : list pystr) :
  (size (list_to_set l : gset pystr) <= length l)%nat.
Proof.
  induction l as [|x l IH]; cbn [list_to_set length].
  - by rewrite size_empty.
  - rewrite size_union_alt, size_singleton.
    assert (size (list_to_set l ∖ {[x]} : gset pystr) <=
            size (list_to_set l : gset pystr))%nat
      by (apply subseteq_size; set_solver).
    lia.
Qed.

(** X14.  When [ms_played] is an integer (or a boolean) in every
    record, the final statistics are these: the record count is the
    number of records, the artists and the tracks are those of the
    records, and the total is the sum of [ms_played].  When [ms_played]
    is a null, a string, a list or an object in some record, the loop
    raises [TypeError].  Statistics that exist count every record, and
    have no more artists and no more tracks than records. *)
Theorem X14_final_stats (output : list record) :
  (Forall (fun r => is_Some (int_of (ms_played r))) output ->
   final_stats output =
     Ok {| total_records := Z.of_nat (length output);
           unique_artists :=
             list_to_set (map master_metadata_album_artist_name output);
           unique_tracks :=
             list_to_set (map master_metadata_track_name output);
           total_ms := played_ms output |}) /\
  (Exists (fun r => no_number (ms_played r)) output ->
   final_stats output = Raise TypeError) /\
  (forall s, final_stats output = Ok s ->
     total_records s = Z.of_nat (length output) /\
     (size (unique_artists s) <= length output)%nat /\
     (size (unique_tracks s) <= length output)%nat).
Proof.
  assert (final_stats output =
    (if decide (Forall (fun r => is_Some (int_of (ms_played r))) output)
     then Ok {| total_records := Z.of_nat (length output);
                unique_artists :=
                  list_to_set (map master_metadata_album_artist_name output);
                unique_tracks :=
                  list_to_set (map master_metadata_track_name output);
                total_ms := played_ms output |}
     else Raise TypeError)) as E.
  { unfold final_stats. rewrite stats_loop_spec.
    destruct (decide _); [|done].
    cbn [total_records unique_artists unique_tracks total_ms].
    f_equal. f_equal; first [lia|set_solver]. }
  split; [|split].
  - intros Hall. by rewrite E, decide_True.
  - intros Hex. rewrite E, decide_False; [done|]. intros Hall.
    apply Exists_exists in Hex as (r & Hin & Hr).
    rewrite Forall_forall in Hall. destruct (Hall r Hin) as [z Hz].
    by destruct (ms_played r).
  - intros s Hs. rewrite E in Hs.
    destruct (decide _); [|done]. injection Hs as <-.
    cbn [total_records unique_artists unique_tracks]. split; [done|]. split.
    + etrans; [apply size_list_to_set_le|]. by rewrite length_map.
    + etrans; [apply size_list_to_set_le|]. by rewrite length_map.
Qed.

(** X15.  The play time shown is the total rounded down to a whole
    minute: the minutes are below 60, and hours and minutes together are
    the number of whole minutes in the total. *)
Theorem X15_play_time (total : Z) :
  let hours := (play_time total).1 in
  let minutes := (play_time total).2 in
  (0 <= minutes < 60)%Z /\
  (60000 * (60 * hours + minutes) <= total
   < 60000 * (60 * hours + minutes) + 60000)%Z /\
  (0 <= hours <-> 0 <= total)%Z.
Proof.
  unfold play_time. cbn [fst snd]. Z.div_mod_to_equations. lia.
Qed.

(** ** The files of the data folder *)

Lemma dir_ind' (P : Os.dir -> Prop) :
  (forall files subdirs,
     Forall (fun p => match p.2 with Some d => P d | None => True end) subdirs ->
     P (Os.Dir files subdirs)) ->
  forall d, P d.
Proof.
  intros H. fix IH 1. intros [files subdirs]. apply H.
  induction subdirs as [|[name [sub|]] l IHl]; constructor; try done.
  apply IH.
Qed.

Lemma startswith_app_r p s t :
  Str.startswith p s = true -> Str.startswith p (s ++ t) = true.
Proof.
  rewrite !StrMore.startswith_prefix. intros H. by apply prefix_app_r.
Qed.

Lemma endswith_app_l suffix a b :
  Str2.endswith suffix b = true -> Str2.endswith suffix (a ++ b) = true.
Proof.
  unfold Str2.endswith. rewrite rev_app_distr. apply startswith_app_r.
Qed.

Lemma endswith_path_join suffix root file :
  Str2.endswith suffix file = true ->
  Str2.endswith suffix (Os.path_join root file) = true.
Proof.
  intros H. unfold Os.path_join.
  destruct (Str.startswith (py "/") file); [done|].
  destruct (_ || _); [by apply endswith_app_l|].
  by apply endswith_app_l, endswith_app_l.
Qed.

(** The generator, directory by directory. *)
Lemma all_jsonl_files_in_Dir folder files subdirs :
  all_jsonl_files_in folder (Os.Dir files subdirs) =
  map (Os.path_join folder) (List.filter (Str2.endswith (py ".jsonl")) files)
  ++ flat_map
       (fun p => match p.2 with
                 | Some sub => all_jsonl_files_in (Os.path_join folder p.1) sub
                 | None => []
                 end)
       subdirs.
Proof.
  unfold all_jsonl_files_in. cbn [Os.walk flat_map]. f_equal.
  - induction files as [|file files IH]; [done|].
    cbn [flat_map List.filter]. rewrite IH.
    by destruct (Str2.endswith (py ".jsonl") file).
  - induction subdirs as [|[name [sub|]] l IH]; [done| |].
    + cbn [flat_map snd fst]. rewrite flat_map_app. by rewrite IH.
    + cbn [flat_map snd fst]. by rewrite IH.
Qed.

(** X16.  [all_jsonl_files_in] yields the files of the folder whose
    name ends with [".jsonl"] first, in the order of the listing, then
    those of each subdirectory that [os.walk] enters, in that order.
    Every path it yields ends with [".jsonl"], and it yields one path for
    each such file of the tree, no more and no less. *)
Theorem X16_all_jsonl_files_in (folder : pystr) (files : list pystr)
    (subdirs : list (pystr * option Os.dir)) :
  let d := Os.Dir files subdirs in
  all_jsonl_files_in folder d =
    map (Os.path_join folder) (List.filter (Str2.endswith (py ".jsonl")) files)
    ++ flat_map
         (fun p => match p.2 with
                   | Some sub => all_jsonl_files_in (Os.path_join folder p.1) sub
                   | None => []
                   end)
         subdirs /\
  Forall (fun path => Str2.endswith (py ".jsonl") path = true)
    (all_jsonl_files_in folder d) /\
  length (all_jsonl_files_in folder d) = count_jsonl d.
Proof.
  intros d. split; [apply all_jsonl_files_in_Dir|]. split.
  - revert folder. generalize d. clear.
    induction d as [files subdirs IH] using dir_ind'. intros folder.
    rewrite all_jsonl_files_in_Dir. apply Forall_app. split.
    + apply Forall_forall. intros path Hin.
      apply list_elem_of_fmap in Hin as (file & -> & Hin).
      apply endswith_path_join.
      apply list_elem_of_In, List.filter_In in Hin. by destruct Hin.
    + induction IH as [|[name [sub|]] l Hsub _ IHl]; cbn [flat_map].
      * constructor.
      * apply Forall_app. split; [apply Hsub|apply IHl].
      * apply IHl.
  - revert folder. generalize d. clear.
    induction d as [files subdirs IH] using dir_ind'. intros folder.
    rewrite all_jsonl_files_in_Dir, length_app, length_map.
    cbn [count_jsonl]. f_equal.
    induction IH as [|[name [sub|]] l Hsub _ IHl]; cbn [flat_map]; [done| |].
    + rewrite length_app. cbn [snd fst]. by rewrite Hsub, IHl.
    + apply IHl.
Qed.

(** ** The report of unknown songs *)

Module SortFacts.
Import Str2.

Lemma le_refl a : le a a = true.
Proof.
  induction a as [|x a IH]; [done|]. simpl. by rewrite N.ltb_irrefl.
Qed.

Lemma le_total a : forall b, le a b = true \/ le b a = true.
Proof.
  induction a as [|x a IH]; intros [|y b]; simpl; try by left. { by right. }
  destruct (N.ltb_spec x y), (N.ltb_spec y x); try lia; try (by left);
    try (by right).
  apply IH.
Qed.

Lemma le_trans a : forall b c, le a b = true -> le b c = true -> le a c = true.
Proof.
  induction a as [|x a IH]; intros [|y b] [|z c]; simpl; try done.
  destruct (N.ltb_spec x y), (N.ltb_spec y x), (N.ltb_spec y z),
    (N.ltb_spec z y), (N.ltb_spec x z), (N.ltb_spec z x);
    try lia; try done.
  apply IH.
Qed.

Lemma le_antisym a : forall b, le a b = true -> le b a = true -> a = b.
Proof.
  induction a as [|x a IH]; intros [|y b]; simpl; try done.
  destruct (N.ltb_spec x y), (N.ltb_spec y x); try lia; try done.
  intros H1 H2. f_equal; [lia|by apply IH].
Qed.

#[export] Instance le_Total : Total (fun a b => le a b = true).
Proof. intros a b. apply le_total. Qed.

#[export] Instance le_Transitive : Transitive (fun a b => le a b = true).
Proof. intros a b c. apply le_trans. Qed.

#[export] Instance le_AntiSymm : AntiSymm (=) (fun a b => le a b = true).
Proof. intros a b. apply le_antisym. Qed.

Lemma sorted_strongly l : StronglySorted (fun a b => le a b = true) (sorted l).
Proof. apply StronglySorted_merge_sort; apply _. Qed.

Lemma sorted_Permutation l : sorted l ≡ₚ l.
Proof. apply merge_sort_Permutation. Qed.

(** [sorted] does not depend on the order of its argument. *)
Lemma sorted_order l1 l2 : l1 ≡ₚ l2 -> sorted l1 = sorted l2.
Proof.
  intros H. apply (StronglySorted_unique (fun a b => le a b = true));
    [apply sorted_strongly|apply sorted_strongly|].
  by rewrite !sorted_Permutation.
Qed.

Lemma strongly_sorted_strict (l : list pystr) :
  NoDup l -> StronglySorted (fun a b => le a b = true) l ->
  StronglySorted (fun a b => le a b = true /\ a <> b) l.
Proof.
  induction l as [|x l IH]; intros Hnd Hs; [constructor|].
  apply NoDup_cons in Hnd as [Hx Hnd].
  apply StronglySorted_cons in Hs as [Hall Hs].
  apply StronglySorted_cons. split; [|by apply IH].
  apply Forall_forall. intros y Hy. split.
  - rewrite Forall_forall in Hall. by apply Hall.
  - by intros ->.
Qed.

Lemma split_from_app_sep c x : forall cur rest,
  c ∉ x ->
  Str.split_from [c] 0 cur (x ++ c :: rest) =
  (cur ++ x) :: Str.split_from [c] 0 [] rest.
Proof.
  induction x as [|y x IH]; intros cur rest Hc.
  - cbn [app Str.split_from Str.startswith]. rewrite N.eqb_refl.
    cbn [andb length Nat.sub]. by rewrite app_nil_r.
  - cbn [app Str.split_from Str.startswith].
    destruct (N.eqb_spec c y) as [->|Hne]; [exfalso; apply Hc; by left|].
    cbn [andb]. rewrite IH by (intros ?; apply Hc; by right).
    by rewrite <- app_assoc.
Qed.

(** Cutting at [c] what was joined with [c] gives the parts back. *)
Lemma split_join c l :
  l <> [] -> Forall (fun s => c ∉ s) l -> Str.split [c] (join [c] l) = l.
Proof.
  induction l as [|x l IH]; intros Hne Hall; [done|].
  apply Forall_cons in Hall as [Hx Hall].
  destruct l as [|y l].
  - cbn [join]. unfold Str.split. by rewrite StrFacts.split_from_absent.
  - change (join [c] (x :: y :: l)) with (x ++ c :: join [c] (y :: l)).
    unfold Str.split. rewrite split_from_app_sep by done.
    cbn [app]. f_equal. by apply IH.
Qed.

End SortFacts.

(** X17.  The report of unknown songs lists every unknown once, one per
    line, in ascending order of code points, whatever the order in which
    the set is iterated.  When the set is not empty and no unknown holds
    a newline, cutting the report at the newlines gives the unknowns
    back. *)
Theorem X17_unknowns_report (u : gset pystr) :
  let lines := sorted (elements u) in
  unknowns_report u = Str2.join [10] lines /\
  (forall l, l ≡ₚ elements u -> sorted l = lines) /\
  (forall s, s ∈ lines <-> s ∈ u) /\
  length lines = size u /\
  StronglySorted (fun a b => Str2.le a b = true /\ a <> b) lines /\
  (u <> ∅ -> (forall s, s ∈ u -> 10 ∉ s) ->
   Str.split [10] (unknowns_report u) = lines).
Proof.
  intros lines.
  pose proof (SortFacts.sorted_Permutation (elements u)) as Hperm.
  fold lines in Hperm.
  split; [done|]. split; [intros l Hl; by apply SortFacts.sorted_order|].
  split; [intros s; by rewrite Hperm, elem_of_elements|].
  split; [by rewrite Hperm|].
  split.
  - apply SortFacts.strongly_sorted_strict; [|apply SortFacts.sorted_strongly].
    rewrite Hperm. apply NoDup_elements.
  - intros Hne Hnl. unfold unknowns_report. fold lines.
    apply SortFacts.split_join.
    + intros E. rewrite E in Hperm. symmetry in Hperm.
      apply Permutation_nil_r, elements_empty_inv in Hperm.
      by apply leibniz_equiv in Hperm.
    + apply Forall_forall. intros s Hs. apply Hnl.
      by rewrite Hperm, elem_of_elements in Hs.
Qed.
